(** * Fisher-Alignln: the federated-defence round simulator of [src/index.tsx]

    The simulation engine ([runRound] and its helpers) is embedded once,
    over an interface [Num] of the arithmetic a JavaScript [number]
    offers, and read at two instances:

    - [F64_Num]: IEEE-754 binary64 (Rocq's primitive floats), the
      arithmetic the program runs with;
    - [Rnum]: the real numbers, the arithmetic the specification's
      formulas are written in.

    Integer-valued quantities of the source (array indices, the round
    number, the acceptance counters) are natural numbers, converted with
    [ofNat] where the source uses them in arithmetic.

    [Math.random] is a tape of draws threaded through the generator
    ([Rand]); [Math.sin], [Math.cos] and [Math.log], which JavaScript
    leaves to the engine, are the parameters [MathLib] of the generator.
    [runRound] is the generator followed by [advance], the state update on
    the clients generated; [run] iterates [advance] on gradients given from
    outside, which covers every run of [runRound]
    ([runRound_roundWith]).  A [session] is the mounted component under a
    list of events; it renders after each of them, and every render draws
    from [Math.random] as well, for the argument of [useRef].

    The bounds on the two metrics are proved in binary64 for every
    reachable state; they rest on the monotonicity of [PrimFloat.mul] and
    [PrimFloat.add] on non-negative doubles, derived here from their
    specification [SFmul] and [SFadd]. *)

From Stdlib Require Import Floats ZArith QArith Qreals Reals Lra Lia.
From Stdlib Require Import List Bool Arith Sorted.
Import ListNotations.

Set Warnings "-inexact-float".
Open Scope nat_scope.

(** ** The numeric interface *)

Class Num (num : Type) : Type := {
  lit : Q -> num;              (* a decimal literal of the source *)
  nadd : num -> num -> num;    (* a + b *)
  nsub : num -> num -> num;    (* a - b *)
  nmul : num -> num -> num;    (* a * b *)
  ndiv : num -> num -> num;    (* a / b *)
  nabs : num -> num;           (* Math.abs *)
  nsqrt : num -> num;          (* Math.sqrt *)
  ngtb : num -> num -> bool;   (* a > b *)
  nltb : num -> num -> bool;   (* a < b *)
  is_zero : num -> bool;       (* a === 0 *)
  undef : num                  (* arithmetic on [undefined]: an array read out of range *)
}.

(** [Math.sin], [Math.cos], [Math.log] and [Math.PI]: used by the client
    generator only. *)
Class MathLib (num : Type) : Type := {
  m_sin : num -> num;
  m_cos : num -> num;
  m_log : num -> num;
  m_PI : num
}.

Declare Scope num_scope.
Delimit Scope num_scope with num.
Notation "x + y" := (nadd x y) : num_scope.
Notation "x - y" := (nsub x y) : num_scope.
Notation "x * y" := (nmul x y) : num_scope.
Notation "x / y" := (ndiv x y) : num_scope.
Notation "x >? y" := (ngtb x y) (at level 70, no associativity) : num_scope.
Notation "x <? y" := (nltb x y) (at level 70, no associativity) : num_scope.
Notation "# q" := (lit q%Q) (at level 5, q at level 1, format "# q") : num_scope.

(** An integer of the source used as a number. *)
Definition ofNat {num} `{Num num} (n : nat) : num := lit (inject_Z (Z.of_nat n)).

(** ** binary64 *)

Module F64.

Fixpoint of_pos (p : positive) : float :=
  match p with
  | xH => 1
  | xO q => 2 * of_pos q
  | xI q => 2 * of_pos q + 1
  end%float.

Definition of_Z (z : Z) : float :=
  match z with
  | Z0 => 0%float
  | Zpos p => of_pos p
  | Zneg p => (- of_pos p)%float
  end.

(** A literal [n/d] is the double nearest to it: numerator and
    denominator of every literal of the program are below 2^53, hence
    exact, and the division rounds to nearest. *)
Definition of_Q (q : Q) : float := (of_Z (Qnum q) / of_pos (Qden q))%float.

Definition nan : float := (0 / 0)%float.

End F64.

#[export] Instance F64_Num : Num float := {|
  lit := F64.of_Q;
  nadd := PrimFloat.add;
  nsub := PrimFloat.sub;
  nmul := PrimFloat.mul;
  ndiv := PrimFloat.div;
  nabs := PrimFloat.abs;
  nsqrt := PrimFloat.sqrt;
  ngtb := fun a b => PrimFloat.ltb b a;
  nltb := PrimFloat.ltb;
  is_zero := fun a => PrimFloat.eqb a 0%float;
  undef := F64.nan
|}.

(** ** Real numbers *)

Definition Rgtb (a b : R) : bool := if Rlt_dec b a then true else false.
Definition Rltb (a b : R) : bool := if Rlt_dec a b then true else false.
Definition Rzerob (a : R) : bool := if Req_dec_T a 0%R then true else false.

#[export] Instance Rnum : Num R := {|
  lit := Q2R;
  nadd := Rplus;
  nsub := Rminus;
  nmul := Rmult;
  ndiv := Rdiv;
  nabs := Rabs;
  nsqrt := sqrt;
  ngtb := Rgtb;
  nltb := Rltb;
  is_zero := Rzerob;
  undef := 0%R
|}.

#[export] Instance Rmath : MathLib R := {|
  m_sin := sin;
  m_cos := cos;
  m_log := ln;
  m_PI := PI
|}.

(** ** JavaScript array helpers *)

(** [Array.from({length: n}, (_, i) => f i)] *)
Definition array_from {A} (n : nat) (f : nat -> A) : list A := map f (seq 0 n).

(** [a.map((x, i) => f x i)], the index counted from [k] *)
Fixpoint map_from {A B} (k : nat) (f : A -> nat -> B) (a : list A) : list B :=
  match a with
  | [] => []
  | x :: a' => f x k :: map_from (S k) f a'
  end.

Definition mapi {A B} (f : A -> nat -> B) (a : list A) : list B := map_from 0 f a.

(** [a.reduce((acc, x, i) => f acc x i, init)], the index counted from [k] *)
Fixpoint reduce_from {A B} (k : nat) (f : B -> A -> nat -> B) (a : list A) (init : B) : B :=
  match a with
  | [] => init
  | x :: a' => reduce_from (S k) f a' (f init x k)
  end.

Definition reduce {A B} (f : B -> A -> nat -> B) (a : list A) (init : B) : B :=
  reduce_from 0 f a init.

(** [a.slice(-n)]: the last [n] elements, all of [a] when it is shorter. *)
Definition slice_last {A} (n : nat) (a : list A) : list A := skipn (length a - n) a.

(** ** Types and constants *)

Inductive ClientType : Set := benign | malicious.

Definition is_malicious (t : ClientType) : bool :=
  match t with malicious => true | benign => false end.

Definition VECTOR_DIM : nat := 20.
Definition NUM_CLIENTS : nat := 20.

Section Engine.

Context {num : Type} `{Num num}.
Local Open Scope num_scope.

Definition MALICIOUS_RATIO : num := #0.2.

Record Client : Type := mkClient {
  id : nat;
  type : ClientType;
  gradient : list num;
  dataDistribution : num;
  stiffnessViolationScore : num;
  isAccepted : bool
}.

Record HistoryEntry : Type := mkEntry {
  h_round : nat;
  acc : num;
  asr : num
}.

Record SimulationState : Type := mkState {
  round : nat;
  globalAccuracy : num;
  backdoorSuccessRate : num;
  globalFIM : list num;
  clients : list Client;
  history : list HistoryEntry
}.

(** The defence toggles and the environment sliders [runRound] closes over. *)
Record Config : Type := mkConfig {
  useMomentumFIM : bool;
  useStiffnessMask : bool;
  useLayerWeightedClustering : bool;
  nonIIDLevel : num;
  attackStealth : num
}.

(** Reading a vector: [v[i]]. *)
Definition at_ (v : list num) (i : nat) : num := nth i v undef.

(** *** Helper math functions *)

Definition dot (a b : list num) : num :=
  reduce (fun sum v i => sum + v * at_ b i) a #0.

Definition mag (a : list num) : num :=
  nsqrt (reduce (fun sum v _ => sum + v * v) a #0).

(** *** Runtime state at start and after [handleReset] *)

Definition initialState : SimulationState :=
  {| round := 0;
     globalAccuracy := #0.1;
     backdoorSuccessRate := #0;
     globalFIM := repeat #1 VECTOR_DIM;
     clients := [];
     history := [] |}.

Definition handleReset (_ : SimulationState) : SimulationState := initialState.

(** *** Client typing (step 1 of [runRound]) *)

(** The typing rule [i < NUM_CLIENTS * MALICIOUS_RATIO], for a client
    count [n] and a ratio [r]. *)
Definition clientTypeFor (n : nat) (r : num) (i : nat) : ClientType :=
  if ofNat i <? ofNat n * r then malicious else benign.

Definition clientType (i : nat) : ClientType :=
  clientTypeFor NUM_CLIENTS MALICIOUS_RATIO i.

Definition clientDistribution (i : nat) : num :=
  match clientType i with
  | malicious => #0.9
  | benign => ofNat i / ofNat NUM_CLIENTS
  end.

(** The client record built for index [i] once its gradient is drawn. *)
Definition newClient (i : nat) (g : list num) : Client :=
  {| id := i;
     type := clientType i;
     dataDistribution := clientDistribution i;
     gradient := g;
     stiffnessViolationScore := #0;
     isAccepted := true |}.

(** *** Momentum FIM (step 2) *)

Definition idealFIM : list num :=
  array_from VECTOR_DIM (fun i => if (i <? 5)%nat then #10.0 else #1.0).

Definition updateFIM (cfg : Config) (prevFIM : list num) : list num :=
  if useMomentumFIM cfg
  then mapi (fun f i => #0.9 * f + #0.1 * at_ idealFIM i) prevFIM
  else prevFIM.

(** *** Detection *)

Definition stiffnessThreshold (cfg : Config) : num :=
  (if useMomentumFIM cfg then #12 else #15) * (#1 + nonIIDLevel cfg).

(** Mechanism A: the flag [isMaliciousDetected] and [stiffnessScore]
    after the first [if] block. *)
Definition mechanismA (cfg : Config) (currentFIM g : list num) : bool * num :=
  if useStiffnessMask cfg then
    let stiffnessScore :=
      reduce (fun acc val idx =>
                let importance := at_ currentFIM idx in
                acc + importance * nabs val) g #0 in
    let stiffnessScore := stiffnessScore / ofNat VECTOR_DIM in
    (if stiffnessScore >? stiffnessThreshold cfg then true else false, stiffnessScore)
  else (false, #0).

(** The [for] loop of mechanism B. *)
Definition clusterDist (cfg : Config) (currentFIM trueGradient g : list num) : num :=
  fold_left
    (fun dist i =>
       let weight := if useLayerWeightedClustering cfg then at_ currentFIM i else #1 in
       let diff := at_ g i - at_ trueGradient i in
       dist + weight * (diff * diff))
    (seq 0 VECTOR_DIM) #0.

(** Mechanism B: the flag after the second [if] block, from the flag before it. *)
Definition mechanismB (cfg : Config) (currentFIM trueGradient g : list num)
           (isMaliciousDetected : bool) : bool :=
  if useLayerWeightedClustering cfg && negb isMaliciousDetected then
    if clusterDist cfg currentFIM trueGradient g >? #500 * (#1 + nonIIDLevel cfg)
    then true else isMaliciousDetected
  else isMaliciousDetected.

(** The control-group check: the flag after the third [if] block. *)
Definition fallbackCheck (cfg : Config) (g : list num) (isMaliciousDetected : bool) : bool :=
  if negb (useStiffnessMask cfg) && negb (useLayerWeightedClustering cfg) then
    if mag g >? #25 then true else isMaliciousDetected
  else isMaliciousDetected.

Definition processClient (cfg : Config) (currentFIM trueGradient : list num)
           (client : Client) : Client :=
  let '(detectedA, stiffnessScore) := mechanismA cfg currentFIM (gradient client) in
  let detectedB := mechanismB cfg currentFIM trueGradient (gradient client) detectedA in
  let isMaliciousDetected := fallbackCheck cfg (gradient client) detectedB in
  {| id := id client;
     type := type client;
     gradient := gradient client;
     dataDistribution := dataDistribution client;
     stiffnessViolationScore := stiffnessScore;
     isAccepted := negb isMaliciousDetected |}.

(** *** Aggregation and metrics (step 3) *)

(** The [forEach] loop: [(acceptedCount, maliciousAccepted)]. *)
Definition countAccepted (processedClients : list Client) : nat * nat :=
  fold_left
    (fun '(acceptedCount, maliciousAccepted) c =>
       if isAccepted c
       then (S acceptedCount,
             if is_malicious (type c) then S maliciousAccepted else maliciousAccepted)
       else (acceptedCount, maliciousAccepted))
    processedClients (0, 0)%nat.

(** [maliciousAccepted / (acceptedCount || 1)] *)
Definition attackImpactOf (acceptedCount maliciousAccepted : nat) : num :=
  ofNat maliciousAccepted / ofNat (if (acceptedCount =? 0)%nat then 1 else acceptedCount).

Definition newAccOf (prevAcc attackImpact : num) : num :=
  let targetAcc := #0.95 - attackImpact * #0.5 in
  prevAcc * #0.8 + targetAcc * #0.2.

Definition newASROf (prevASR attackImpact : num) : num :=
  let targetASR := if attackImpact >? #0.1 then #0.9 else #0.0 in
  prevASR * #0.8 + targetASR * #0.2.

(** The state update of [runRound], from the clients generated for the round. *)
Definition advance (cfg : Config) (trueGradient : list num) (newClients : list Client)
           (prev : SimulationState) : SimulationState :=
  let newRound := S (round prev) in
  let currentFIM := updateFIM cfg (globalFIM prev) in
  let processedClients := map (processClient cfg currentFIM trueGradient) newClients in
  let '(acceptedCount, maliciousAccepted) := countAccepted processedClients in
  let attackImpact := attackImpactOf acceptedCount maliciousAccepted in
  let newAcc := newAccOf (globalAccuracy prev) attackImpact in
  let newASR := newASROf (backdoorSuccessRate prev) attackImpact in
  let newHistory :=
    slice_last 50 (history prev ++ [ {| h_round := newRound; acc := newAcc; asr := newASR |} ]) in
  {| round := newRound;
     clients := processedClients;
     globalAccuracy := newAcc;
     backdoorSuccessRate := newASR;
     globalFIM := currentFIM;
     history := newHistory |}.

End Engine.

Arguments Client : clear implicits.
Arguments HistoryEntry : clear implicits.
Arguments SimulationState : clear implicits.
Arguments Config : clear implicits.


(** ** The random source and the client generator *)

Section Generator.

Context {num : Type} `{Num num} `{MathLib num}.
Local Open Scope num_scope.

(** A computation that calls [Math.random]: it reads the results of the
    calls off a tape, front first, and hands back the rest of the tape;
    [None] when the tape runs out before the computation ends. *)
Definition Rand (A : Type) : Type := list num -> option (A * list num).

Definition ret {A} (a : A) : Rand A := fun t => Some (a, t).

Definition bind {A B} (m : Rand A) (k : A -> Rand B) : Rand B :=
  fun t => match m t with
           | Some (a, t') => k a t'
           | None => None
           end.

Local Notation "x <- m ;; k" := (bind m (fun x => k))
  (at level 100, m at next level, right associativity).

(** A callback run over an array in index order. *)
Fixpoint for_each {A B} (f : A -> Rand B) (l : list A) : Rand (list B) :=
  match l with
  | [] => ret []
  | a :: l' => b <- f a ;; bs <- for_each f l' ;; ret (b :: bs)
  end.

(** [let u = 0; while (u === 0) u = Math.random();] *)
Fixpoint drawNonZero (t : list num) : option (num * list num) :=
  match t with
  | [] => None
  | u :: t' => if is_zero u then drawNonZero t' else Some (u, t')
  end.

Definition randomNormal : Rand num :=
  u <- drawNonZero ;;
  v <- drawNonZero ;;
  ret (nsqrt (#(-2.0) * m_log u) * m_cos (#2.0 * m_PI * v)).

Definition generateGradient (type : ClientType)
           (distribution nonIIDLevel attackStrength : num)
           (globalModelDirection : list num) : Rand (list num) :=
  for_each
    (fun i =>
       let val := at_ globalModelDirection i in
       r <- randomNormal ;;
       let noise := r * nonIIDLevel * #2 in
       let bias := m_sin (distribution * m_PI * #2 + ofNat i) * nonIIDLevel in
       let val := val + (noise + bias) in
       match type with
       | malicious =>
           if (i <? 5)%nat
           then ret (val - attackStrength * #5)
           else r' <- randomNormal ;; ret (val + r' * #0.5)
       | benign => ret val
       end)
    (seq 0 VECTOR_DIM).

(** Step 1 of [runRound]. *)
Definition generateClients (cfg : Config num) (trueGradient : list num) : Rand (list (Client num)) :=
  for_each
    (fun i =>
       let strength := #1.5 - attackStealth cfg in
       g <- generateGradient (clientType i) (clientDistribution i)
                             (nonIIDLevel cfg) strength trueGradient ;;
       ret (newClient i g))
    (seq 0 NUM_CLIENTS).

Definition runRound (cfg : Config num) (trueGradient : list num)
           (prev : SimulationState num) : Rand (SimulationState num) :=
  newClients <- generateClients cfg trueGradient ;;
  ret (advance cfg trueGradient newClients prev).

(** The argument of [useRef] on line 131,
    [Array.from({length: VECTOR_DIM}, () => randomNormal())]. *)
Definition initTrueGradient : Rand (list num) :=
  for_each (fun _ => randomNormal) (seq 0 VECTOR_DIM).

(** A render of [App].  The body of the component runs on every render,
    and with it the argument of [useRef]: twenty calls of [randomNormal].
    [useRef] keeps the array of the first render in [trueGradientRef];
    on every later render the array just drawn is dropped. *)
Definition render : Rand unit :=
  _ <- initTrueGradient ;; ret tt.

(** What happens to the mounted component.  Each event changes a piece of
    state, so React renders [App] again:
    - [tick cfg]: the interval timer calls [runRound], whose closure holds
      the configuration [cfg]; the updater passed to [setState] runs, then
      the component renders;
    - [reset]: [handleReset];
    - [rerender]: any other state change (a toggle, a slider, play, pause). *)
Inductive Event : Type :=
| tick (cfg : Config num)
| reset
| rerender.

Definition step (trueGradient : list num) (st : SimulationState num)
           (ev : Event) : Rand (SimulationState num) :=
  match ev with
  | tick cfg =>
      st' <- runRound cfg trueGradient st ;;
      _ <- render ;;
      ret st'
  | reset => _ <- render ;; ret (handleReset st)
  | rerender => _ <- render ;; ret st
  end.

(** The states after each event of a list, from the state [st]. *)
Fixpoint runEvents (trueGradient : list num) (evs : list Event)
         (st : SimulationState num) : Rand (list (SimulationState num)) :=
  match evs with
  | [] => ret []
  | ev :: evs' =>
      st' <- step trueGradient st ev ;;
      rest <- runEvents trueGradient evs' st' ;;
      ret (st' :: rest)
  end.

(** A session: the component mounts, which draws the true direction, and
    the events follow.  It yields the true direction and the states after
    each event. *)
Definition session (evs : list Event) : Rand (list num * list (SimulationState num)) :=
  trueGradient <- initTrueGradient ;;
  sts <- runEvents trueGradient evs initialState ;;
  ret (trueGradient, sts).

(** The number of usable draws on a tape. *)
Definition nonzeros (t : list num) : nat :=
  length (filter (fun u => negb (is_zero u)) t).

End Generator.

Arguments Rand : clear implicits.
Arguments Event : clear implicits.

Section TapeProperties.

Context {num : Type} `{Num num}.

(** [m] reads a prefix of the tape and nothing else: its result does not
    depend on what follows the draws it consumed. *)
Definition framed {A} (m : Rand num A) : Prop :=
  forall t a r,
    m t = Some (a, r) ->
    exists used, t = used ++ r /\ forall r', m (used ++ r') = Some (a, r').

(** [m] returns as soon as the tape holds [n] non-zero draws, and consumes
    at most [n] of them. *)
Definition draws_at_most {A} (n : nat) (m : Rand num A) : Prop :=
  forall t,
    n <= nonzeros t ->
    exists a r, m t = Some (a, r) /\ nonzeros t <= nonzeros r + n.

End TapeProperties.

(** ** Runs, with the gradients of each round given *)

Section Runs.

Context {num : Type} `{Num num}.
Local Open Scope num_scope.

(** The clients of a round whose gradients are [gs], client [i] getting [gs[i]]. *)
Definition clientsWith (gs : list (list num)) : list (Client num) :=
  array_from NUM_CLIENTS (fun i => newClient i (nth i gs [])).

(** What a round depends on besides the previous state: the configuration
    in force and the gradients drawn. *)
Definition RoundInput : Type := Config num * list (list num).

Definition roundWith (trueGradient : list num) (st : SimulationState num)
           (inp : RoundInput) : SimulationState num :=
  advance (fst inp) trueGradient (clientsWith (snd inp)) st.

Definition run (trueGradient : list num) (inputs : list RoundInput) : SimulationState num :=
  fold_left (roundWith trueGradient) inputs initialState.

(** The states after round 1, 2, ... of a run that starts in [st]. *)
Fixpoint trace (trueGradient : list num) (st : SimulationState num)
         (inputs : list RoundInput) : list (SimulationState num) :=
  match inputs with
  | [] => []
  | inp :: inputs' =>
      let st' := roundWith trueGradient st inp in
      st' :: trace trueGradient st' inputs'
  end.

(** The history entry a round appends, read off the state it produces. *)
Definition entryOf (st : SimulationState num) : HistoryEntry num :=
  {| h_round := round st; acc := globalAccuracy st; asr := backdoorSuccessRate st |}.

Definition wellShaped (gs : list (list num)) : Prop :=
  length gs = NUM_CLIENTS /\ Forall (fun g => length g = VECTOR_DIM) gs.

(** *** The formulas of the specification *)

(** Σ_{j<n} f j, summed from j = 0 upwards. *)
Definition sigma (n : nat) (f : nat -> num) : num :=
  fold_left (fun s j => s + f j) (seq 0 n) #0.

(** (Σ_j importance[j]·|gradient[j]|) / D *)
Definition spec_stiffnessScore (importance g : list num) : num :=
  sigma VECTOR_DIM (fun j => at_ importance j * nabs (at_ g j)) / ofNat VECTOR_DIM.

(** Σ_j importance[j]·(gradient[j] − TrueDirection[j])² *)
Definition spec_dist (importance g trueDirection : list num) : num :=
  sigma VECTOR_DIM
        (fun j => at_ importance j *
                  ((at_ g j - at_ trueDirection j) * (at_ g j - at_ trueDirection j))).

(** idealImportance[j] = 10.0 if j<5 else 1.0 *)
Definition spec_idealImportance (j : nat) : num :=
  if (j <? 5)%nat then #10.0 else #1.0.

(** The number of accepted clients, and of accepted malicious clients. *)
Definition spec_acceptedCount (cs : list (Client num)) : nat :=
  length (filter isAccepted cs).

Definition spec_maliciousAccepted (cs : list (Client num)) : nat :=
  length (filter (fun c => isAccepted c && is_malicious (type c)) cs).

(** attackImpact = maliciousAccepted / max(acceptedCount, 1) *)
Definition spec_attackImpact (acceptedCount maliciousAccepted : nat) : num :=
  ofNat maliciousAccepted / ofNat (Nat.max acceptedCount 1).

(** 0.8·previousAccuracy + 0.2·(0.95 − attackImpact·0.5) *)
Definition spec_newAccuracy (previousAccuracy attackImpact : num) : num :=
  #0.8 * previousAccuracy + #0.2 * (#0.95 - attackImpact * #0.5).

(** 0.8·previousASR + 0.2·target, target 0.9 if attackImpact > 0.1, else 0.0 *)
Definition spec_newASR (previousASR attackImpact : num) : num :=
  #0.8 * previousASR + #0.2 * (if attackImpact >? #0.1 then #0.9 else #0.0).

(** magnitude(g) = sqrt(Σ_j g[j]²), over the coordinates of [g] *)
Definition spec_magnitude (g : list num) : num :=
  nsqrt (sigma (length g) (fun j => at_ g j * at_ g j)).


(** The types of the clients of a round with [n] clients and ratio [r]. *)
Definition clientTypes (n : nat) (r : num) : list ClientType :=
  array_from n (clientTypeFor n r).


End Runs.

Arguments RoundInput : clear implicits.


(** ** Reachable states and orbits *)

Section Reachability.

Context {num : Type} `{Num num}.
Local Open Scope num_scope.

(** The states the application can be in: the initial one, and those a
    round or a reset leads to. *)
Inductive reachable (trueGradient : list num) : SimulationState num -> Prop :=
| reach_init : reachable trueGradient initialState
| reach_round st inp :
    reachable trueGradient st -> reachable trueGradient (roundWith trueGradient st inp)
| reach_reset st :
    reachable trueGradient st -> reachable trueGradient (handleReset st).

(** The importance update of a round in which momentum-FIM is enabled. *)
Definition emaStep (fim : list num) : list num :=
  mapi (fun f i => #0.9 * f + #0.1 * at_ idealFIM i) fim.

(** The number of rounds of a run in which momentum-FIM was enabled. *)
Definition momentumRounds (inputs : list (RoundInput num)) : nat :=
  length (filter (fun inp : RoundInput num => useMomentumFIM (fst inp)) inputs).

End Reachability.

(** [x, f x, ..., f^n x] *)
Fixpoint iterates {A} (f : A -> A) (n : nat) (x : A) : list A :=
  match n with
  | 0 => [x]
  | S k => x :: iterates f k (f x)
  end.

(** 0 ≤ v ≤ 10, in binary64 and over the reals. *)
Definition F64_in_0_10 (v : float) : bool :=
  PrimFloat.leb 0 v && PrimFloat.leb v 10.

Definition R_in_0_10 (v : R) : Prop := (0 <= v <= 10)%R.

(** Coordinate 0 of the gradient of client 0, from the two non-zero draws
    [u] and [v] its first call of [randomNormal] reads. *)
Definition firstCoordinate {num} `{Num num} `{MathLib num}
           (cfg : Config num) (trueGradient : list num) (u v : num) : num :=
  (let r := nsqrt (#(-2.0) * m_log u) * m_cos (#2.0 * m_PI * v) in
   let noise := r * nonIIDLevel cfg * #2 in
   let bias := m_sin (clientDistribution 0 * m_PI * #2 + ofNat 0) * nonIIDLevel cfg in
   let val := at_ trueGradient 0 + (noise + bias) in
   match clientType 0 with
   | malicious => val - (#1.5 - attackStealth cfg) * #5
   | benign => val
   end)%num.

(** ** Sample inputs *)

Module Sample.

Local Open Scope num_scope.

(** The configuration the application starts with. *)
Definition cfgDefault : Config float :=
  {| useMomentumFIM := true; useStiffnessMask := true;
     useLayerWeightedClustering := true;
     nonIIDLevel := #0.5; attackStealth := #0.6 |}.

(** The control group: every defence switched off. *)
Definition cfgUndefended : Config float :=
  {| useMomentumFIM := false; useStiffnessMask := false;
     useLayerWeightedClustering := false;
     nonIIDLevel := #0.5; attackStealth := #0.6 |}.

(** A true gradient direction, and a gradient close to it. *)
Definition trueDir : list float := repeat #0.5 VECTOR_DIM.

Definition calmGradient : list float := repeat #1 VECTOR_DIM.

(** A gradient pulled down to -4 on the trigger coordinates 0-4. *)
Definition attackGradient : list float := repeat #(-4.0) 5 ++ repeat #1 15.

(** Gradients pulled to -40 and to -9 on the trigger coordinates, and one
    that is 6 on every coordinate. *)
Definition loudGradient : list float := repeat #(-40) 5 ++ repeat #1 15.

Definition midGradient : list float := repeat #(-9) 5 ++ repeat #1 15.

Definition bigGradient : list float := repeat #6 VECTOR_DIM.

(** The importance vector after one round with momentum-FIM enabled. *)
Definition fimRound1 : list float :=
  globalFIM (advance cfgDefault trueDir [] initialState).

Definition attackClient : Client float := newClient 0 attackGradient.

(** A round in which the four malicious clients draw [attackGradient] and
    the sixteen benign ones [calmGradient]. *)
Definition typicalRound (cfg : Config float) : RoundInput float :=
  (cfg, repeat attackGradient 4 ++ repeat calmGradient 16).

End Sample.

(** The starting configuration over the reals, and two tapes on which
    [Math.random] keeps returning 1/4, respectively 1/2. *)
Module SampleR.

Definition cfgDefault : Config R :=
  {| useMomentumFIM := true; useStiffnessMask := true;
     useLayerWeightedClustering := true;
     nonIIDLevel := lit 0.5; attackStealth := lit 0.6 |}.

Definition trueDir : list R := repeat (lit 0) VECTOR_DIM.

Definition tapeQuarter : list R := repeat (/ 4)%R 1600.

Definition tapeHalf : list R := repeat (/ 2)%R 1600.

End SampleR.

(** The ranges claimed for the two metrics: accuracy in [0.1, 0.95) and
    ASR in [0, 0.9), in binary64 and over the reals. *)
Definition F64_metrics_claimed (st : SimulationState float) : bool :=
  PrimFloat.leb 0.1 (globalAccuracy st) && PrimFloat.ltb (globalAccuracy st) 0.95
  && PrimFloat.leb 0 (backdoorSuccessRate st)
  && PrimFloat.ltb (backdoorSuccessRate st) 0.9.

Definition R_metrics_claimed (st : SimulationState R) : Prop :=
  (0.1 <= globalAccuracy st < 0.95)%R /\ (0 <= backdoorSuccessRate st < 0.9)%R.

(** ** binary64: the value of a double, and rounding to nearest

    Every finite double is an integer multiple of 2^-1074.  [SFval B x] is
    the value of a non-negative [x] in units of 2^B, and [RND B a] the
    value, in the same units, of the double nearest to [a] (ties to even):
    what [binary_round_aux], the rounding of [SFmul] and [SFadd], computes. *)

Section Binary64Values.

Local Open Scope Z_scope.

(** [a / g] rounded to the nearest integer, ties to even. *)
Definition rne (a g : Z) : Z :=
  match 2 * (a mod g) ?= g with
  | Lt => a / g
  | Eq => if Z.even (a / g) then a / g else a / g + 1
  | Gt => a / g + 1
  end.

(** The exponent of the last place of a number of magnitude [e]. *)
Definition fexp64 (e : Z) : Z := Z.max (e - 53) (-1074).

Definition RND (B a : Z) : Z :=
  let s := fexp64 (Z.log2 a + 1 + B) in
  2 ^ (s - B) * rne a (2 ^ (s - B)).

(** A shift register after [k] steps of [shr_1] from [m]: the quotient,
    and where the remainder lies relative to one half. *)
Definition shr_inv (m k : Z) (mrs : shr_record) : Prop :=
  0 <= shr_m mrs
  /\ 0 <= m - shr_m mrs * 2 ^ k < 2 ^ k
  /\ match shr_r mrs, shr_s mrs with
     | false, false => m - shr_m mrs * 2 ^ k = 0
     | false, true => 0 < 2 * (m - shr_m mrs * 2 ^ k) < 2 ^ k
     | true, false => 2 * (m - shr_m mrs * 2 ^ k) = 2 ^ k
     | true, true => 2 ^ k < 2 * (m - shr_m mrs * 2 ^ k)
     end.

Definition SFval (B : Z) (x : spec_float) : Z :=
  match x with
  | S754_finite _ m e => Zpos m * 2 ^ (e - B)
  | _ => 0
  end.

(** A zero or a positive finite number. *)
Definition SFnonneg (x : spec_float) : bool :=
  match x with
  | S754_zero _ => true
  | S754_finite false _ _ => true
  | _ => false
  end.

Definition F64val (x : float) : Z := SFval (-1074) (Prim2SF x).

Definition F64nonneg (x : float) : bool := SFnonneg (Prim2SF x).

(** 0 ≤ x ≤ 4 *)
Definition F64small (x : float) : bool := F64nonneg x && PrimFloat.leb x 4.

End Binary64Values.

(** The ranges the two metrics keep in binary64: accuracy in
    [0.1, 0.94999999999999973] and ASR in [0, 0.90000000000000024], the
    fixed points of the smoothing under the highest targets. *)
Definition F64_accuracyTop : float := 0.94999999999999973.

Definition F64_asrTop : float := 0.90000000000000024.

Definition F64_metrics_bounded (st : SimulationState float) : bool :=
  PrimFloat.leb 0.1 (globalAccuracy st)
  && PrimFloat.leb (globalAccuracy st) F64_accuracyTop
  && PrimFloat.leb 0 (backdoorSuccessRate st)
  && PrimFloat.leb (backdoorSuccessRate st) F64_asrTop.

(** What is checked of the smoothing at each pair of counts: the terms added
    are between 0 and 4, and the update maps the ends of the two ranges
    into the ranges. *)
Definition F64_smoothing_ok (am : nat * nat) : bool :=
  let '(a, m) := am in
  let impact := attackImpactOf (num := float) a m in
  F64small ((lit 0.95 - impact * lit 0.5) * lit 0.2)%num
  && F64small ((if (impact >? lit 0.1)%num then lit 0.9 else lit 0.0) * lit 0.2)%num
  && PrimFloat.leb 0.1 (newAccOf 0.1%float impact)
  && PrimFloat.leb (newAccOf F64_accuracyTop impact) F64_accuracyTop
  && PrimFloat.leb 0 (newASROf 0%float impact)
  && PrimFloat.leb (newASROf F64_asrTop impact) F64_asrTop.

(** ** Presentation: what the component derives from the state *)

Section Presentation.

Context {num : Type} `{Num num}.

(** The "Detected Malicious" card prints [detectedMalicious / totalMalicious]. *)
Definition detectedMalicious (st : SimulationState num) : nat :=
  length (filter (fun c => is_malicious (type c) && negb (isAccepted c)) (clients st)).

Definition totalMalicious (st : SimulationState num) : nat :=
  length (filter (fun c => is_malicious (type c)) (clients st)).

(** The arrow beside the accuracy: '↑', '↓' or nothing. *)
Inductive Trend : Set := trendUp | trendDown | trendNone.

Definition accuracyTrend (st : SimulationState num) : Trend :=
  if 1 <? length (history st) then
    let before := nth (length (history st) - 2) (history st)
                      {| h_round := 0; acc := undef; asr := undef |} in
    if (globalAccuracy st - acc before >? #0)%num then trendUp else trendDown
  else trendNone.

(** A tape without its zero draws. *)
Definition strip (t : list num) : list num :=
  filter (fun u => negb (is_zero u)) t.

(** [m] consumes exactly [n] non-zero draws whenever it returns. *)
Definition draws_exactly {A} (n : nat) (m : Rand num A) : Prop :=
  forall t a r, m t = Some (a, r) -> nonzeros t = nonzeros r + n.

(** [m] does not see the zero draws of the tape. *)
Definition zero_blind {A} (m : Rand num A) : Prop :=
  forall t a r, m t = Some (a, r) -> m (strip t) = Some (a, strip r).

(** The draws a client of each type costs. *)
Definition drawsOf (ty : ClientType) : nat :=
  match ty with
  | malicious => 70
  | benign => 40
  end.

(** [m] returns once the tape holds [n] non-zero draws, and consumes
    exactly [n] of them. *)
Definition consumes {A} (n : nat) (m : Rand num A) : Prop :=
  forall t,
    n <= nonzeros t ->
    exists a r, m t = Some (a, r) /\ nonzeros t = nonzeros r + n.

(** The non-zero draws of a round, of an event (a render costs 40) and
    of a session. *)
Definition roundDraws : nat :=
  list_sum (map drawsOf (clientTypes NUM_CLIENTS MALICIOUS_RATIO)).

Definition eventDraws (ev : Event num) : nat :=
  match ev with
  | tick _ => roundDraws + 40
  | reset => 40
  | rerender => 40
  end.

Definition sessionDraws (evs : list (Event num)) : nat :=
  40 + list_sum (map eventDraws evs).

End Presentation.

Arguments roundDraws num {_}.

(** The bars of the importance map, in binary64. *)
Module Bars.

(** [Math.max(a, b)] and [Math.min(a, b)]: NaN if either is NaN, and +0
    above -0. *)
Definition js_max (a b : float) : float :=
  if (is_nan a || is_nan b)%bool then F64.nan
  else if PrimFloat.ltb a b then b
  else if PrimFloat.ltb b a then a
  else if get_sign a then b else a.

Definition js_min (a b : float) : float :=
  if (is_nan a || is_nan b)%bool then F64.nan
  else if PrimFloat.ltb a b then a
  else if PrimFloat.ltb b a then b
  else if get_sign a then a else b.

Definition heightPercent (val : float) : float :=
  js_min 100 (js_max 10 (val * 8)).

(** The bar heights of a state, and what a bar may be on a reachable state:
    between 10 and 80, with the cap at 100 idle. *)
Definition barHeights (st : SimulationState float) : list float :=
  map heightPercent (globalFIM st).

Definition bar_ok (val : float) : bool :=
  PrimFloat.leb 10 (heightPercent val) && PrimFloat.leb (heightPercent val) 80
  && PrimFloat.eqb (heightPercent val) (js_max 10 (val * 8)).

End Bars.

(** The counts a round of 20 clients can end with, and what is checked of
    the attack impact at each: it exceeds 0.1 exactly when
    10·maliciousAccepted > acceptedCount, and lies between 0 and 1. *)
Definition feasibleCounts : list (nat * nat) :=
  flat_map (fun a => map (fun m => (a, m)) (seq 0 (S a))) (seq 0 (S NUM_CLIENTS)).

Definition F64_impact_ok (am : nat * nat) : bool :=
  let '(a, m) := am in
  let impact := attackImpactOf (num := float) a m in
  Bool.eqb (ngtb impact (lit 0.1)) (a <? 10 * m)
  && PrimFloat.leb 0 impact && PrimFloat.leb impact 1.

(** The stiffness mask alone, and a client whose gradient is the sample
    true direction. *)
Module Sample2.

Local Open Scope num_scope.

Definition cfgMaskOnly : Config float :=
  {| useMomentumFIM := true; useStiffnessMask := true;
     useLayerWeightedClustering := false;
     nonIIDLevel := #0.5; attackStealth := #0.6 |}.

Definition calmClient : Client float := newClient 7 Sample.calmGradient.

End Sample2.

(** Over the reals: the stiffness mask alone at non-IID level 0.5 and at
    level 1, and a client whose gradient is zero on every coordinate. *)
Module SampleR2.

Definition cfgMaskOnly : Config R :=
  {| useMomentumFIM := true; useStiffnessMask := true;
     useLayerWeightedClustering := false;
     nonIIDLevel := lit 0.5; attackStealth := lit 0.6 |}.

Definition cfgMaskOnlyWide : Config R :=
  {| useMomentumFIM := true; useStiffnessMask := true;
     useLayerWeightedClustering := false;
     nonIIDLevel := lit 1.0; attackStealth := lit 0.6 |}.

Definition stillClient : Client R := newClient 7 (repeat 0%R VECTOR_DIM).

Definition ones : list R := repeat 1%R VECTOR_DIM.

(** Non-IID level 0, and a true direction that counts 1, 2, ..., 20. *)
Definition cfgIID : Config R :=
  {| useMomentumFIM := true; useStiffnessMask := true;
     useLayerWeightedClustering := true;
     nonIIDLevel := 0%R; attackStealth := lit 0.6 |}.

Definition ramp : list R := map (fun i => INR (S i)) (seq 0 VECTOR_DIM).

End SampleR2.

(** The importance vector after [k] rounds with momentum-FIM enabled, in
    closed form over the reals: 10 − 9·0.9^k on the trigger coordinates. *)
Definition R_importanceAfter (k : nat) : list R :=
  map (fun j => if j <? 5 then (10 - 9 * (9 / 10) ^ k)%R else 1%R) (seq 0 VECTOR_DIM).

(** * Properties *)

(** ** Array helpers *)

Lemma fold_left_ext_in {A B : Type} (f g : B -> A -> B) (l : list A) (b : B) :
  (forall acc x, In x l -> f acc x = g acc x) ->
  fold_left f l b = fold_left g l b.
Proof.
  revert b. induction l as [|x l IH]; intros b E; simpl.
  - reflexivity.
  - rewrite (E b x) by (left; reflexivity).
    apply IH. intros acc y Hy. apply E. right. exact Hy.
Qed.

Section ArrayLemmas.

Context {A B : Type}.

(** [reduce] visits the indices 0, 1, ... of the array in order. *)
Lemma reduce_from_fold (f : B -> A -> nat -> B) (d : A) (a : list A) :
  forall k init,
    reduce_from k f a init
    = fold_left (fun acc j => f acc (nth (j - k) a d) j) (seq k (length a)) init.
Proof.
  induction a as [|x a IH]; intros k init; simpl.
  - reflexivity.
  - rewrite Nat.sub_diag. rewrite IH.
    apply fold_left_ext_in. intros acc j Hj.
    apply in_seq in Hj.
    replace (j - k) with (S (j - S k)) by lia. reflexivity.
Qed.

Lemma reduce_fold (f : B -> A -> nat -> B) (d : A) (a : list A) (init : B) :
  reduce f a init = fold_left (fun acc j => f acc (nth j a d) j) (seq 0 (length a)) init.
Proof.
  unfold reduce. rewrite (reduce_from_fold f d).
  apply fold_left_ext_in. intros acc j _. now rewrite Nat.sub_0_r.
Qed.

Lemma map_from_length (f : A -> nat -> B) (a : list A) :
  forall k, length (map_from k f a) = length a.
Proof.
  induction a as [|x a IH]; intros k; simpl; [reflexivity | now rewrite IH].
Qed.

Lemma map_from_nth (f : A -> nat -> B) (d : A) (d' : B) (a : list A) :
  forall k j, j < length a -> nth j (map_from k f a) d' = f (nth j a d) (k + j).
Proof.
  induction a as [|x a IH]; intros k j Hj; simpl in *.
  - lia.
  - destruct j as [|j].
    + now rewrite Nat.add_0_r.
    + rewrite IH by lia. f_equal. lia.
Qed.

Lemma mapi_nth (f : A -> nat -> B) (d : A) (d' : B) (a : list A) (j : nat) :
  j < length a -> nth j (mapi f a) d' = f (nth j a d) j.
Proof. intros Hj. unfold mapi. now rewrite (map_from_nth f d d'). Qed.

Lemma array_from_nth (f : nat -> B) (d' : B) (n j : nat) :
  j < n -> nth j (array_from n f) d' = f j.
Proof.
  intros Hj. unfold array_from.
  rewrite (nth_indep _ d' (f 0)) by (rewrite length_map, length_seq; exact Hj).
  rewrite map_nth. now rewrite seq_nth.
Qed.

Lemma array_from_length (f : nat -> B) (n : nat) : length (array_from n f) = n.
Proof. unfold array_from. now rewrite length_map, length_seq. Qed.

End ArrayLemmas.

Lemma slice_last_length {A} (n : nat) (a : list A) :
  length (slice_last n a) = Nat.min n (length a).
Proof. unfold slice_last. rewrite length_skipn. lia. Qed.

Lemma slice_last_short {A} (n : nat) (a : list A) :
  length a <= n -> slice_last n a = a.
Proof.
  intros Hle. unfold slice_last.
  replace (length a - n) with 0 by lia. reflexivity.
Qed.

(** Appending to a window and cutting again is cutting the appended list. *)
Lemma slice_last_app {A} (n : nat) (a b : list A) :
  slice_last n (slice_last n a ++ b) = slice_last n (a ++ b).
Proof.
  unfold slice_last.
  destruct (Nat.le_gt_cases (length a) n) as [Hle|Hgt].
  - replace (length a - n) with 0 by lia. reflexivity.
  - rewrite length_app, length_skipn.
    rewrite !skipn_app, !length_skipn, skipn_skipn, length_app.
    f_equal.
    + f_equal. lia.
    + f_equal. lia.
Qed.

(** ** Projections of [advance] *)

Section AdvanceLemmas.

Context {num : Type} `{Num num}.
Local Open Scope num_scope.

Variables (cfg : Config num) (trueGradient : list num)
          (newClients : list (Client num)) (prev : SimulationState num).

Lemma advance_round :
  round (advance cfg trueGradient newClients prev) = S (round prev).
Proof. unfold advance. destruct (countAccepted _). reflexivity. Qed.

Lemma advance_globalFIM :
  globalFIM (advance cfg trueGradient newClients prev) = updateFIM cfg (globalFIM prev).
Proof. unfold advance. destruct (countAccepted _). reflexivity. Qed.

Lemma advance_clients :
  clients (advance cfg trueGradient newClients prev)
  = map (processClient cfg (updateFIM cfg (globalFIM prev)) trueGradient) newClients.
Proof. unfold advance. destruct (countAccepted _). reflexivity. Qed.

Lemma advance_history :
  history (advance cfg trueGradient newClients prev)
  = slice_last 50 (history prev ++ [entryOf (advance cfg trueGradient newClients prev)]).
Proof. unfold advance. destruct (countAccepted _). reflexivity. Qed.

End AdvanceLemmas.

(** ** The importance estimator *)

Section ImportanceLemmas.

Context {num : Type} `{Num num}.
Local Open Scope num_scope.

Lemma idealFIM_at (j : nat) :
  j < VECTOR_DIM -> at_ idealFIM j = spec_idealImportance j.
Proof.
  intros Hj. unfold at_, idealFIM. now rewrite array_from_nth.
Qed.

Lemma updateFIM_length (cfg : Config num) (fim : list num) :
  length (updateFIM cfg fim) = length fim.
Proof.
  unfold updateFIM, mapi. destruct (useMomentumFIM cfg).
  - apply map_from_length.
  - reflexivity.
Qed.

Lemma updateFIM_at (cfg : Config num) (fim : list num) (j : nat) :
  j < length fim -> j < VECTOR_DIM ->
  at_ (updateFIM cfg fim) j
  = if useMomentumFIM cfg
    then #0.9 * at_ fim j + #0.1 * spec_idealImportance j
    else at_ fim j.
Proof.
  intros Hj Hd. unfold updateFIM. destruct (useMomentumFIM cfg).
  - unfold at_ at 1. rewrite (mapi_nth _ undef undef) by exact Hj.
    now rewrite idealFIM_at.
  - reflexivity.
Qed.

End ImportanceLemmas.

(** C3. In a round transition with momentum-FIM enabled, coordinate [j] of
    the importance vector becomes 0.9·importance[j] + 0.1·idealImportance[j],
    where idealImportance[j] is 10.0 for j<5 and 1.0 otherwise; with
    momentum-FIM disabled the next state carries the previous vector
    unchanged.  The vector keeps its length. *)
Theorem C3_momentum_update :
  forall (num : Type) (N : Num num) (cfg : Config num) (trueGradient : list num)
         (newClients : list (Client num)) (prev : SimulationState num) (j : nat),
    j < length (globalFIM prev) -> j < VECTOR_DIM ->
    let next := advance cfg trueGradient newClients prev in
    (useMomentumFIM cfg = true ->
       at_ (globalFIM next) j
       = (#0.9 * at_ (globalFIM prev) j
          + #0.1 * (if (j <? 5)%nat then #10.0 else #1.0))%num)
    /\ (useMomentumFIM cfg = false -> globalFIM next = globalFIM prev)
    /\ length (globalFIM next) = length (globalFIM prev).
Proof.
  intros num N cfg trueGradient newClients prev j Hj Hd next.
  subst next. rewrite advance_globalFIM. repeat split.
  - intros Hon. rewrite updateFIM_at by assumption. now rewrite Hon.
  - intros Hoff. unfold updateFIM. now rewrite Hoff.
  - apply updateFIM_length.
Qed.

(** C3 at the first round of the default configuration: coordinate 2 moves
    from 1 to 0.9·1 + 0.1·10 = 1.9. *)
Lemma C3_momentum_update_witness :
  2 < length (globalFIM (initialState (num := float))) /\ 2 < VECTOR_DIM /\
  at_ (globalFIM (advance Sample.cfgDefault Sample.trueDir [] initialState)) 2
  = 1.9%float.
Proof.
  split; [vm_compute; lia|]. split; [vm_compute; lia|].
  destruct (C3_momentum_update float F64_Num Sample.cfgDefault Sample.trueDir []
              initialState 2) as [Hon _].
  - vm_compute; lia.
  - vm_compute; lia.
  - rewrite Hon by reflexivity. vm_compute. reflexivity.
Defined.

(** ** The detection engine *)

Section DetectionLemmas.

Context {num : Type} `{Num num}.
Local Open Scope num_scope.

Variables (cfg : Config num) (importance trueGradient : list num).

Lemma bool_if_id (b : bool) : (if b then true else false) = b.
Proof. now destruct b. Qed.

(** The [reduce] of mechanism A is the specification's sum. *)
Lemma mechanismA_on (g : list num) :
  useStiffnessMask cfg = true -> length g = VECTOR_DIM ->
  mechanismA cfg importance g
  = (spec_stiffnessScore importance g >? stiffnessThreshold cfg,
     spec_stiffnessScore importance g).
Proof.
  intros Hon Hlen. unfold mechanismA. rewrite Hon.
  rewrite bool_if_id.
  unfold spec_stiffnessScore, sigma.
  rewrite (reduce_fold _ undef), Hlen. reflexivity.
Qed.

Lemma mechanismA_off (g : list num) :
  useStiffnessMask cfg = false -> mechanismA cfg importance g = (false, #0).
Proof. intros Hoff. unfold mechanismA. now rewrite Hoff. Qed.

(** The loop of mechanism B, when the mechanism is enabled. *)
Lemma clusterDist_on (g : list num) :
  useLayerWeightedClustering cfg = true ->
  clusterDist cfg importance trueGradient g = spec_dist importance g trueGradient.
Proof.
  intros Hon. unfold clusterDist, spec_dist, sigma.
  apply fold_left_ext_in. intros dist i _. now rewrite Hon.
Qed.

Lemma mechanismB_spec (g : list num) (detected : bool) :
  mechanismB cfg importance trueGradient g detected
  = if useLayerWeightedClustering cfg && negb detected
    then spec_dist importance g trueGradient >? #500 * (#1 + nonIIDLevel cfg)
    else detected.
Proof.
  unfold mechanismB.
  destruct (useLayerWeightedClustering cfg) eqn:Hon; simpl; [|reflexivity].
  destruct detected; simpl; [reflexivity|].
  rewrite clusterDist_on by exact Hon. apply bool_if_id.
Qed.

(** A raised flag stays raised. *)
Lemma mechanismB_keeps (g : list num) :
  mechanismB cfg importance trueGradient g true = true.
Proof. unfold mechanismB. now rewrite andb_false_r. Qed.

Lemma fallbackCheck_keeps (g : list num) : fallbackCheck cfg g true = true.
Proof.
  unfold fallbackCheck.
  destruct (negb (useStiffnessMask cfg) && negb (useLayerWeightedClustering cfg));
    [destruct (mag g >? #25)|]; reflexivity.
Qed.

Lemma fallbackCheck_skipped (g : list num) (detected : bool) :
  useStiffnessMask cfg || useLayerWeightedClustering cfg = true ->
  fallbackCheck cfg g detected = detected.
Proof.
  intros Hany. unfold fallbackCheck.
  destruct (useStiffnessMask cfg), (useLayerWeightedClustering cfg);
    simpl in *; try reflexivity; discriminate.
Qed.

Lemma fallbackCheck_applied (g : list num) :
  useStiffnessMask cfg = false -> useLayerWeightedClustering cfg = false ->
  fallbackCheck cfg g false = (mag g >? #25).
Proof.
  intros HA HB. unfold fallbackCheck. rewrite HA, HB. simpl. apply bool_if_id.
Qed.

(** [mag] is sqrt(Σ a_i²). *)
Lemma mag_spec (g : list num) :
  mag g = nsqrt (sigma (length g) (fun j => at_ g j * at_ g j)).
Proof.
  unfold mag, sigma. now rewrite (reduce_fold _ undef).
Qed.

(** [dot] is Σ a_i·b_i. *)
Lemma dot_spec (a b : list num) :
  dot a b = sigma (length a) (fun i => at_ a i * at_ b i).
Proof.
  unfold dot, sigma. now rewrite (reduce_fold _ undef).
Qed.

(** The verdict on a client, in terms of the three blocks. *)
Lemma processClient_accepted (client : Client num) :
  isAccepted (processClient cfg importance trueGradient client)
  = negb (fallbackCheck cfg (gradient client)
            (mechanismB cfg importance trueGradient (gradient client)
               (fst (mechanismA cfg importance (gradient client))))).
Proof.
  unfold processClient. destruct (mechanismA cfg importance (gradient client)).
  reflexivity.
Qed.

Lemma processClient_score (client : Client num) :
  stiffnessViolationScore (processClient cfg importance trueGradient client)
  = snd (mechanismA cfg importance (gradient client)).
Proof.
  unfold processClient. destruct (mechanismA cfg importance (gradient client)).
  reflexivity.
Qed.

Lemma processClient_gradient (client : Client num) :
  gradient (processClient cfg importance trueGradient client) = gradient client.
Proof.
  unfold processClient. destruct (mechanismA cfg importance (gradient client)).
  reflexivity.
Qed.

Lemma processClient_type (client : Client num) :
  type (processClient cfg importance trueGradient client) = type client.
Proof.
  unfold processClient. destruct (mechanismA cfg importance (gradient client)).
  reflexivity.
Qed.

Lemma rejectedByA_final (client : Client num) :
  fst (mechanismA cfg importance (gradient client)) = true ->
  isAccepted (processClient cfg importance trueGradient client) = false.
Proof.
  intros HA. rewrite processClient_accepted, HA.
  now rewrite mechanismB_keeps, fallbackCheck_keeps.
Qed.

End DetectionLemmas.

(** *** binary64: the three checks on sample gradients *)

(** The literals of the program, as the doubles JavaScript reads them. *)
Example F64_literals :
  map (lit (num := float))
      [0.1; 0.2; 0.5; 0.8; 0.9; 0.95; 1.5; 10.0; 12; 15; 25; 500; -2.0]%Q
  = [0.1; 0.2; 0.5; 0.8; 0.9; 0.95; 1.5; 10; 12; 15; 25; 500; -2]%float.
Proof. vm_compute. reflexivity. Qed.

Example F64_fim_round_1 :
  Sample.fimRound1 = (repeat 1.9 5 ++ repeat 1 15)%float.
Proof. vm_compute. reflexivity. Qed.

(** Mechanism A flags the loud gradient: 19.75 > 12·1.5 = 18. *)
Example F64_loud_flagged_by_A :
  mechanismA Sample.cfgDefault Sample.fimRound1 Sample.loudGradient
  = (true, 19.75%float).
Proof. vm_compute. reflexivity. Qed.

(** The mid gradient passes mechanism A (5.02 < 18) and is flagged by
    mechanism B (861.125 > 500·1.5 = 750); undefended it is accepted,
    its magnitude being 20.49. *)
Example F64_mid_flagged_by_B :
  fst (mechanismA Sample.cfgDefault Sample.fimRound1 Sample.midGradient) = false
  /\ clusterDist Sample.cfgDefault Sample.fimRound1 Sample.trueDir Sample.midGradient
     = 861.125%float
  /\ isAccepted (processClient Sample.cfgDefault Sample.fimRound1 Sample.trueDir
                               (newClient 0 Sample.midGradient)) = false
  /\ isAccepted (processClient Sample.cfgUndefended Sample.fimRound1 Sample.trueDir
                               (newClient 0 Sample.midGradient)) = true.
Proof. repeat split; vm_compute; reflexivity. Qed.

(** The big gradient has magnitude 26.83 > 25: rejected when undefended,
    accepted when the mechanisms are on and the magnitude check is skipped. *)
Example F64_big_flagged_by_fallback :
  isAccepted (processClient Sample.cfgUndefended Sample.fimRound1 Sample.trueDir
                            (newClient 0 Sample.bigGradient)) = false
  /\ isAccepted (processClient Sample.cfgDefault Sample.fimRound1 Sample.trueDir
                               (newClient 0 Sample.bigGradient)) = true.
Proof. split; vm_compute; reflexivity. Qed.

(** C1. With the stiffnessMask toggle enabled, every client of a round is
    scored stiffnessScore = (Σ_j importance[j]·|gradient[j]|) / D against the
    importance vector the round has just finalized (the one the next state
    stores), and mechanism A raises the rejection flag exactly when
    stiffnessScore > 12·(1+nonIIDLevel) with momentum-FIM enabled, or
    > 15·(1+nonIIDLevel) with it disabled.  A client so flagged is rejected,
    and when mechanism B is off the client is rejected exactly in that case;
    with mechanism B on, the client is rejected when either mechanism flags it. *)
Theorem C1_stiffness_mask :
  forall (num : Type) (N : Num num) (cfg : Config num) (trueGradient : list num)
         (newClients : list (Client num)) (prev : SimulationState num)
         (client : Client num),
    useStiffnessMask cfg = true ->
    length (gradient client) = VECTOR_DIM ->
    let next := advance cfg trueGradient newClients prev in
    let importance := globalFIM next in
    let stiffnessScore := spec_stiffnessScore importance (gradient client) in
    let threshold :=
      ((if useMomentumFIM cfg then #12 else #15) * (#1 + nonIIDLevel cfg))%num in
    let processed := processClient cfg importance trueGradient client in
    clients next = map (processClient cfg importance trueGradient) newClients
    /\ stiffnessViolationScore processed = stiffnessScore
    /\ fst (mechanismA cfg importance (gradient client))
       = (stiffnessScore >? threshold)%num
    /\ ((stiffnessScore >? threshold)%num = true -> isAccepted processed = false)
    /\ (useLayerWeightedClustering cfg = false ->
        isAccepted processed = negb (stiffnessScore >? threshold)%num)
    /\ isAccepted processed
       = negb ((stiffnessScore >? threshold)%num
               || useLayerWeightedClustering cfg
                  && (spec_dist importance (gradient client) trueGradient
                      >? #500 * (#1 + nonIIDLevel cfg))%num).
Proof.
  intros num N cfg trueGradient newClients prev client Hon Hlen
         next importance stiffnessScore threshold processed.
  assert (HA : mechanismA cfg importance (gradient client)
               = ((stiffnessScore >? threshold)%num, stiffnessScore))
    by (apply mechanismA_on; assumption).
  assert (Hverdict : isAccepted processed
                     = negb (mechanismB cfg importance trueGradient (gradient client)
                               (stiffnessScore >? threshold)%num)).
  { subst processed. rewrite processClient_accepted, HA. simpl.
    now rewrite fallbackCheck_skipped by (rewrite Hon; reflexivity). }
  rewrite mechanismB_spec in Hverdict.
  split; [|split; [|split; [|split; [|split]]]].
  - subst next importance. rewrite advance_clients, advance_globalFIM. reflexivity.
  - subst processed. rewrite processClient_score, HA. reflexivity.
  - rewrite HA. reflexivity.
  - intros Hgt. apply rejectedByA_final. rewrite HA. exact Hgt.
  - intros HB. rewrite Hverdict, HB. reflexivity.
  - rewrite Hverdict.
    destruct (stiffnessScore >? threshold)%num,
             (useLayerWeightedClustering cfg); reflexivity.
Qed.

(** C1 on the sample attack client in the first round of the default
    configuration. *)
Lemma C1_stiffness_mask_witness :
  useStiffnessMask Sample.cfgDefault = true
  /\ length (gradient Sample.attackClient) = VECTOR_DIM
  /\ stiffnessViolationScore
       (processClient Sample.cfgDefault
          (globalFIM (advance Sample.cfgDefault Sample.trueDir
                        [Sample.attackClient] initialState))
          Sample.trueDir Sample.attackClient)
     = spec_stiffnessScore
         (globalFIM (advance Sample.cfgDefault Sample.trueDir
                       [Sample.attackClient] initialState))
         (gradient Sample.attackClient).
Proof.
  split; [reflexivity|]. split; [reflexivity|].
  exact (proj1 (proj2 (C1_stiffness_mask float F64_Num Sample.cfgDefault
                         Sample.trueDir [Sample.attackClient] initialState
                         Sample.attackClient eq_refl eq_refl))).
Defined.

(** C2. Mechanism B is evaluated for a client only when the
    layerWeightedClustering toggle is enabled and mechanism A has not raised
    the flag; it then computes dist = Σ_j importance[j]·(gradient[j] −
    TrueDirection[j])², and raises the flag exactly when
    dist > 500·(1+nonIIDLevel).  Otherwise it leaves the flag as mechanism A
    set it, and a client rejected by mechanism A ends the round rejected. *)
Theorem C2_weighted_clustering :
  forall (num : Type) (N : Num num) (cfg : Config num) (trueGradient : list num)
         (newClients : list (Client num)) (prev : SimulationState num)
         (client : Client num),
    let next := advance cfg trueGradient newClients prev in
    let importance := globalFIM next in
    let rejectedByA := fst (mechanismA cfg importance (gradient client)) in
    let dist := spec_dist importance (gradient client) trueGradient in
    let threshold := (#500 * (#1 + nonIIDLevel cfg))%num in
    let processed := processClient cfg importance trueGradient client in
    clients next = map (processClient cfg importance trueGradient) newClients
    /\ mechanismB cfg importance trueGradient (gradient client) rejectedByA
       = (if useLayerWeightedClustering cfg && negb rejectedByA
          then (dist >? threshold)%num
          else rejectedByA)
    /\ (rejectedByA = true -> isAccepted processed = false)
    /\ (useLayerWeightedClustering cfg = true -> rejectedByA = false ->
        isAccepted processed = negb (dist >? threshold)%num).
Proof.
  intros num N cfg trueGradient newClients prev client
         next importance rejectedByA dist threshold processed.
  split; [|split; [|split]].
  - subst next importance. rewrite advance_clients, advance_globalFIM. reflexivity.
  - apply mechanismB_spec.
  - apply rejectedByA_final.
  - intros HB HA. subst processed. rewrite processClient_accepted.
    fold rejectedByA. rewrite mechanismB_spec. fold dist threshold.
    rewrite HB, HA. simpl.
    rewrite fallbackCheck_skipped by (rewrite HB; apply orb_true_r).
    reflexivity.
Qed.

(** C7. With both the stiffnessMask and the layerWeightedClustering toggles
    disabled a client is rejected exactly when magnitude(gradient) > 25,
    magnitude(g) being sqrt(Σ_j g[j]²).  With either toggle enabled the
    magnitude check is not applied: the verdict is the one of the
    mechanisms, whatever the magnitude (with the mask off, rejection exactly
    when dist > 500·(1+nonIIDLevel); with the mask on, exactly when the
    stiffness score or, if clustering is enabled, dist exceeds its
    threshold). *)
Theorem C7_fallback_magnitude :
  forall (num : Type) (N : Num num) (cfg : Config num) (trueGradient : list num)
         (newClients : list (Client num)) (prev : SimulationState num)
         (client : Client num),
    let next := advance cfg trueGradient newClients prev in
    let importance := globalFIM next in
    let processed := processClient cfg importance trueGradient client in
    let magnitude := spec_magnitude (gradient client) in
    let dist := spec_dist importance (gradient client) trueGradient in
    let stiffnessScore := spec_stiffnessScore importance (gradient client) in
    clients next = map (processClient cfg importance trueGradient) newClients
    /\ (useStiffnessMask cfg = false -> useLayerWeightedClustering cfg = false ->
        isAccepted processed = negb (magnitude >? #25)%num)
    /\ (useStiffnessMask cfg || useLayerWeightedClustering cfg = true ->
        isAccepted processed
        = negb (mechanismB cfg importance trueGradient (gradient client)
                  (fst (mechanismA cfg importance (gradient client))))
        /\ (useStiffnessMask cfg = false ->
            isAccepted processed = negb (dist >? #500 * (#1 + nonIIDLevel cfg))%num)
        /\ (useStiffnessMask cfg = true -> length (gradient client) = VECTOR_DIM ->
            isAccepted processed
            = negb ((stiffnessScore >? stiffnessThreshold cfg)%num
                    || useLayerWeightedClustering cfg
                       && (dist >? #500 * (#1 + nonIIDLevel cfg))%num))).
Proof.
  intros num N cfg trueGradient newClients prev client
         next importance processed magnitude dist stiffnessScore.
  split; [|split].
  - subst next importance. rewrite advance_clients, advance_globalFIM. reflexivity.
  - intros HA HB. subst processed magnitude. rewrite processClient_accepted.
    rewrite mechanismA_off by exact HA. simpl.
    rewrite mechanismB_spec, HB. simpl.
    rewrite fallbackCheck_applied by assumption.
    unfold spec_magnitude. now rewrite <- mag_spec.
  - intros Hany.
    assert (Hverdict : isAccepted processed
                       = negb (mechanismB cfg importance trueGradient (gradient client)
                                 (fst (mechanismA cfg importance (gradient client))))).
    { subst processed. rewrite processClient_accepted.
      now rewrite fallbackCheck_skipped. }
    split; [exact Hverdict|]. split.
    + intros HA. rewrite HA in Hany. simpl in Hany.
      rewrite Hverdict, mechanismA_off by exact HA. simpl.
      rewrite mechanismB_spec, Hany. reflexivity.
    + intros HA Hlen. rewrite Hverdict, mechanismA_on by assumption. simpl.
      rewrite mechanismB_spec. fold dist stiffnessScore.
      destruct (stiffnessScore >? stiffnessThreshold cfg)%num,
               (useLayerWeightedClustering cfg); reflexivity.
Qed.

(** ** The aggregator *)

Section AggregatorLemmas.

Context {num : Type} `{Num num}.

(** The [forEach] loop counts the accepted and the accepted malicious clients. *)
Lemma countAccepted_from (cs : list (Client num)) :
  forall a m,
    fold_left
      (fun '(acceptedCount, maliciousAccepted) c =>
         if isAccepted c
         then (S acceptedCount,
               if is_malicious (type c) then S maliciousAccepted else maliciousAccepted)
         else (acceptedCount, maliciousAccepted))
      cs (a, m)
    = (a + spec_acceptedCount cs, m + spec_maliciousAccepted cs).
Proof.
  unfold spec_acceptedCount, spec_maliciousAccepted.
  induction cs as [|c cs IH]; intros a m; simpl.
  - now rewrite !Nat.add_0_r.
  - destruct (isAccepted c); simpl.
    + destruct (is_malicious (type c)); simpl; rewrite IH; f_equal; lia.
    + apply IH.
Qed.

Lemma countAccepted_spec (cs : list (Client num)) :
  countAccepted cs = (spec_acceptedCount cs, spec_maliciousAccepted cs).
Proof. unfold countAccepted. now rewrite countAccepted_from. Qed.

Lemma maliciousAccepted_le (cs : list (Client num)) :
  spec_maliciousAccepted cs <= spec_acceptedCount cs.
Proof.
  unfold spec_acceptedCount, spec_maliciousAccepted.
  induction cs as [|c cs IH]; simpl; [lia|].
  destruct (isAccepted c); simpl; [|exact IH].
  destruct (is_malicious (type c)); simpl; lia.
Qed.

Lemma or_one_max (a : nat) : (if a =? 0 then 1 else a) = Nat.max a 1.
Proof. destruct a as [|a]; simpl; [reflexivity | lia]. Qed.

Lemma advance_metrics (cfg : Config num) (trueGradient : list num)
      (newClients : list (Client num)) (prev : SimulationState num) :
  let next := advance cfg trueGradient newClients prev in
  let attackImpact :=
    attackImpactOf (spec_acceptedCount (clients next)) (spec_maliciousAccepted (clients next)) in
  globalAccuracy next = newAccOf (globalAccuracy prev) attackImpact
  /\ backdoorSuccessRate next = newASROf (backdoorSuccessRate prev) attackImpact.
Proof.
  intros next attackImpact. subst attackImpact next.
  rewrite advance_clients. unfold advance.
  rewrite countAccepted_spec. split; reflexivity.
Qed.

End AggregatorLemmas.

(** The update as the program computes it, whatever the arithmetic. *)
Lemma metrics_update_code_order {num} `{Num num}
      (cfg : Config num) (trueGradient : list num)
      (newClients : list (Client num)) (prev : SimulationState num) :
  let next := advance cfg trueGradient newClients prev in
  let acceptedCount := length (filter isAccepted (clients next)) in
  let maliciousAccepted :=
    length (filter (fun c => isAccepted c && is_malicious (type c)) (clients next)) in
  let attackImpact :=
    (ofNat maliciousAccepted / ofNat (Nat.max acceptedCount 1))%num in
  let target := (if attackImpact >? #0.1 then #0.9 else #0.0)%num in
  maliciousAccepted <= acceptedCount
  /\ globalAccuracy next
     = (globalAccuracy prev * #0.8 + (#0.95 - attackImpact * #0.5) * #0.2)%num
  /\ backdoorSuccessRate next
     = (backdoorSuccessRate prev * #0.8 + target * #0.2)%num.
Proof.
  intros next acceptedCount maliciousAccepted attackImpact target.
  split.
  - apply maliciousAccepted_le.
  - destruct (advance_metrics cfg trueGradient newClients prev) as [Hacc Hasr].
    fold next in Hacc, Hasr. rewrite Hacc, Hasr.
    unfold attackImpactOf. rewrite or_one_max.
    split; reflexivity.
Qed.

(** The specification writes the smoothing factors first; where
    multiplication commutes that is the same number. *)
Lemma metrics_update_as_specified {num} `{Num num}
      (cfg : Config num) (trueGradient : list num)
      (newClients : list (Client num)) (prev : SimulationState num) :
  (forall x y : num, (x * y = y * x)%num) ->
  let next := advance cfg trueGradient newClients prev in
  let attackImpact :=
    spec_attackImpact (spec_acceptedCount (clients next))
                      (spec_maliciousAccepted (clients next)) in
  globalAccuracy next = spec_newAccuracy (globalAccuracy prev) attackImpact
  /\ backdoorSuccessRate next = spec_newASR (backdoorSuccessRate prev) attackImpact.
Proof.
  intros Hcomm next attackImpact.
  destruct (metrics_update_code_order cfg trueGradient newClients prev)
    as [_ [Hacc Hasr]].
  fold next in Hacc, Hasr. rewrite Hacc, Hasr.
  unfold spec_newAccuracy, spec_newASR.
  split.
  - rewrite (Hcomm (globalAccuracy prev)). f_equal. apply Hcomm.
  - rewrite (Hcomm (backdoorSuccessRate prev)). f_equal. apply Hcomm.
Qed.

(** binary64 multiplication commutes. *)
Lemma F64_mul_comm (x y : float) : (x * y = y * x)%float.
Proof.
  apply Prim2SF_inj. rewrite !mul_spec. unfold SF64mul, SFmul.
  destruct (Prim2SF x) as [sx|sx| |sx mx ex], (Prim2SF y) as [sy|sy| |sy my ey];
    try reflexivity; try (now rewrite xorb_comm).
  now rewrite xorb_comm, Pos.mul_comm, Z.add_comm.
Qed.

(** With every client rejected the divisor is 1 and the impact 0/1. *)
Lemma attackImpact_all_rejected {num} `{Num num} (m : nat) :
  spec_attackImpact 0 m = (ofNat m / ofNat 1)%num.
Proof. reflexivity. Qed.

(** C5. In a round transition, with acceptedCount the number of accepted
    clients of the round and maliciousAccepted the number of accepted
    malicious ones, attackImpact = maliciousAccepted / max(acceptedCount, 1)
    (the divisor is 1 when every client is rejected, so the quotient is
    defined), the new accuracy is
    0.8·previousAccuracy + 0.2·(0.95 − attackImpact·0.5) and the new ASR is
    0.8·previousASR + 0.2·target, target being 0.9 if attackImpact > 0.1 and
    0.0 otherwise: in binary64 and over the reals. *)
Theorem C5_metrics_update :
  (forall (cfg : Config float) (trueGradient : list float)
          (newClients : list (Client float)) (prev : SimulationState float),
      let next := advance cfg trueGradient newClients prev in
      let acceptedCount := length (filter isAccepted (clients next)) in
      let maliciousAccepted :=
        length (filter (fun c => isAccepted c && is_malicious (type c)) (clients next)) in
      let attackImpact := spec_attackImpact acceptedCount maliciousAccepted in
      maliciousAccepted <= acceptedCount
      /\ 1 <= Nat.max acceptedCount 1
      /\ globalAccuracy next = spec_newAccuracy (globalAccuracy prev) attackImpact
      /\ backdoorSuccessRate next = spec_newASR (backdoorSuccessRate prev) attackImpact)
  /\ (forall (cfg : Config R) (trueGradient : list R)
             (newClients : list (Client R)) (prev : SimulationState R),
         let next := advance cfg trueGradient newClients prev in
         let acceptedCount := length (filter isAccepted (clients next)) in
         let maliciousAccepted :=
           length (filter (fun c => isAccepted c && is_malicious (type c)) (clients next)) in
         let attackImpact := spec_attackImpact acceptedCount maliciousAccepted in
         maliciousAccepted <= acceptedCount
         /\ 1 <= Nat.max acceptedCount 1
         /\ globalAccuracy next = spec_newAccuracy (globalAccuracy prev) attackImpact
         /\ backdoorSuccessRate next = spec_newASR (backdoorSuccessRate prev) attackImpact).
Proof.
  split; intros cfg trueGradient newClients prev next acceptedCount
                maliciousAccepted attackImpact;
    (split; [apply maliciousAccepted_le|]); (split; [lia|]).
  - apply (metrics_update_as_specified cfg trueGradient newClients prev).
    exact F64_mul_comm.
  - apply (metrics_update_as_specified cfg trueGradient newClients prev).
    exact Rmult_comm.
Qed.

(** ** The history window *)

Section HistoryLemmas.

Context {num : Type} `{Num num}.

Variable trueGradient : list num.

Lemma trace_length (inputs : list (RoundInput num)) :
  forall st, length (trace trueGradient st inputs) = length inputs.
Proof.
  induction inputs as [|inp inputs IH]; intros st; simpl;
    [reflexivity | now rewrite IH].
Qed.

(** The rounds of a run are numbered consecutively. *)
Lemma trace_rounds (inputs : list (RoundInput num)) :
  forall st, map round (trace trueGradient st inputs)
             = seq (S (round st)) (length inputs).
Proof.
  induction inputs as [|inp inputs IH]; intros st; simpl; [reflexivity|].
  rewrite IH. unfold roundWith. now rewrite advance_round.
Qed.

Lemma roundWith_history (st : SimulationState num) (inp : RoundInput num) :
  history (roundWith trueGradient st inp)
  = slice_last 50 (history st ++ [entryOf (roundWith trueGradient st inp)]).
Proof. unfold roundWith. apply advance_history. Qed.

(** The history is the last 50 entries of everything ever appended. *)
Lemma history_window (inputs : list (RoundInput num)) :
  forall st,
    length (history st) <= 50 ->
    history (fold_left (roundWith trueGradient) inputs st)
    = slice_last 50 (history st ++ map entryOf (trace trueGradient st inputs)).
Proof.
  induction inputs as [|inp inputs IH]; intros st Hst; simpl.
  - rewrite app_nil_r. now rewrite slice_last_short.
  - rewrite IH.
    + rewrite roundWith_history at 1.
      rewrite slice_last_app. now rewrite <- app_assoc.
    + rewrite roundWith_history, slice_last_length. lia.
Qed.

Lemma run_history (inputs : list (RoundInput num)) :
  history (run trueGradient inputs)
  = slice_last 50 (map entryOf (trace trueGradient initialState inputs)).
Proof. unfold run. rewrite history_window; [reflexivity | simpl; lia]. Qed.

Lemma seq_sorted (n : nat) : forall a, StronglySorted lt (seq a n).
Proof.
  induction n as [|n IH]; intros a; simpl; constructor.
  - apply IH.
  - apply Forall_forall. intros x Hx. apply in_seq in Hx. lia.
Qed.

Lemma run_history_rounds (inputs : list (RoundInput num)) :
  map h_round (history (run trueGradient inputs))
  = seq (1 + (length inputs - 50)) (Nat.min 50 (length inputs)).
Proof.
  rewrite run_history. unfold slice_last.
  rewrite <- skipn_map, map_map.
  rewrite (map_ext (fun x => h_round (entryOf x)) round) by reflexivity.
  rewrite trace_rounds, length_map, trace_length, skipn_seq.
  f_equal; unfold initialState; cbn [round]; lia.
Qed.

End HistoryLemmas.

(** C8. After every round transition the history has at most 50 entries.  A
    run from the initial state keeps the last 50 of the entries
    {round, acc, asr} its rounds appended, in strictly increasing round
    order; after more than 50 rounds these are exactly 50 entries, those of
    rounds n−49 … n.  A transition from a full history drops the oldest
    entry and appends the new one. *)
Theorem C8_history_window :
  forall (num : Type) (N : Num num) (trueGradient : list num),
    (forall cfg newClients prev,
        length (history (advance cfg trueGradient newClients prev)) <= 50)
    /\ (forall cfg newClients prev,
           length (history prev) = 50 ->
           history (advance cfg trueGradient newClients prev)
           = tl (history prev) ++ [entryOf (advance cfg trueGradient newClients prev)])
    /\ (forall inputs : list (RoundInput num),
           let st := run trueGradient inputs in
           let n := length inputs in
           history st = slice_last 50 (map entryOf (trace trueGradient initialState inputs))
           /\ StronglySorted lt (map h_round (history st))
           /\ (50 < n ->
               length (history st) = 50
               /\ map h_round (history st) = seq (n - 49) 50)).
Proof.
  intros num N trueGradient. split; [|split].
  - intros cfg newClients prev. rewrite advance_history, slice_last_length. lia.
  - intros cfg newClients prev Hfull. rewrite advance_history.
    unfold slice_last. rewrite length_app, Hfull. simpl.
    destruct (history prev); [discriminate | reflexivity].
  - intros inputs st n. subst st n. split; [|split].
    + apply run_history.
    + rewrite run_history_rounds. apply seq_sorted.
    + intros Hn. split.
      * rewrite <- (length_map h_round), run_history_rounds, length_seq. lia.
      * rewrite run_history_rounds. f_equal; lia.
Qed.

(** ** Runs and reachable states *)

Section RunLemmas.

Context {num : Type} `{Num num}.

Variable trueGradient : list num.

Lemma run_snoc (inputs : list (RoundInput num)) (inp : RoundInput num) :
  run trueGradient (inputs ++ [inp])
  = roundWith trueGradient (run trueGradient inputs) inp.
Proof. unfold run. now rewrite fold_left_app. Qed.

(** Every reachable state is the end of a run from the initial state. *)
Lemma reachable_run (st : SimulationState num) :
  reachable trueGradient st <-> exists inputs, st = run trueGradient inputs.
Proof.
  split.
  - induction 1 as [|st inp _ [inputs ->]|st _ _].
    + now exists [].
    + exists (inputs ++ [inp]). now rewrite run_snoc.
    + now exists [].
  - intros [inputs ->]. induction inputs as [|inp inputs IH] using rev_ind.
    + constructor.
    + rewrite run_snoc. now constructor.
Qed.

Lemma updateFIM_emaStep (cfg : Config num) (fim : list num) :
  updateFIM cfg fim = if useMomentumFIM cfg then emaStep fim else fim.
Proof. reflexivity. Qed.

(** The importance vector only counts the rounds with momentum-FIM enabled. *)
Lemma fold_globalFIM (inputs : list (RoundInput num)) :
  forall st,
    globalFIM (fold_left (roundWith trueGradient) inputs st)
    = Nat.iter (momentumRounds inputs) emaStep (globalFIM st).
Proof.
  unfold momentumRounds.
  induction inputs as [|[cfg gs] inputs IH]; intros st; simpl; [reflexivity|].
  rewrite IH. unfold roundWith at 1. simpl fst.
  rewrite advance_globalFIM, updateFIM_emaStep.
  destruct (useMomentumFIM cfg); simpl length.
  - now rewrite Nat.iter_succ_r.
  - reflexivity.
Qed.

Lemma run_globalFIM (inputs : list (RoundInput num)) :
  globalFIM (run trueGradient inputs)
  = Nat.iter (momentumRounds inputs) emaStep (repeat (lit 1) VECTOR_DIM).
Proof. unfold run. now rewrite fold_globalFIM. Qed.

Lemma emaStep_length (fim : list num) : length (emaStep fim) = length fim.
Proof. apply map_from_length. Qed.

Lemma iter_emaStep_length (k : nat) (fim : list num) :
  length (Nat.iter k emaStep fim) = length fim.
Proof.
  induction k as [|k IH]; simpl; [reflexivity|]. now rewrite emaStep_length.
Qed.

End RunLemmas.

Lemma iterates_nth {A} (f : A -> A) (d : A) (n : nat) :
  forall k x, k <= n -> nth k (iterates f n x) d = Nat.iter k f x.
Proof.
  induction n as [|n IH]; intros k x Hk.
  - replace k with 0 by lia. reflexivity.
  - destruct k as [|k]; [reflexivity|].
    simpl nth. rewrite IH by lia. now rewrite Nat.iter_succ_r.
Qed.

(** An orbit that has reached a fixed point after [n] steps stays there. *)
Lemma iter_stable {A} (f : A -> A) (x : A) (n : nat) :
  f (Nat.iter n f x) = Nat.iter n f x ->
  forall k, Nat.iter (n + k) f x = Nat.iter n f x.
Proof.
  intros Hfix k. induction k as [|k IH].
  - now rewrite Nat.add_0_r.
  - rewrite Nat.add_succ_r. simpl. now rewrite IH.
Qed.

(** A property checked along the orbit up to its fixed point holds on all of it. *)
Lemma orbit_invariant {A} (f : A -> A) (x : A) (n : nat) (ok : A -> bool) :
  f (Nat.iter n f x) = Nat.iter n f x ->
  forallb ok (iterates f n x) = true ->
  forall k, ok (Nat.iter k f x) = true.
Proof.
  intros Hfix Hall k.
  assert (Hbelow : forall j, j <= n -> ok (Nat.iter j f x) = true).
  { intros j Hj. rewrite forallb_forall in Hall. apply Hall.
    rewrite <- (iterates_nth f x n j x Hj). apply nth_In.
    clear - Hj. revert x j Hj. induction n as [|n IH]; intros x j Hj; simpl; [lia|].
    destruct j; [lia|]. specialize (IH (f x) j). lia. }
  destruct (Nat.le_gt_cases k n) as [Hle|Hgt].
  - now apply Hbelow.
  - replace k with (n + (k - n)) by lia.
    rewrite (iter_stable f x n Hfix). now apply Hbelow.
Qed.

(** *** binary64: the orbit of the importance vector *)

(** From all-ones the update reaches its fixed point, 9.9999999999999947 on
    the trigger coordinates and 1 elsewhere, after 327 enabled rounds. *)
Lemma F64_fim_fixed_point :
  emaStep (Nat.iter 327 emaStep (repeat (lit 1) VECTOR_DIM))
  = Nat.iter 327 emaStep (repeat (lit (num := float) 1) VECTOR_DIM).
Proof. vm_compute. reflexivity. Qed.

Lemma F64_fim_orbit_checked :
  forallb (forallb F64_in_0_10)
          (iterates emaStep 327 (repeat (lit (num := float) 1) VECTOR_DIM)) = true.
Proof. vm_compute. reflexivity. Qed.

Lemma F64_fim_bounds (k : nat) :
  Forall (fun v => F64_in_0_10 v = true)
         (Nat.iter k emaStep (repeat (lit (num := float) 1) VECTOR_DIM)).
Proof.
  apply Forall_forall. apply forallb_forall.
  apply (orbit_invariant emaStep _ 327 (forallb F64_in_0_10)).
  - exact F64_fim_fixed_point.
  - exact F64_fim_orbit_checked.
Qed.

(** *** Real numbers: the update is a convex combination *)

Ltac real_lits :=
  cbn [lit nadd nsub nmul ndiv Rnum] in *; unfold Q2R in *; cbn [Qnum Qden] in *.

Lemma R_idealFIM_bounds (i : nat) : R_in_0_10 (at_ (num := R) idealFIM i).
Proof.
  unfold at_, idealFIM, array_from.
  destruct (nth_in_or_default i (map (fun i => if i <? 5 then lit 10.0 else lit 1.0)
                                     (seq 0 VECTOR_DIM)) (undef (num := R)))
    as [Hin|Hdef].
  - apply in_map_iff in Hin. destruct Hin as [j [Hj _]]. rewrite <- Hj.
    unfold R_in_0_10. destruct (j <? 5); real_lits; lra.
  - rewrite Hdef. unfold R_in_0_10. cbn [undef Rnum]. lra.
Qed.

Lemma R_map_from_bounds (fim : list R) :
  Forall R_in_0_10 fim ->
  forall k, Forall R_in_0_10
                   (map_from k (fun f i => nadd (nmul (lit 0.9) f)
                                                (nmul (lit 0.1) (at_ idealFIM i))) fim).
Proof.
  induction 1 as [|v fim Hv _ IH]; intros k; simpl; constructor.
  - pose proof (R_idealFIM_bounds k) as Hi. unfold R_in_0_10 in *.
    real_lits. lra.
  - apply IH.
Qed.

Lemma R_fim_bounds (k : nat) :
  Forall R_in_0_10 (Nat.iter k emaStep (repeat (lit (num := R) 1) VECTOR_DIM)).
Proof.
  induction k as [|k IH].
  - apply Forall_forall. intros v Hv. apply repeat_spec in Hv. subst v.
    unfold R_in_0_10. real_lits. lra.
  - rewrite Nat.iter_succ. unfold emaStep at 1, mapi.
    now apply R_map_from_bounds.
Qed.

(** C4. In every state reached from the initial one by any number of round
    transitions, whatever the toggles and the gradients drawn, the importance
    vector has D coordinates and each lies between 0 and 10.0: in the
    binary64 arithmetic of the program, and in real arithmetic. *)
Theorem C4_importance_bounds :
  (forall (trueGradient : list float) (inputs : list (RoundInput float)),
      let importance := globalFIM (run trueGradient inputs) in
      length importance = VECTOR_DIM
      /\ Forall (fun v => PrimFloat.leb 0 v = true /\ PrimFloat.leb v 10 = true)
                importance)
  /\ (forall (trueGradient : list R) (inputs : list (RoundInput R)),
         let importance := globalFIM (run trueGradient inputs) in
         length importance = VECTOR_DIM
         /\ Forall (fun v => (0 <= v <= 10)%R) importance).
Proof.
  split; intros trueGradient inputs importance; subst importance;
    rewrite run_globalFIM; (split; [now rewrite iter_emaStep_length, repeat_length|]).
  - eapply Forall_impl; [|apply F64_fim_bounds].
    intros v Hv. unfold F64_in_0_10 in Hv. now apply andb_true_iff in Hv.
  - apply R_fim_bounds.
Qed.

(** ** binary64: rounding to nearest is monotone

    [PrimFloat.mul] and [PrimFloat.add] are specified by [SFmul] and [SFadd]
    ([mul_spec], [add_spec]), which round the exact product and sum with
    [binary_round_aux].  On non-negative doubles the rounded value is
    [RND] of the exact value, and [RND] is monotone; so the smoothing step
    [z * k + c] of the metrics is monotone in [z]. *)

Section Binary64Rounding.

Local Open Scope Z_scope.

Lemma rne_mono a1 a2 g : 0 < g -> a1 <= a2 -> rne a1 g <= rne a2 g.
Proof.
  intros Hg Hle. unfold rne.
  pose proof (Z.div_mod a1 g ltac:(lia)) as E1.
  pose proof (Z.div_mod a2 g ltac:(lia)) as E2.
  pose proof (Z.mod_pos_bound a1 g Hg) as B1.
  pose proof (Z.mod_pos_bound a2 g Hg) as B2.
  pose proof (Z.div_le_mono a1 a2 g Hg Hle) as Hq.
  destruct (Z.eq_dec (a1 / g) (a2 / g)) as [E|NE].
  - rewrite E in *.
    destruct (Z.compare_spec (2 * (a1 mod g)) g), (Z.compare_spec (2 * (a2 mod g)) g);
      destruct (Z.even (a2 / g)); lia.
  - destruct (Z.compare_spec (2 * (a1 mod g)) g), (Z.compare_spec (2 * (a2 mod g)) g);
      destruct (Z.even (a1 / g)), (Z.even (a2 / g)); lia.
Qed.

Lemma rne_exact k g : 0 < g -> rne (k * g) g = k.
Proof.
  intros Hg. unfold rne. rewrite Z.mod_mul, Z.div_mul by lia.
  change (2 * 0) with 0. now destruct (Z.compare_spec 0 g); try lia.
Qed.

Lemma rne_scale a g c : 0 < g -> 0 < c -> rne (a * c) (g * c) = rne a g.
Proof.
  intros Hg Hc. unfold rne.
  rewrite Z.div_mul_cancel_r, Z.mul_mod_distr_r by lia.
  replace (2 * (a mod g * c)) with (2 * (a mod g) * c) by ring.
  now rewrite <- Zmult_compare_compat_r by lia.
Qed.

Lemma rne_nonneg a g : 0 < g -> 0 <= a -> 0 <= rne a g.
Proof.
  intros Hg Ha. rewrite <- (rne_exact 0 g Hg). now apply rne_mono.
Qed.

(** [shr_1] and its iteration divide by a power of two, and keep track of
    the remainder. *)
Lemma shr_1_spec m r s :
  0 <= m ->
  shr_1 {| shr_m := m; shr_r := r; shr_s := s |}
  = {| shr_m := Z.div2 m; shr_r := Z.odd m; shr_s := r || s |}.
Proof.
  intros Hm. destruct m as [|[p|p|]|p]; try reflexivity. lia.
Qed.

Lemma iter_pos_nat {A} (f : A -> A) (p : positive) :
  forall x, SpecFloat.iter_pos f p x = Nat.iter (Pos.to_nat p) f x.
Proof.
  induction p as [p IH|p IH|]; intros x.
  - rewrite Pos2Nat.inj_xI. cbn [SpecFloat.iter_pos]. rewrite !IH.
    replace (S (2 * Pos.to_nat p))%nat with (Pos.to_nat p + S (Pos.to_nat p))%nat by lia.
    rewrite Nat.iter_add. now rewrite Nat.iter_succ_r.
  - rewrite Pos2Nat.inj_xO. cbn [SpecFloat.iter_pos]. rewrite !IH.
    replace (2 * Pos.to_nat p)%nat with (Pos.to_nat p + Pos.to_nat p)%nat by lia.
    now rewrite Nat.iter_add.
  - reflexivity.
Qed.

Lemma shr_inv_step m k mrs :
  0 <= k -> shr_inv m k mrs -> shr_inv m (k + 1) (shr_1 mrs).
Proof.
  intros Hk [Hq [Hrem Hloc]]. destruct mrs as [q r s].
  cbn [shr_m shr_r shr_s] in *.
  rewrite shr_1_spec by exact Hq. unfold shr_inv. cbn [shr_m shr_r shr_s].
  rewrite Z.pow_add_r by lia. change (2 ^ 1) with 2.
  pose proof (Z.div2_odd q) as Hdiv.
  assert (Hpow : 0 < 2 ^ k) by (apply Z.pow_pos_nonneg; lia).
  assert (Hq2 : 0 <= Z.div2 q) by (apply Z.div2_nonneg; exact Hq).
  set (q' := Z.div2 q) in *. set (g := 2 ^ k) in *.
  assert (Eprod : q * g = 2 * (q' * g) + Z.b2z (Z.odd q) * g) by (rewrite Hdiv at 1; ring).
  replace (q' * (g * 2)) with (2 * (q' * g)) by ring.
  destruct (Z.odd q); cbn [Z.b2z] in *; destruct r, s; cbn [orb]; lia.
Qed.

Lemma shr_inv_iter m (n : nat) :
  0 <= m ->
  shr_inv m (Z.of_nat n)
          (Nat.iter n shr_1 {| shr_m := m; shr_r := false; shr_s := false |}).
Proof.
  intros Hm. induction n as [|n IH].
  - unfold shr_inv. simpl. lia.
  - rewrite Nat2Z.inj_succ. unfold Z.succ. simpl Nat.iter.
    apply shr_inv_step; [lia | exact IH].
Qed.

Lemma shr_inv_round m k mrs :
  0 <= k -> shr_inv m k mrs ->
  round_nearest_even (shr_m mrs) (loc_of_shr_record mrs) = rne m (2 ^ k).
Proof.
  intros Hk [Hq [Hrem Hloc]].
  assert (Hpow : 0 < 2 ^ k) by (apply Z.pow_pos_nonneg; lia).
  assert (Hdiv : m / 2 ^ k = shr_m mrs).
  { symmetry. apply (Z.div_unique_pos m (2 ^ k) (shr_m mrs) (m - shr_m mrs * 2 ^ k)); lia. }
  assert (Hmod : m mod 2 ^ k = m - shr_m mrs * 2 ^ k).
  { symmetry. apply (Z.mod_unique_pos m (2 ^ k) (shr_m mrs)); lia. }
  unfold rne. rewrite Hdiv, Hmod.
  destruct mrs as [q r s]. cbn [shr_m shr_r shr_s] in *.
  destruct r, s; cbn [loc_of_shr_record round_nearest_even];
    destruct (Z.compare_spec (2 * (m - q * 2 ^ k)) (2 ^ k)); try lia; reflexivity.
Qed.

Lemma digits2_bounds (p : positive) :
  2 ^ (Zpos (digits2_pos p) - 1) <= Zpos p < 2 ^ Zpos (digits2_pos p).
Proof.
  induction p as [p IH|p IH|]; cbn [digits2_pos].
  - rewrite Pos2Z.inj_succ.
    replace (Z.succ (Zpos (digits2_pos p)) - 1)
      with (Z.succ (Zpos (digits2_pos p) - 1)) by lia.
    rewrite !Z.pow_succ_r by lia.
    set (a := 2 ^ (Zpos (digits2_pos p) - 1)) in *.
    set (b := 2 ^ Zpos (digits2_pos p)) in *. clearbody a b. lia.
  - rewrite Pos2Z.inj_succ.
    replace (Z.succ (Zpos (digits2_pos p)) - 1)
      with (Z.succ (Zpos (digits2_pos p) - 1)) by lia.
    rewrite !Z.pow_succ_r by lia.
    set (a := 2 ^ (Zpos (digits2_pos p) - 1)) in *.
    set (b := 2 ^ Zpos (digits2_pos p)) in *. clearbody a b. lia.
  - simpl. lia.
Qed.

Lemma Zdigits2_log2 (p : positive) : Zdigits2 (Zpos p) = Z.log2 (Zpos p) + 1.
Proof.
  cbn [Zdigits2]. pose proof (digits2_bounds p) as Hb.
  rewrite (Z.log2_unique (Zpos p) (Zpos (digits2_pos p) - 1)); [lia | lia |].
  now replace (Z.succ (Zpos (digits2_pos p) - 1)) with (Zpos (digits2_pos p)) by lia.
Qed.

Lemma fexp_64 (e : Z) : fexp prec emax e = fexp64 e.
Proof. reflexivity. Qed.

Lemma shr_fexp_exact (m e : Z) :
  0 <= m ->
  exists mrs,
    shr_fexp prec emax m e loc_Exact = (mrs, Z.max e (fexp64 (Zdigits2 m + e)))
    /\ shr_inv m (Z.max e (fexp64 (Zdigits2 m + e)) - e) mrs.
Proof.
  intros Hm. unfold shr_fexp, shr. rewrite fexp_64.
  cbn [shr_record_of_loc].
  destruct (fexp64 (Zdigits2 m + e) - e) as [|p|p] eqn:En.
  - exists {| shr_m := m; shr_r := false; shr_s := false |}.
    replace (Z.max e (fexp64 (Zdigits2 m + e))) with e by lia.
    split; [reflexivity|]. rewrite Z.sub_diag. exact (shr_inv_iter m 0 Hm).
  - exists (SpecFloat.iter_pos shr_1 p {| shr_m := m; shr_r := false; shr_s := false |}).
    replace (Z.max e (fexp64 (Zdigits2 m + e))) with (e + Zpos p) by lia.
    split; [reflexivity|].
    replace (e + Zpos p - e) with (Z.of_nat (Pos.to_nat p))
      by (rewrite positive_nat_Z; lia).
    rewrite iter_pos_nat. now apply shr_inv_iter.
  - exists {| shr_m := m; shr_r := false; shr_s := false |}.
    replace (Z.max e (fexp64 (Zdigits2 m + e))) with e by lia.
    split; [reflexivity|]. rewrite Z.sub_diag. exact (shr_inv_iter m 0 Hm).
Qed.

Lemma pow2_pos (k : Z) : 0 <= k -> 0 < 2 ^ k.
Proof. intros Hk. apply Z.pow_pos_nonneg; lia. Qed.

Lemma pow2_le (j k : Z) : 0 <= j <= k -> 2 ^ j <= 2 ^ k.
Proof. intros H. apply Z.pow_le_mono_r; lia. Qed.

Lemma pow2_split (j k : Z) : 0 <= j -> 0 <= k -> 2 ^ (j + k) = 2 ^ j * 2 ^ k.
Proof. intros. apply Z.pow_add_r; lia. Qed.

Lemma rne_one (a : Z) : rne a 1 = a.
Proof. rewrite <- (Z.mul_1_r a) at 1. apply rne_exact. lia. Qed.

(** The first rounding step of [binary_round_aux], on the value. *)
Lemma round_value (B : Z) (m : positive) (e : Z) :
  B <= -1074 -> B <= e ->
  let e1 := Z.max e (fexp64 (Zdigits2 (Zpos m) + e)) in
  let q1 := rne (Zpos m) (2 ^ (e1 - e)) in
  RND B (Zpos m * 2 ^ (e - B)) = q1 * 2 ^ (e1 - B)
  /\ 0 <= q1 <= 2 ^ 53.
Proof.
  intros HB He e1 q1. subst q1.
  pose proof (digits2_bounds m) as Hd.
  assert (Hlog : Z.log2 (Zpos m * 2 ^ (e - B)) + 1 + B = Zdigits2 (Zpos m) + e).
  { rewrite Z.log2_mul_pow2 by lia. rewrite Zdigits2_log2. lia. }
  unfold RND. rewrite Hlog.
  set (s := fexp64 (Zdigits2 (Zpos m) + e)) in *.
  assert (Hs : -1074 <= s) by (unfold s, fexp64; lia).
  assert (Hsd : Zdigits2 (Zpos m) + e - 53 <= s) by (unfold s, fexp64; lia).
  cbn [Zdigits2] in Hsd.
  destruct (Z.le_gt_cases e s) as [Hle|Hgt].
  - replace e1 with s by (unfold e1; lia).
    replace (s - B) with ((s - e) + (e - B)) at 2 by lia.
    rewrite pow2_split by lia.
    rewrite rne_scale by (apply pow2_pos; lia).
    split; [ring|]. split.
    + apply rne_nonneg; [apply pow2_pos; lia | lia].
    + rewrite <- (rne_exact (2 ^ 53) (2 ^ (s - e))) by (apply pow2_pos; lia).
      apply rne_mono; [apply pow2_pos; lia|].
      rewrite <- pow2_split by lia.
      pose proof (pow2_le (Zpos (digits2_pos m)) (53 + (s - e))). lia.
  - replace e1 with e by (unfold e1; lia).
    rewrite Z.sub_diag. change (2 ^ 0) with 1. rewrite rne_one.
    replace (e - B) with ((e - s) + (s - B)) by lia.
    rewrite pow2_split by lia. rewrite Z.mul_assoc.
    rewrite rne_exact by (apply pow2_pos; lia).
    split; [ring|].
    pose proof (pow2_le (Zpos (digits2_pos m)) 53). lia.
Qed.

Lemma binary_round_aux_value (B : Z) (m : positive) (e : Z) :
  B <= -1074 -> B <= e -> e <= 970 -> Zdigits2 (Zpos m) + e <= 1023 ->
  let r := binary_round_aux prec emax false (Zpos m) e loc_Exact in
  SFnonneg r = true /\ SFval B r = RND B (Zpos m * 2 ^ (e - B)).
Proof.
  intros HB He Hmax Hmag r. subst r.
  destruct (round_value B m e HB He) as [Hval [Hq0 Hq53]].
  unfold binary_round_aux.
  destruct (shr_fexp_exact (Zpos m) e) as [mrs1 [E1 I1]]; [lia|]. rewrite E1.
  set (e1 := Z.max e (fexp64 (Zdigits2 (Zpos m) + e))) in *.
  assert (He1 : -1074 <= e1 <= 970) by (unfold e1, fexp64; lia).
  assert (Hk1 : 0 <= e1 - e) by (unfold e1; lia).
  rewrite (shr_inv_round _ _ _ Hk1 I1).
  set (q1 := rne (Zpos m) (2 ^ (e1 - e))) in *.
  destruct (shr_fexp_exact q1 e1) as [mrs2 [E2 I2]]; [lia|]. rewrite E2.
  set (e2 := Z.max e1 (fexp64 (Zdigits2 q1 + e1))) in *.
  assert (Hexact : e1 <= e2 <= 971 /\ shr_m mrs2 * 2 ^ (e2 - e1) = q1).
  { destruct I2 as [Hm2 [Hrem _]]. fold e2 in Hrem.
    destruct q1 as [|p1|p1] eqn:Eq1; [| |lia].
    - assert (e2 = e1) by (unfold e2, fexp64; cbn [Zdigits2]; lia).
      subst e2. rewrite H in *. rewrite Z.sub_diag in *. change (2 ^ 0) with 1 in *. lia.
    - pose proof (digits2_bounds p1) as Hd1.
      destruct (Z.eq_dec (Zpos p1) (2 ^ 53)) as [E53|N53].
      + assert (Hdig : Zpos (digits2_pos p1) = 54).
        { pose proof (Zdigits2_log2 p1) as Hl. cbn [Zdigits2] in Hl.
          rewrite Hl, E53. rewrite Z.log2_pow2 by lia. reflexivity. }
        assert (e2 = e1 + 1) by (unfold e2, fexp64; cbn [Zdigits2]; lia).
        rewrite H in *. replace (e1 + 1 - e1) with 1 in * by lia.
        change (2 ^ 1) with 2 in *. rewrite E53 in *.
        change (2 ^ 53) with 9007199254740992 in *. lia.
      + assert (Hdig : Zpos (digits2_pos p1) <= 53).
        { destruct (Z.le_gt_cases (Zpos (digits2_pos p1)) 53) as [Hok|Hbig]; [exact Hok|].
          pose proof (pow2_le 53 (Zpos (digits2_pos p1) - 1)). lia. }
        assert (e2 = e1) by (unfold e2, fexp64; cbn [Zdigits2]; lia).
        rewrite H in *. rewrite Z.sub_diag in *. change (2 ^ 0) with 1 in *. lia. }
  destruct Hexact as [He2 Hq].
  assert (Hfinal : shr_m mrs2 * 2 ^ (e2 - B) = RND B (Zpos m * 2 ^ (e - B))).
  { rewrite Hval, <- Hq.
    replace (e2 - B) with ((e2 - e1) + (e1 - B)) by lia.
    rewrite pow2_split by lia. ring. }
  destruct I2 as [Hm2 _].
  destruct (shr_m mrs2) as [|m2|m2] eqn:Em2; [| |lia].
  - split; [reflexivity|]. cbn [SFval]. rewrite <- Hfinal. ring.
  - replace (e2 <=? emax - prec) with true
      by (symmetry; apply Z.leb_le; change (emax - prec) with 971; lia).
    split; [reflexivity|]. exact Hfinal.
Qed.

Lemma rne_zero (g : Z) : 0 < g -> rne 0 g = 0.
Proof. intros Hg. rewrite <- (Z.mul_0_l g) at 1. now apply rne_exact. Qed.

Lemma fexp64_ge (e : Z) : -1074 <= fexp64 e.
Proof. unfold fexp64. lia. Qed.

Lemma RND_zero (B : Z) : B <= -1074 -> RND B 0 = 0.
Proof.
  intros HB. unfold RND. pose proof (fexp64_ge (Z.log2 0 + 1 + B)).
  rewrite rne_zero by (apply pow2_pos; lia). ring.
Qed.

Lemma RND_nonneg (B a : Z) : B <= -1074 -> 0 <= a -> 0 <= RND B a.
Proof.
  intros HB Ha. unfold RND. pose proof (fexp64_ge (Z.log2 a + 1 + B)).
  apply Z.mul_nonneg_nonneg.
  - apply Z.lt_le_incl, pow2_pos. lia.
  - apply rne_nonneg; [apply pow2_pos; lia | exact Ha].
Qed.

Lemma RND_mono (B a1 a2 : Z) :
  B <= -1074 -> 0 <= a1 <= a2 -> RND B a1 <= RND B a2.
Proof.
  intros HB [H0 Hle].
  destruct (Z.eq_dec a1 0) as [->|Hnz].
  { rewrite RND_zero by exact HB. apply RND_nonneg; lia. }
  assert (Hp1 : 0 < a1) by lia. assert (Hp2 : 0 < a2) by lia.
  pose proof (Z.log2_le_mono a1 a2 Hle) as Hlog.
  pose proof (Z.log2_spec a1 Hp1) as Hl1.
  pose proof (Z.log2_spec a2 Hp2) as Hl2.
  pose proof (Z.log2_nonneg a1) as Hn1.
  unfold RND.
  set (l1 := Z.log2 a1) in *. set (l2 := Z.log2 a2) in *.
  set (s1 := fexp64 (l1 + 1 + B)). set (s2 := fexp64 (l2 + 1 + B)).
  assert (Hs : s1 <= s2) by (unfold s1, s2, fexp64; lia).
  assert (Hs1 : -1074 <= s1) by apply fexp64_ge.
  assert (G1 : 0 < 2 ^ (s1 - B)) by (apply pow2_pos; lia).
  assert (G2 : 0 < 2 ^ (s2 - B)) by (apply pow2_pos; lia).
  destruct (Z.eq_dec s1 s2) as [E|NE].
  - rewrite E. apply Z.mul_le_mono_nonneg_l; [lia|].
    apply rne_mono; assumption.
  - assert (E2 : s2 = l2 + 1 + B - 53) by (unfold s1, s2, fexp64 in *; lia).
    assert (E1 : l1 + 1 + B - 53 <= s1) by (unfold s1, fexp64; lia).
    assert (U1 : rne a1 (2 ^ (s1 - B)) <= 2 ^ 53).
    { rewrite <- (rne_exact (2 ^ 53) (2 ^ (s1 - B))) by exact G1.
      apply rne_mono; [exact G1|].
      rewrite <- pow2_split by lia.
      pose proof (pow2_le (Z.succ l1) (53 + (s1 - B))). lia. }
    assert (L2 : 2 ^ 52 <= rne a2 (2 ^ (s2 - B))).
    { rewrite <- (rne_exact (2 ^ 52) (2 ^ (s2 - B))) at 1 by exact G2.
      apply rne_mono; [exact G2|].
      rewrite <- pow2_split by lia.
      replace (52 + (s2 - B)) with l2 by lia. lia. }
    apply Z.le_trans with (2 ^ (s1 - B) * 2 ^ 53).
    { apply Z.mul_le_mono_nonneg_l; [lia | exact U1]. }
    apply Z.le_trans with (2 ^ (s2 - B) * 2 ^ 52).
    { rewrite <- !pow2_split by lia. apply pow2_le. lia. }
    apply Z.mul_le_mono_nonneg_l; [lia | exact L2].
Qed.

(** Canonical representations, as [Prim2SF] returns them. *)
Lemma valid_finite (s : bool) (m : positive) (e : Z) :
  valid_binary (S754_finite s m e) = true ->
  fexp64 (Zpos (digits2_pos m) + e) = e /\ e <= 971.
Proof.
  unfold SpecFloat.valid_binary, SpecFloat.bounded, SpecFloat.canonical_mantissa.
  rewrite fexp_64.
  intros H. apply andb_true_iff in H. destruct H as [Hc He].
  apply Z.eqb_eq in Hc. apply Z.leb_le in He. split; [exact Hc | exact He].
Qed.

Lemma canonical_bounds (m : positive) (e : Z) :
  fexp64 (Zpos (digits2_pos m) + e) = e ->
  -1074 <= e /\ Zpos m < 2 ^ 53 /\ (-1074 < e -> 2 ^ 52 <= Zpos m).
Proof.
  intros Hc. pose proof (digits2_bounds m) as Hd.
  assert (Hdig : Zpos (digits2_pos m) <= 53) by (unfold fexp64 in Hc; lia).
  split; [unfold fexp64 in Hc; lia|]. split.
  - pose proof (pow2_le (Zpos (digits2_pos m)) 53). lia.
  - intros He.
    assert (Zpos (digits2_pos m) = 53) by (unfold fexp64 in Hc; lia).
    rewrite H in Hd. exact (proj1 Hd).
Qed.

Lemma SFval_pos (B : Z) (s : bool) (m : positive) (e : Z) :
  B <= e -> 0 < SFval B (S754_finite s m e).
Proof.
  intros He. cbn [SFval]. apply Z.mul_pos_pos; [lia | apply pow2_pos; lia].
Qed.

Lemma SFcompare_val (x y : spec_float) :
  valid_binary x = true -> valid_binary y = true ->
  SFnonneg x = true -> SFnonneg y = true ->
  SFcompare x y = Some (SFval (-1074) x ?= SFval (-1074) y).
Proof.
  intros Vx Vy Nx Ny.
  destruct x as [sx|sx| |sx mx ex]; try discriminate;
    destruct y as [sy|sy| |sy my ey]; try discriminate.
  - reflexivity.
  - destruct sy; [discriminate|].
    destruct (valid_finite _ _ _ Vy) as [Cy _].
    destruct (canonical_bounds _ _ Cy) as [Hey _].
    pose proof (SFval_pos (-1074) false my ey Hey) as Hpos.
    cbn [SFcompare]. f_equal. symmetry. apply Z.compare_lt_iff. exact Hpos.
  - destruct sx; [discriminate|].
    destruct (valid_finite _ _ _ Vx) as [Cx _].
    destruct (canonical_bounds _ _ Cx) as [Hex _].
    pose proof (SFval_pos (-1074) false mx ex Hex) as Hpos.
    cbn [SFcompare]. f_equal. symmetry. apply Z.compare_gt_iff. exact Hpos.
  - destruct sx; [discriminate|]. destruct sy; [discriminate|].
    destruct (valid_finite _ _ _ Vx) as [Cx _].
    destruct (valid_finite _ _ _ Vy) as [Cy _].
    destruct (canonical_bounds _ _ Cx) as [Hex [Ux Lx]].
    destruct (canonical_bounds _ _ Cy) as [Hey [Uy Ly]].
    cbn [SFcompare SFval]. f_equal.
    change (2 ^ 53) with (2 * 2 ^ 52) in *.
    destruct (Z.compare_spec ex ey) as [E|Hlt|Hgt].
    + subst ey. rewrite <- Zmult_compare_compat_r by (apply Z.lt_gt, pow2_pos; lia).
      reflexivity.
    + symmetry. apply Z.compare_lt_iff.
      replace (ey - -1074) with ((ey - ex) + (ex - -1074)) by lia.
      rewrite pow2_split by lia.
      pose proof (pow2_pos (ex - -1074) ltac:(lia)) as Hg.
      pose proof (pow2_le 1 (ey - ex) ltac:(lia)) as Ht. change (2 ^ 1) with 2 in Ht.
      specialize (Ly ltac:(lia)).
      set (g := 2 ^ (ex - -1074)) in *. set (t := 2 ^ (ey - ex)) in *.
      clearbody g t.
      apply Z.lt_le_trans with (2 * 2 ^ 52 * g).
      * apply Z.mul_lt_mono_pos_r; [exact Hg | exact Ux].
      * rewrite Z.mul_assoc. apply Z.mul_le_mono_nonneg_r; [lia|].
        apply Z.le_trans with (2 ^ 52 * t); [lia|].
        apply Z.mul_le_mono_nonneg_r; lia.
    + symmetry. apply Z.compare_gt_iff.
      replace (ex - -1074) with ((ex - ey) + (ey - -1074)) by lia.
      rewrite pow2_split by lia.
      pose proof (pow2_pos (ey - -1074) ltac:(lia)) as Hg.
      pose proof (pow2_le 1 (ex - ey) ltac:(lia)) as Ht. change (2 ^ 1) with 2 in Ht.
      specialize (Lx ltac:(lia)).
      set (g := 2 ^ (ey - -1074)) in *. set (t := 2 ^ (ex - ey)) in *.
      clearbody g t.
      apply Z.lt_le_trans with (2 * 2 ^ 52 * g).
      * apply Z.mul_lt_mono_pos_r; [exact Hg | exact Uy].
      * rewrite Z.mul_assoc. apply Z.mul_le_mono_nonneg_r; [lia|].
        apply Z.le_trans with (2 ^ 52 * t); [lia|].
        apply Z.mul_le_mono_nonneg_r; lia.
Qed.

(** A double rounds to itself. *)
Lemma RND_canonical (x : spec_float) :
  valid_binary x = true -> RND (-1074) (SFval (-1074) x) = SFval (-1074) x.
Proof.
  intros Vx. destruct x as [s|s| |s m e]; cbn [SFval]; try (apply RND_zero; lia).
  destruct (valid_finite _ _ _ Vx) as [Cx _].
  destruct (canonical_bounds _ _ Cx) as [He _].
  unfold RND. rewrite Z.log2_mul_pow2 by lia.
  pose proof (Zdigits2_log2 m) as Hl. cbn [Zdigits2] in Hl.
  replace (e - -1074 + Z.log2 (Zpos m) + 1 + -1074) with (Zpos (digits2_pos m) + e) by lia.
  rewrite Cx. rewrite rne_exact by (apply pow2_pos; lia). ring.
Qed.

(** The magnitude of a number, from a bound on its value. *)
Lemma mag_bound (m : positive) (e K : Z) :
  -1074 <= e -> 0 <= K -> Zpos m * 2 ^ (e - -1074) <= 2 ^ K ->
  Zpos (digits2_pos m) + e <= K - 1073.
Proof.
  intros He HK Hv. pose proof (digits2_bounds m) as Hd.
  pose proof (Pos2Z.is_pos (digits2_pos m)) as Hdp.
  assert (H : 2 ^ (Zpos (digits2_pos m) - 1 + (e - -1074)) <= 2 ^ K).
  { rewrite pow2_split by lia.
    apply Z.le_trans with (Zpos m * 2 ^ (e - -1074)); [|exact Hv].
    apply Z.mul_le_mono_nonneg_r; [apply Z.lt_le_incl, pow2_pos; lia | lia]. }
  apply Z.pow_le_mono_r_iff in H; lia.
Qed.

Lemma SFval_shift (x : spec_float) :
  valid_binary x = true -> SFval (-2148) x = SFval (-1074) x * 2 ^ 1074.
Proof.
  intros Vx. destruct x as [s|s| |s m e]; cbn [SFval]; try reflexivity.
  destruct (valid_finite _ _ _ Vx) as [Cx _].
  destruct (canonical_bounds _ _ Cx) as [He _].
  replace (e - -2148) with ((e - -1074) + 1074) by lia.
  rewrite pow2_split by lia. ring.
Qed.

Lemma digits_mul (mx my : positive) :
  Zdigits2 (Zpos (mx * my))
  <= Zpos (digits2_pos mx) + Zpos (digits2_pos my).
Proof.
  rewrite Zdigits2_log2.
  pose proof (digits2_bounds mx) as Hx. pose proof (digits2_bounds my) as Hy.
  assert (H : Zpos (mx * my) < 2 ^ (Zpos (digits2_pos mx) + Zpos (digits2_pos my))).
  { rewrite pow2_split by lia. rewrite Pos2Z.inj_mul.
    apply Z.mul_lt_mono_nonneg; lia. }
  apply Z.log2_lt_pow2 in H; lia.
Qed.

Lemma SFmul_value (x y : spec_float) :
  valid_binary x = true -> valid_binary y = true ->
  SFnonneg x = true -> SFnonneg y = true ->
  SFval (-1074) x <= 2 ^ 1076 -> SFval (-1074) y <= 2 ^ 1076 ->
  SFnonneg (SF64mul x y) = true
  /\ SFval (-2148) (SF64mul x y) = RND (-2148) (SFval (-1074) x * SFval (-1074) y).
Proof.
  intros Vx Vy Nx Ny Bx By.
  destruct x as [sx|sx| |sx mx ex]; try discriminate;
    destruct y as [sy|sy| |sy my ey]; try discriminate;
    try (destruct sx; [discriminate|]); try (destruct sy; [discriminate|]);
    cbn [SF64mul SFmul SFval SFnonneg xorb];
    rewrite ?Z.mul_0_l, ?Z.mul_0_r;
    try (split; [reflexivity | now rewrite RND_zero by lia]).
  destruct (valid_finite _ _ _ Vx) as [Cx _].
  destruct (valid_finite _ _ _ Vy) as [Cy _].
  destruct (canonical_bounds _ _ Cx) as [Hex _].
  destruct (canonical_bounds _ _ Cy) as [Hey _].
  cbn [SFval] in Bx, By.
  pose proof (mag_bound mx ex 1076 Hex ltac:(lia) Bx) as Mx.
  pose proof (mag_bound my ey 1076 Hey ltac:(lia) By) as My.
  pose proof (digits_mul mx my) as Hd.
  pose proof (Pos2Z.is_pos (digits2_pos mx)).
  pose proof (Pos2Z.is_pos (digits2_pos my)).
  destruct (binary_round_aux_value (-2148) (mx * my) (ex + ey)) as [Hn Hv];
    try lia.
  unfold SF64mul, SFmul. cbn [xorb]. split; [exact Hn|].
  rewrite Hv. f_equal. rewrite Pos2Z.inj_mul.
  replace (ex + ey - -2148) with ((ex - -1074) + (ey - -1074)) by lia.
  rewrite pow2_split by lia. ring.
Qed.

Lemma pos_iter_xO (m d : positive) : Zpos (Pos.iter xO m d) = Zpos m * 2 ^ Zpos d.
Proof.
  induction d as [|d IH] using Pos.peano_ind.
  - cbn [Pos.iter]. change (2 ^ 1) with 2. lia.
  - rewrite Pos.iter_succ, Pos2Z.inj_succ, Z.pow_succ_r by lia.
    change (Zpos (Pos.iter xO m d)~0) with (2 * Zpos (Pos.iter xO m d)).
    rewrite IH. ring.
Qed.

Lemma shl_align_spec (m : positive) (e e' : Z) (m' : positive) (e'' : Z) :
  shl_align m e e' = (m', e'') ->
  e'' = Z.min e e' /\ Zpos m' = Zpos m * 2 ^ (e - e'').
Proof.
  unfold shl_align. destruct (e' - e) as [|d|d] eqn:E; intros H; injection H as <- <-.
  - split; [lia|]. rewrite Z.sub_diag. change (2 ^ 0) with 1. lia.
  - split; [lia|]. rewrite Z.sub_diag. change (2 ^ 0) with 1. lia.
  - split; [lia|]. rewrite pos_iter_xO. f_equal. f_equal. lia.
Qed.

Lemma SFadd_value (x y : spec_float) :
  valid_binary x = true -> valid_binary y = true ->
  SFnonneg x = true -> SFnonneg y = true ->
  SFval (-1074) x <= 2 ^ 1076 -> SFval (-1074) y <= 2 ^ 1076 ->
  SFnonneg (SF64add x y) = true
  /\ SFval (-1074) (SF64add x y) = RND (-1074) (SFval (-1074) x + SFval (-1074) y).
Proof.
  intros Vx Vy Nx Ny Bx By.
  destruct x as [sx|sx| |sx mx ex]; try discriminate;
    destruct y as [sy|sy| |sy my ey]; try discriminate;
    try (destruct sx; [discriminate|]); try (destruct sy; [discriminate|]).
  - split; [destruct sx, sy; reflexivity|].
    cbn [SFval]. rewrite RND_zero by lia. now destruct sx, sy.
  - split; [reflexivity|]. unfold SF64add. cbn [SFadd].
    change (SFval (-1074) (S754_zero sx)) with 0. rewrite Z.add_0_l.
    symmetry. now apply RND_canonical.
  - split; [reflexivity|]. unfold SF64add. cbn [SFadd].
    change (SFval (-1074) (S754_zero sy)) with 0. rewrite Z.add_0_r.
    symmetry. now apply RND_canonical.
  - destruct (valid_finite _ _ _ Vx) as [Cx _].
    destruct (valid_finite _ _ _ Vy) as [Cy _].
    destruct (canonical_bounds _ _ Cx) as [Hex _].
    destruct (canonical_bounds _ _ Cy) as [Hey _].
    cbn [SFval] in *.
    pose proof (mag_bound mx ex 1076 Hex ltac:(lia) Bx) as Mx.
    pose proof (mag_bound my ey 1076 Hey ltac:(lia) By) as My.
    pose proof (Pos2Z.is_pos (digits2_pos mx)).
    pose proof (Pos2Z.is_pos (digits2_pos my)).
    unfold SF64add, SFadd. cbn [cond_Zopp].
    set (ez := Z.min ex ey).
    destruct (shl_align mx ex ez) as [mx' ex'] eqn:Ax.
    destruct (shl_align my ey ez) as [my' ey'] eqn:Ay.
    apply shl_align_spec in Ax. apply shl_align_spec in Ay.
    destruct Ax as [Ex' Hmx]. destruct Ay as [Ey' Hmy].
    replace ex' with ez in Hmx by (unfold ez in *; lia).
    replace ey' with ez in Hmy by (unfold ez in *; lia).
    cbn [fst Z.add binary_normalize]. unfold binary_round.
    set (M := (mx' + my')%positive).
    assert (HM : Zpos M * 2 ^ (ez - -1074)
                 = Zpos mx * 2 ^ (ex - -1074) + Zpos my * 2 ^ (ey - -1074)).
    { unfold M. rewrite Pos2Z.inj_add, Hmx, Hmy.
      replace (ex - -1074) with ((ex - ez) + (ez - -1074)) by lia.
      replace (ey - -1074) with ((ey - ez) + (ez - -1074)) by lia.
      rewrite !pow2_split by (unfold ez; lia). ring. }
    assert (Hez : -1074 <= ez) by (unfold ez; lia).
    assert (MM : Zpos (digits2_pos M) + ez <= 4).
    { pose proof (mag_bound M ez 1077 Hez ltac:(lia)) as Hb.
      rewrite HM in Hb. change (2 ^ 1077) with (2 * 2 ^ 1076) in Hb. lia. }
    destruct (shl_align M ez (fexp prec emax (Zpos (digits2_pos M) + ez)))
      as [mz ez'] eqn:Az.
    apply shl_align_spec in Az. destruct Az as [Ez' Hmz].
    rewrite fexp_64 in Ez'.
    pose proof (fexp64_ge (Zpos (digits2_pos M) + ez)) as Hf.
    assert (Hdz : Zdigits2 (Zpos mz) + ez' = Zpos (digits2_pos M) + ez).
    { rewrite Zdigits2_log2, Hmz.
      rewrite Z.log2_mul_pow2 by lia.
      pose proof (Zdigits2_log2 M) as Hl. cbn [Zdigits2] in Hl. lia. }
    destruct (binary_round_aux_value (-1074) mz ez') as [Hn Hv]; try lia.
    split; [exact Hn|]. rewrite Hv. f_equal.
    rewrite Hmz, <- HM.
    replace (ez - -1074) with ((ez - ez') + (ez' - -1074)) by lia.
    rewrite pow2_split by lia. ring.
Qed.

Lemma F64_compare_val (x y : float) :
  F64nonneg x = true -> F64nonneg y = true ->
  SFcompare (Prim2SF x) (Prim2SF y) = Some (F64val x ?= F64val y).
Proof. intros Nx Ny. apply SFcompare_val; try apply Prim2SF_valid; assumption. Qed.

Lemma F64_leb_val (x y : float) :
  F64nonneg x = true -> F64nonneg y = true ->
  (x <=? y)%float = (F64val x <=? F64val y).
Proof.
  intros Nx Ny. rewrite leb_spec. unfold SFleb.
  rewrite F64_compare_val by assumption.
  unfold Z.leb. now destruct (F64val x ?= F64val y).
Qed.

Lemma F64_ltb_val (x y : float) :
  F64nonneg x = true -> F64nonneg y = true ->
  (x <? y)%float = (F64val x <? F64val y).
Proof.
  intros Nx Ny. rewrite ltb_spec. unfold SFltb.
  rewrite F64_compare_val by assumption.
  unfold Z.ltb. now destruct (F64val x ?= F64val y).
Qed.

Lemma F64val_nonneg (x : float) : 0 <= F64val x.
Proof.
  unfold F64val.
  destruct (Prim2SF x) as [s|s| |s m e]; cbn [SFval];
    [lia | lia | lia | apply Z.mul_nonneg_nonneg; [lia | apply Z.pow_nonneg; lia]].
Qed.

Lemma F64small_val (x : float) :
  F64small x = true -> F64nonneg x = true /\ F64val x <= 2 ^ 1076.
Proof.
  unfold F64small. intros H. apply andb_true_iff in H. destruct H as [Nx Hle].
  split; [exact Nx|].
  rewrite F64_leb_val in Hle by (exact Nx || reflexivity).
  apply Z.leb_le in Hle. exact Hle.
Qed.

Lemma F64small_intro (x y : float) :
  F64nonneg x = true -> F64small y = true -> (x <=? y)%float = true ->
  F64small x = true.
Proof.
  intros Nx Sy Hle. destruct (F64small_val y Sy) as [Ny Vy].
  unfold F64small. rewrite Nx. cbn [andb].
  rewrite F64_leb_val in * by (assumption || reflexivity).
  apply Z.leb_le in Hle. apply Z.leb_le.
  change (F64val 4) with (2 ^ 1076). lia.
Qed.

Lemma F64_leb_trans (x y z : float) :
  F64nonneg x = true -> F64nonneg y = true -> F64nonneg z = true ->
  (x <=? y)%float = true -> (y <=? z)%float = true -> (x <=? z)%float = true.
Proof.
  intros Nx Ny Nz. rewrite !F64_leb_val by assumption.
  rewrite !Z.leb_le. lia.
Qed.

Lemma F64_leb_ltb_trans (x y z : float) :
  F64nonneg x = true -> F64nonneg y = true -> F64nonneg z = true ->
  (x <=? y)%float = true -> (y <? z)%float = true -> (x <? z)%float = true.
Proof.
  intros Nx Ny Nz. rewrite F64_leb_val, !F64_ltb_val by assumption.
  rewrite Z.leb_le, !Z.ltb_lt. lia.
Qed.

(** A double between two non-negative finite doubles is one. *)
Lemma F64_between (lo hi x : float) :
  F64nonneg lo = true -> F64nonneg hi = true ->
  (lo <=? x)%float = true -> (x <=? hi)%float = true ->
  F64nonneg x = true.
Proof.
  unfold F64nonneg. rewrite !leb_spec. unfold SFleb.
  destruct (Prim2SF lo) as [sl|sl| |sl ml el]; try discriminate;
    destruct (Prim2SF hi) as [sh|sh| |sh mh eh]; try discriminate;
    destruct (Prim2SF x) as [s|s| |s m e]; cbn [SFnonneg SFcompare];
    try reflexivity; try discriminate;
    repeat match goal with
           | b : bool |- _ => destruct b
           end; cbn [SFnonneg SFcompare]; try reflexivity; try discriminate;
    intros; discriminate.
Qed.

Lemma F64_mul_mono (x y k : float) :
  F64small x = true -> F64small y = true -> F64small k = true ->
  (x <=? y)%float = true ->
  F64nonneg (x * k) = true /\ F64nonneg (y * k) = true
  /\ (x * k <=? y * k)%float = true.
Proof.
  intros Sx Sy Sk Hle.
  destruct (F64small_val x Sx) as [Nx Bx].
  destruct (F64small_val y Sy) as [Ny By].
  destruct (F64small_val k Sk) as [Nk Bk].
  rewrite F64_leb_val in Hle by assumption. apply Z.leb_le in Hle.
  destruct (SFmul_value (Prim2SF x) (Prim2SF k)) as [Nxk Vxk];
    try apply Prim2SF_valid; try assumption.
  destruct (SFmul_value (Prim2SF y) (Prim2SF k)) as [Nyk Vyk];
    try apply Prim2SF_valid; try assumption.
  rewrite <- mul_spec in Nxk, Vxk, Nyk, Vyk.
  rewrite SFval_shift in Vxk, Vyk by apply Prim2SF_valid.
  fold (F64val (x * k)) in Vxk. fold (F64val (y * k)) in Vyk.
  fold (F64val x) in Vxk. fold (F64val y) in Vyk. fold (F64val k) in Vxk, Vyk.
  split; [exact Nxk|]. split; [exact Nyk|].
  rewrite F64_leb_val by assumption. apply Z.leb_le.
  pose proof (F64val_nonneg x). pose proof (F64val_nonneg k).
  assert (Hm : RND (-2148) (F64val x * F64val k)
               <= RND (-2148) (F64val y * F64val k)).
  { apply RND_mono; [lia|]. split.
    - apply Z.mul_nonneg_nonneg; assumption.
    - apply Z.mul_le_mono_nonneg_r; assumption. }
  rewrite <- Vxk, <- Vyk in Hm.
  apply Z.mul_le_mono_pos_r in Hm; [exact Hm | apply pow2_pos; lia].
Qed.

Lemma F64_add_mono (u v c : float) :
  F64small u = true -> F64small v = true -> F64small c = true ->
  (u <=? v)%float = true ->
  F64nonneg (u + c) = true /\ F64nonneg (v + c) = true
  /\ (u + c <=? v + c)%float = true.
Proof.
  intros Su Sv Sc Hle.
  destruct (F64small_val u Su) as [Nu Bu].
  destruct (F64small_val v Sv) as [Nv Bv].
  destruct (F64small_val c Sc) as [Nc Bc].
  rewrite F64_leb_val in Hle by assumption. apply Z.leb_le in Hle.
  destruct (SFadd_value (Prim2SF u) (Prim2SF c)) as [Nuc Vuc];
    try apply Prim2SF_valid; try assumption.
  destruct (SFadd_value (Prim2SF v) (Prim2SF c)) as [Nvc Vvc];
    try apply Prim2SF_valid; try assumption.
  rewrite <- add_spec in Nuc, Vuc, Nvc, Vvc.
  fold (F64val (u + c)) in Vuc. fold (F64val (v + c)) in Vvc.
  fold (F64val u) in Vuc. fold (F64val v) in Vvc. fold (F64val c) in Vuc, Vvc.
  split; [exact Nuc|]. split; [exact Nvc|].
  rewrite F64_leb_val by assumption. apply Z.leb_le.
  rewrite Vuc, Vvc. pose proof (F64val_nonneg u). pose proof (F64val_nonneg c).
  apply RND_mono; lia.
Qed.

(** The smoothing step [z * k + c] is monotone in [z]. *)
Lemma F64_smooth_mono (k c x y : float) :
  F64small k = true -> (4 * k <=? 4)%float = true -> F64small c = true ->
  F64small x = true -> F64small y = true ->
  (x <=? y)%float = true ->
  F64nonneg (x * k + c) = true /\ F64nonneg (y * k + c) = true
  /\ (x * k + c <=? y * k + c)%float = true.
Proof.
  intros Sk Hk Sc Sx Sy Hle.
  assert (S4 : F64small 4 = true) by reflexivity.
  destruct (F64_mul_mono x y k Sx Sy Sk Hle) as [Nxk [Nyk Hxy]].
  assert (Hx4 : (x <=? 4)%float = true)
    by (unfold F64small in Sx; now apply andb_true_iff in Sx).
  assert (Hy4 : (y <=? 4)%float = true)
    by (unfold F64small in Sy; now apply andb_true_iff in Sy).
  destruct (F64_mul_mono x 4 k Sx S4 Sk Hx4) as [_ [N4k Hx4k]].
  destruct (F64_mul_mono y 4 k Sy S4 Sk Hy4) as [_ [_ Hy4k]].
  assert (S4k : F64small (4 * k) = true).
  { unfold F64small. now rewrite N4k, Hk. }
  apply F64_add_mono; try assumption.
  - now apply (F64small_intro _ (4 * k)).
  - now apply (F64small_intro _ (4 * k)).
Qed.

End Binary64Rounding.

(** ** Bounds on the metrics *)

(** *** binary64: the smoothing overshoots its target *)

(** [0.9 * 0.2] rounds up to 0.18000000000000002, and the ASR of an
    undefended run climbs to the double 0.9 in round 158. *)
Example F64_asr_round_158 :
  backdoorSuccessRate
    (run Sample.trueDir (repeat (Sample.typicalRound Sample.cfgUndefended) 158))
  = 0.9%float.
Proof. vm_compute. reflexivity. Qed.

Example F64_asr_round_170 :
  backdoorSuccessRate
    (run Sample.trueDir (repeat (Sample.typicalRound Sample.cfgUndefended) 170))
  = 0.90000000000000024%float.
Proof. vm_compute. reflexivity. Qed.

(** In that run every client passes the magnitude check, round after round. *)
Example F64_undefended_all_accepted :
  map isAccepted
      (clients (run Sample.trueDir
                    (repeat (Sample.typicalRound Sample.cfgUndefended) 158)))
  = repeat true NUM_CLIENTS.
Proof. vm_compute. reflexivity. Qed.

(** C10, as stated, fails in the arithmetic of the program: after 158
    undefended rounds the ASR is 0.9, outside [0, 0.9). *)
Lemma C10_F64_asr_reaches_bound :
  ~ (forall (trueGradient : list float) (inputs : list (RoundInput float)),
        F64_metrics_claimed (run trueGradient inputs) = true).
Proof.
  intros Hclaim.
  specialize (Hclaim Sample.trueDir
                     (repeat (Sample.typicalRound Sample.cfgUndefended) 158)).
  vm_compute in Hclaim. discriminate Hclaim.
Qed.

(** *** binary64: the ranges the smoothing keeps *)

Lemma F64_in_range (lo hi x : float) :
  F64nonneg lo = true -> F64small hi = true ->
  (lo <=? x)%float = true -> (x <=? hi)%float = true ->
  F64small x = true.
Proof.
  intros Nlo Shi Hlo Hhi.
  destruct (F64small_val hi Shi) as [Nhi _].
  apply (F64small_intro x hi); [|exact Shi | exact Hhi].
  now apply (F64_between lo hi).
Qed.

(** A smoothing step that maps the ends of a range into the range maps
    all of it into the range. *)
Lemma F64_smooth_range (k c lo hi x : float) :
  F64small k = true -> (4 * k <=? 4)%float = true -> F64small c = true ->
  F64nonneg lo = true -> F64small hi = true ->
  (lo <=? lo * k + c)%float = true ->
  (hi * k + c <=? hi)%float = true ->
  (lo <=? x)%float = true -> (x <=? hi)%float = true ->
  (lo <=? x * k + c)%float = true /\ (x * k + c <=? hi)%float = true.
Proof.
  intros Sk Hk Sc Nlo Shi Hl Hh Hlo Hhi.
  destruct (F64small_val hi Shi) as [Nhi _].
  assert (Sx : F64small x = true) by now apply (F64_in_range lo hi).
  destruct (F64small_val x Sx) as [Nx _].
  assert (Slo : F64small lo = true).
  { apply (F64small_intro lo hi); [exact Nlo | exact Shi|].
    now apply (F64_leb_trans lo x hi). }
  destruct (F64_smooth_mono k c lo x Sk Hk Sc Slo Sx Hlo) as [Nfl [Nfx Hlx]].
  destruct (F64_smooth_mono k c x hi Sk Hk Sc Sx Shi Hhi) as [_ [Nfh Hxh]].
  split.
  - now apply (F64_leb_trans lo (lo * k + c) (x * k + c)).
  - now apply (F64_leb_trans (x * k + c) (hi * k + c) hi).
Qed.

Lemma feasibleCounts_In (a m : nat) :
  a <= NUM_CLIENTS -> m <= a -> In (a, m) feasibleCounts.
Proof.
  intros Ha Hm. unfold feasibleCounts. apply in_flat_map. exists a. split.
  - apply in_seq. lia.
  - apply in_map. apply in_seq. lia.
Qed.

(** The counts of a round are counts of 20 clients. *)
Lemma roundWith_counts {num} `{Num num} (trueGradient : list num)
      (st : SimulationState num) (inp : RoundInput num) :
  In (spec_acceptedCount (clients (roundWith trueGradient st inp)),
      spec_maliciousAccepted (clients (roundWith trueGradient st inp)))
     feasibleCounts.
Proof.
  apply feasibleCounts_In; [|apply maliciousAccepted_le].
  unfold spec_acceptedCount.
  etransitivity; [apply filter_length_le|].
  unfold roundWith. rewrite advance_clients, length_map.
  unfold clientsWith. now rewrite array_from_length.
Qed.

Lemma F64_smoothing_table :
  forallb F64_smoothing_ok feasibleCounts = true.
Proof. vm_compute. reflexivity. Qed.

Lemma F64_roundWith_metrics (trueGradient : list float)
      (st : SimulationState float) (inp : RoundInput float) :
  F64_metrics_bounded st = true ->
  F64_metrics_bounded (roundWith trueGradient st inp) = true.
Proof.
  unfold F64_metrics_bounded. intros Hst.
  apply andb_true_iff in Hst. destruct Hst as [Hst Hs1].
  apply andb_true_iff in Hst. destruct Hst as [Hst Hs0].
  apply andb_true_iff in Hst. destruct Hst as [Ha0 Ha1].
  pose proof (roundWith_counts trueGradient st inp) as Hin.
  pose proof F64_smoothing_table as Ht. rewrite forallb_forall in Ht.
  specialize (Ht _ Hin). unfold F64_smoothing_ok in Ht.
  unfold roundWith in *.
  destruct (advance_metrics (fst inp) trueGradient (clientsWith (snd inp)) st)
    as [Ea Es].
  rewrite Ea, Es.
  set (impact := attackImpactOf _ _) in *.
  apply andb_true_iff in Ht. destruct Ht as [Ht T6].
  apply andb_true_iff in Ht. destruct Ht as [Ht T5].
  apply andb_true_iff in Ht. destruct Ht as [Ht T4].
  apply andb_true_iff in Ht. destruct Ht as [Ht T3].
  apply andb_true_iff in Ht. destruct Ht as [T1 T2].
  assert (Sk : F64small (lit 0.8) = true) by reflexivity.
  assert (Hk : (4 * lit 0.8 <=? 4)%float = true) by reflexivity.
  destruct (F64_smooth_range (lit 0.8) _ 0.1 F64_accuracyTop (globalAccuracy st)
              Sk Hk T1 eq_refl eq_refl T3 T4 Ha0 Ha1) as [A0 A1].
  destruct (F64_smooth_range (lit 0.8) _ 0 F64_asrTop (backdoorSuccessRate st)
              Sk Hk T2 eq_refl eq_refl T5 T6 Hs0 Hs1) as [S0 S1].
  unfold newAccOf, newASROf.
  repeat (apply andb_true_iff; split); [exact A0 | exact A1 | exact S0 | exact S1].
Qed.

Lemma F64_reachable_metrics (trueGradient : list float)
      (st : SimulationState float) :
  reachable trueGradient st -> F64_metrics_bounded st = true.
Proof.
  induction 1 as [|st inp _ IH|st _ _].
  - reflexivity.
  - now apply F64_roundWith_metrics.
  - reflexivity.
Qed.

(** *** Real numbers *)

Section RealMetrics.

Open Scope R_scope.

Lemma R_ofNat (n : nat) : ofNat (num := R) n = INR n.
Proof.
  unfold ofNat. real_lits. cbn [inject_Z Qnum Qden].
  rewrite INR_IZR_INZ. field.
Qed.

Lemma R_attackImpact_bounds (a m : nat) :
  (m <= a)%nat -> 0 <= attackImpactOf (num := R) a m <= 1.
Proof.
  intros Hle. unfold attackImpactOf. rewrite or_one_max, !R_ofNat.
  cbn [ndiv Rnum].
  assert (Hpos : 0 < INR (Nat.max a 1)) by (apply lt_0_INR; lia).
  assert (Hm : 0 <= INR m) by apply pos_INR.
  assert (Hma : INR m <= INR (Nat.max a 1)) by (apply le_INR; lia).
  split.
  - apply Rmult_le_pos; [exact Hm | left; now apply Rinv_0_lt_compat].
  - apply (Rmult_le_reg_r (INR (Nat.max a 1))); [exact Hpos|].
    unfold Rdiv. rewrite Rmult_assoc, Rinv_l by lra. lra.
Qed.

Lemma R_newAcc_bounds (p i : R) :
  0.1 <= p < 0.95 -> 0 <= i <= 1 -> 0.1 <= newAccOf p i < 0.95.
Proof. intros Hp Hi. unfold newAccOf. real_lits. lra. Qed.

Lemma R_newASR_bounds (p i : R) :
  0 <= p < 0.9 -> 0 <= newASROf p i < 0.9.
Proof.
  intros Hp. unfold newASROf. destruct (ngtb i (lit 0.1)); real_lits; lra.
Qed.

Lemma R_roundWith_metrics (trueGradient : list R) (st : SimulationState R)
      (inp : RoundInput R) :
  R_metrics_claimed st -> R_metrics_claimed (roundWith trueGradient st inp).
Proof.
  intros [Hacc Hasr]. unfold roundWith.
  destruct (advance_metrics (fst inp) trueGradient (clientsWith (snd inp)) st)
    as [Ea Es].
  unfold R_metrics_claimed. rewrite Ea, Es. split.
  - apply R_newAcc_bounds; [exact Hacc|].
    apply R_attackImpact_bounds, maliciousAccepted_le.
  - now apply R_newASR_bounds.
Qed.

Lemma R_initial_metrics : R_metrics_claimed initialState.
Proof. unfold R_metrics_claimed, initialState; simpl. real_lits. lra. Qed.

(** The claimed ranges are an invariant of rounds and resets. *)
Lemma R_reachable_metrics (trueGradient : list R) (st : SimulationState R) :
  reachable trueGradient st -> R_metrics_claimed st.
Proof.
  induction 1 as [|st inp _ IH|st _ _].
  - apply R_initial_metrics.
  - now apply R_roundWith_metrics.
  - apply R_initial_metrics.
Qed.

End RealMetrics.

(** C10, amended.  Every state reached from the initial one (accuracy 0.1,
    ASR 0) by any number of round transitions, under any toggles and
    gradients, has globalAccuracy in [0.1, 0.95): in binary64 and over the
    reals.  The backdoorSuccessRate is at least 0; over the reals it is
    below 0.9, but in binary64 the bound it keeps is 0.90000000000000024,
    and it is attained: [0.9 * 0.2] rounds up to 0.18000000000000002, an
    undefended run has ASR 0.9 after round 158 and 0.90000000000000024
    after round 170. *)
Theorem C10_metric_bounds :
  (forall (trueGradient : list float) (inputs : list (RoundInput float)),
      let st := run trueGradient inputs in
      (0.1 <=? globalAccuracy st)%float = true
      /\ (globalAccuracy st <? 0.95)%float = true
      /\ (0 <=? backdoorSuccessRate st)%float = true
      /\ (backdoorSuccessRate st <=? 0.90000000000000024)%float = true)
  /\ backdoorSuccessRate
       (run Sample.trueDir (repeat (Sample.typicalRound Sample.cfgUndefended) 158))
     = 0.9%float
  /\ backdoorSuccessRate
       (run Sample.trueDir (repeat (Sample.typicalRound Sample.cfgUndefended) 170))
     = 0.90000000000000024%float
  /\ (forall (trueGradient : list R) (inputs : list (RoundInput R)),
         let st := run trueGradient inputs in
         (0.1 <= globalAccuracy st < 0.95)%R
         /\ (0 <= backdoorSuccessRate st < 0.9)%R).
Proof.
  split; [|split; [|split]].
  - intros trueGradient inputs st. subst st.
    assert (Hb : F64_metrics_bounded (run trueGradient inputs) = true).
    { apply (F64_reachable_metrics trueGradient), reachable_run. now exists inputs. }
    unfold F64_metrics_bounded in Hb.
    apply andb_true_iff in Hb. destruct Hb as [Hb Hs1].
    apply andb_true_iff in Hb. destruct Hb as [Hb Hs0].
    apply andb_true_iff in Hb. destruct Hb as [Ha0 Ha1].
    repeat split; try assumption.
    apply (F64_leb_ltb_trans _ F64_accuracyTop); try reflexivity; try assumption.
    now apply (F64_between 0.1 F64_accuracyTop).
  - vm_compute. reflexivity.
  - vm_compute. reflexivity.
  - intros trueGradient inputs st. subst st.
    apply (R_reachable_metrics trueGradient), reachable_run. now exists inputs.
Qed.

(** ** Client typing *)

Lemma map_const_repeat {A B} (f : A -> B) (c : B) (l : list A) :
  (forall x, In x l -> f x = c) -> map f l = repeat c (length l).
Proof.
  induction l as [|x l IH]; intros Hc; simpl; [reflexivity|].
  rewrite (Hc x) by (left; reflexivity).
  f_equal. apply IH. intros y Hy. apply Hc. now right.
Qed.

(** A typing rule that holds below [k] and fails from [k] on types a prefix. *)
Lemma prefix_typing (f : nat -> ClientType) (n k : nat) :
  k <= n ->
  (forall i, i < k -> f i = malicious) ->
  (forall i, k <= i < n -> f i = benign) ->
  array_from n f = repeat malicious k ++ repeat benign (n - k).
Proof.
  intros Hk Hlow Hhigh. unfold array_from.
  replace n with (k + (n - k)) at 1 by lia.
  rewrite seq_app, map_app. f_equal.
  - rewrite (map_const_repeat f malicious), length_seq; [reflexivity|].
    intros i Hi. apply in_seq in Hi. apply Hlow. lia.
  - rewrite (map_const_repeat f benign), length_seq; [reflexivity|].
    intros i Hi. apply in_seq in Hi. apply Hhigh. lia.
Qed.

(** The clients of a round carry the types the rule assigns, before and
    after detection. *)
Lemma roundWith_types {num} `{Num num} (trueGradient : list num)
      (st : SimulationState num) (inp : RoundInput num) :
  map type (clients (roundWith trueGradient st inp))
  = clientTypes NUM_CLIENTS MALICIOUS_RATIO.
Proof.
  unfold roundWith. rewrite advance_clients, map_map.
  unfold clientsWith, clientTypes, array_from. rewrite map_map.
  apply map_ext. intros i. now rewrite processClient_type.
Qed.

(** binary64: [20 * 0.2] is exactly 4, and clients 0-3 are malicious. *)
Example F64_client_types :
  clientTypes (num := float) NUM_CLIENTS MALICIOUS_RATIO
  = repeat malicious 4 ++ repeat benign 16.
Proof. vm_compute. reflexivity. Qed.

Section RealTyping.

Open Scope R_scope.

(** The least natural number at or above [x]. *)
Lemma nat_ceiling (n : nat) :
  forall x, 0 <= x <= INR n -> exists k, (k <= n)%nat /\ INR k - 1 < x <= INR k.
Proof.
  induction n as [|n IH]; intros x Hx.
  - exists 0%nat. simpl in *. split; [lia | lra].
  - destruct (Rle_lt_dec x (INR n)) as [Hle|Hgt].
    + destruct (IH x) as [k [Hk Hc]]; [lra|]. exists k. split; [lia | exact Hc].
    + exists (S n). rewrite S_INR in *. split; [lia | lra].
Qed.

Lemma R_clientTypeFor (n : nat) (r : R) (i : nat) :
  clientTypeFor n r i = if Rlt_dec (INR i) (INR n * r) then malicious else benign.
Proof.
  unfold clientTypeFor. rewrite !R_ofNat. cbn [nltb nmul Rnum]. unfold Rltb.
  now destruct (Rlt_dec (INR i) (INR n * r)).
Qed.

Lemma R_client_types (n : nat) (r : R) :
  0 <= r <= 1 ->
  exists k, (k <= n)%nat
            /\ INR k - 1 < INR n * r <= INR k
            /\ clientTypes n r = repeat malicious k ++ repeat benign (n - k).
Proof.
  intros Hr.
  assert (Hn : 0 <= INR n) by apply pos_INR.
  destruct (nat_ceiling n (INR n * r)) as [k [Hk Hc]]; [nra|].
  exists k. split; [exact Hk|]. split; [exact Hc|].
  apply prefix_typing; [exact Hk| |]; intros i Hi; rewrite R_clientTypeFor;
    destruct (Rlt_dec (INR i) (INR n * r)) as [Hlt|Hge]; try reflexivity; exfalso.
  - assert (INR i <= INR k - 1).
    { replace (INR k - 1) with (INR (k - 1)).
      - apply le_INR. lia.
      - rewrite minus_INR by lia. simpl. lra. }
    lra.
  - assert (INR k <= INR i) by (apply le_INR; lia). lra.
Qed.

(** Over the reals the program's constants give clients 0-3 as well. *)
Lemma R_client_types_program :
  clientTypes (num := R) NUM_CLIENTS MALICIOUS_RATIO
  = repeat malicious 4 ++ repeat benign 16.
Proof.
  destruct (R_client_types NUM_CLIENTS MALICIOUS_RATIO) as [k [Hk [Hc Ht]]].
  - unfold MALICIOUS_RATIO. real_lits. lra.
  - assert (k = 4)%nat; [|now subst k].
    unfold NUM_CLIENTS, MALICIOUS_RATIO in Hc.
    change (INR 20) with (INR (S 19)) in Hc. rewrite S_INR in Hc.
    simpl INR in Hc. real_lits.
    assert (H3 : (3 < k)%nat).
    { apply INR_lt. simpl INR. lra. }
    assert (H5 : (k < 5)%nat).
    { apply INR_lt. simpl INR. lra. }
    lia.
Qed.

End RealTyping.


(** In binary64 [20 * 0.2] is exactly 4; over the reals N·r = 4 as well. *)
Example F64_ratio_product :
  (ofNat NUM_CLIENTS * MALICIOUS_RATIO)%num = 4%float.
Proof. vm_compute. reflexivity. Qed.


(** ** The random source *)

Section TapeLemmas.

Context {num : Type} `{Num num}.

Lemma framed_ret {A} (a : A) : framed (ret (num := num) a).
Proof.
  intros t a' r Hrun. unfold ret in *. injection Hrun as <- <-.
  exists []. split; [reflexivity | intros r'; reflexivity].
Qed.

Lemma framed_bind {A B} (m : Rand num A) (k : A -> Rand num B) :
  framed m -> (forall a, framed (k a)) -> framed (bind m k).
Proof.
  intros Hm Hk t b r Hrun. unfold bind in Hrun.
  destruct (m t) as [[a t1]|] eqn:Em; [|discriminate].
  destruct (Hm _ _ _ Em) as [u1 [-> Hu1]].
  destruct (Hk a _ _ _ Hrun) as [u2 [-> Hu2]].
  exists (u1 ++ u2). split.
  - now rewrite app_assoc.
  - intros r'. unfold bind. rewrite <- app_assoc, Hu1. apply Hu2.
Qed.

Lemma framed_for_each {A B} (f : A -> Rand num B) (l : list A) :
  (forall a, framed (f a)) -> framed (for_each f l).
Proof.
  intros Hf. induction l as [|a l IH]; simpl.
  - apply framed_ret.
  - apply framed_bind; [apply Hf|]. intros b.
    apply framed_bind; [exact IH|]. intros bs. apply framed_ret.
Qed.

Lemma framed_drawNonZero : framed drawNonZero.
Proof.
  intros t. induction t as [|u t IH]; intros a r Hrun; simpl in Hrun.
  - discriminate.
  - destruct (is_zero u) eqn:Ez.
    + destruct (IH _ _ Hrun) as [used [-> Hused]].
      exists (u :: used). split; [reflexivity|].
      intros r'. simpl. rewrite Ez. apply Hused.
    + injection Hrun as <- <-. exists [u]. split; [reflexivity|].
      intros r'. simpl. now rewrite Ez.
Qed.

Lemma draws_ret {A} (a : A) : draws_at_most 0 (ret (num := num) a).
Proof. intros t _. exists a, t. split; [reflexivity | lia]. Qed.

Lemma draws_mono {A} (n n' : nat) (m : Rand num A) :
  n <= n' -> draws_at_most n m -> draws_at_most n' m.
Proof.
  intros Hle Hm t Ht. destruct (Hm t) as [a [r [Hrun Hr]]]; [lia|].
  exists a, r. split; [exact Hrun | lia].
Qed.

Lemma draws_bind {A B} (n1 n2 : nat) (m : Rand num A) (k : A -> Rand num B) :
  draws_at_most n1 m -> (forall a, draws_at_most n2 (k a)) ->
  draws_at_most (n1 + n2) (bind m k).
Proof.
  intros Hm Hk t Ht.
  destruct (Hm t) as [a [t1 [Em H1]]]; [lia|].
  destruct (Hk a t1) as [b [r [Ek H2]]]; [lia|].
  exists b, r. unfold bind. rewrite Em. split; [exact Ek | lia].
Qed.

Lemma draws_for_each {A B} (n : nat) (f : A -> Rand num B) (l : list A) :
  (forall a, draws_at_most n (f a)) ->
  draws_at_most (length l * n) (for_each f l).
Proof.
  intros Hf. induction l as [|a l IH]; simpl.
  - apply draws_ret.
  - apply draws_bind; [apply Hf|]. intros b.
    replace (length l * n) with (length l * n + 0) by lia.
    apply draws_bind; [exact IH|]. intros bs. apply draws_ret.
Qed.

Lemma draws_drawNonZero : draws_at_most 1 drawNonZero.
Proof.
  intros t. unfold nonzeros.
  induction t as [|u t IH]; simpl; intros Ht.
  - lia.
  - destruct (is_zero u); simpl in *.
    + apply IH. exact Ht.
    + exists u, t. split; [reflexivity | lia].
Qed.

(** What [for_each] returns, element by element. *)
Lemma for_each_Forall2 {A B} (f : A -> Rand num B) (l : list A) :
  forall t bs r,
    for_each f l t = Some (bs, r) ->
    Forall2 (fun a b => exists t1 t2, f a t1 = Some (b, t2)) l bs.
Proof.
  induction l as [|a l IH]; intros t bs r Hrun; simpl in Hrun.
  - unfold ret in Hrun. injection Hrun as <- <-. constructor.
  - unfold bind, ret in Hrun.
    destruct (f a t) as [[b t1]|] eqn:Ef; [|discriminate].
    destruct (for_each f l t1) as [[bs' t2]|] eqn:El; [|discriminate].
    injection Hrun as <- <-. constructor.
    + now exists t, t1.
    + eapply IH. exact El.
Qed.

End TapeLemmas.

(** ** The client generator *)

Section GeneratorLemmas.

Context {num : Type} `{Num num} `{MathLib num}.

Lemma framed_randomNormal : framed randomNormal.
Proof.
  unfold randomNormal.
  apply framed_bind; [apply framed_drawNonZero|]. intros u.
  apply framed_bind; [apply framed_drawNonZero|]. intros v.
  apply framed_ret.
Qed.

Lemma framed_generateGradient (ty : ClientType) (distribution level strength : num)
      (direction : list num) :
  framed (generateGradient ty distribution level strength direction).
Proof.
  unfold generateGradient. apply framed_for_each. intros i.
  apply framed_bind; [apply framed_randomNormal|]. intros r.
  destruct ty.
  - apply framed_ret.
  - destruct (i <? 5).
    + apply framed_ret.
    + apply framed_bind; [apply framed_randomNormal|]. intros r'.
      apply framed_ret.
Qed.

Lemma framed_generateClients (cfg : Config num) (trueGradient : list num) :
  framed (generateClients cfg trueGradient).
Proof.
  unfold generateClients. apply framed_for_each. intros i.
  apply framed_bind; [apply framed_generateGradient|]. intros g.
  apply framed_ret.
Qed.

Lemma framed_runRound (cfg : Config num) (trueGradient : list num)
      (prev : SimulationState num) :
  framed (runRound cfg trueGradient prev).
Proof.
  unfold runRound.
  apply framed_bind; [apply framed_generateClients|]. intros cs.
  apply framed_ret.
Qed.

Lemma framed_initTrueGradient : framed initTrueGradient.
Proof.
  unfold initTrueGradient. apply framed_for_each. intros _.
  apply framed_randomNormal.
Qed.

Lemma framed_render : framed render.
Proof.
  unfold render. apply framed_bind; [apply framed_initTrueGradient|].
  intros g. apply framed_ret.
Qed.

Lemma framed_step (trueGradient : list num) (st : SimulationState num)
      (ev : Event num) :
  framed (step trueGradient st ev).
Proof.
  destruct ev as [cfg| |]; cbn [step].
  - apply framed_bind; [apply framed_runRound|]. intros st'.
    apply framed_bind; [apply framed_render|]. intros u. apply framed_ret.
  - apply framed_bind; [apply framed_render|]. intros u. apply framed_ret.
  - apply framed_bind; [apply framed_render|]. intros u. apply framed_ret.
Qed.

Lemma framed_runEvents (trueGradient : list num) (evs : list (Event num)) :
  forall st, framed (runEvents trueGradient evs st).
Proof.
  induction evs as [|ev evs IH]; intros st; cbn [runEvents].
  - apply framed_ret.
  - apply framed_bind; [apply framed_step|]. intros st'.
    apply framed_bind; [apply IH|]. intros rest. apply framed_ret.
Qed.

Lemma framed_session (evs : list (Event num)) : framed (session evs).
Proof.
  unfold session. apply framed_bind; [apply framed_initTrueGradient|].
  intros g. apply framed_bind; [apply framed_runEvents|].
  intros sts. apply framed_ret.
Qed.

Lemma draws_randomNormal : draws_at_most 2 randomNormal.
Proof.
  unfold randomNormal.
  apply (draws_bind 1 1); [apply draws_drawNonZero|]. intros u.
  apply (draws_bind 1 0); [apply draws_drawNonZero|]. intros v.
  apply draws_ret.
Qed.

(** A gradient costs two draws per coordinate, and two more on the
    non-trigger coordinates of a malicious client. *)
Lemma draws_generateGradient (ty : ClientType) (distribution level strength : num)
      (direction : list num) :
  draws_at_most (VECTOR_DIM * 4)
                (generateGradient ty distribution level strength direction).
Proof.
  unfold generateGradient.
  replace VECTOR_DIM with (length (seq 0 VECTOR_DIM)) at 1 by apply length_seq.
  apply draws_for_each. intros i.
  apply (draws_bind 2 2); [apply draws_randomNormal|]. intros r.
  destruct ty.
  - apply (draws_mono 0); [lia | apply draws_ret].
  - destruct (i <? 5).
    + apply (draws_mono 0); [lia | apply draws_ret].
    + apply (draws_bind 2 0); [apply draws_randomNormal|]. intros r'.
      apply draws_ret.
Qed.

Lemma draws_generateClients (cfg : Config num) (trueGradient : list num) :
  draws_at_most (NUM_CLIENTS * (VECTOR_DIM * 4)) (generateClients cfg trueGradient).
Proof.
  unfold generateClients.
  replace NUM_CLIENTS with (length (seq 0 NUM_CLIENTS)) at 1 by apply length_seq.
  apply draws_for_each. intros i.
  replace (VECTOR_DIM * 4) with (VECTOR_DIM * 4 + 0) by lia.
  apply draws_bind; [apply draws_generateGradient|]. intros g.
  apply draws_ret.
Qed.

(** A round returns once 1600 non-zero draws are available. *)
Lemma draws_runRound (cfg : Config num) (trueGradient : list num)
      (prev : SimulationState num) :
  draws_at_most 1600 (runRound cfg trueGradient prev).
Proof.
  unfold runRound. change 1600 with (NUM_CLIENTS * (VECTOR_DIM * 4) + 0).
  apply draws_bind; [apply draws_generateClients|]. intros cs.
  apply draws_ret.
Qed.

(** Every generated gradient has [VECTOR_DIM] coordinates. *)
Lemma generateGradient_length (ty : ClientType) (distribution level strength : num)
      (direction : list num) (t : list num) (g : list num) (r : list num) :
  generateGradient ty distribution level strength direction t = Some (g, r) ->
  length g = VECTOR_DIM.
Proof.
  intros Hrun. apply for_each_Forall2 in Hrun.
  apply Forall2_length in Hrun. now rewrite length_seq in Hrun.
Qed.

Lemma initTrueGradient_length (t : list num) (g : list num) (r : list num) :
  initTrueGradient t = Some (g, r) -> length g = VECTOR_DIM.
Proof.
  intros Hrun. apply for_each_Forall2 in Hrun.
  apply Forall2_length in Hrun. now rewrite length_seq in Hrun.
Qed.

(** Clients built in index order are the clients of their gradients. *)
Lemma clients_of_gradients (n : nat) :
  forall a (cs : list (Client num)),
    Forall2 (fun i c => exists g, c = newClient i g) (seq a n) cs ->
    cs = map (fun i => newClient i (nth (i - a) (map gradient cs) [])) (seq a n).
Proof.
  induction n as [|n IH]; intros a cs Hcs; simpl in *.
  - inversion Hcs. reflexivity.
  - inversion Hcs as [|i c l l' [g Hg] Hrest]; subst.
    simpl. rewrite Nat.sub_diag. f_equal.
    rewrite (IH (S a) l') at 1 by assumption.
    apply map_ext_in. intros i Hi. apply in_seq in Hi.
    replace (i - a) with (S (i - S a)) by lia. reflexivity.
Qed.

Lemma generateClients_shape (cfg : Config num) (trueGradient : list num)
      (t : list num) (cs : list (Client num)) (r : list num) :
  generateClients cfg trueGradient t = Some (cs, r) ->
  cs = clientsWith (map gradient cs) /\ wellShaped (map gradient cs).
Proof.
  intros Hrun. apply for_each_Forall2 in Hrun.
  assert (Hshape : Forall2 (fun i c => exists g, c = newClient i g
                                                 /\ length g = VECTOR_DIM)
                           (seq 0 NUM_CLIENTS) cs).
  { eapply Forall2_impl; [|exact Hrun].
    intros i c [t1 [t2 Hc]]. unfold bind, ret in Hc.
    destruct (generateGradient _ _ _ _ _ t1) as [[g t3]|] eqn:Eg; [|discriminate].
    injection Hc as <- <-. exists g. split; [reflexivity|].
    eapply generateGradient_length. exact Eg. }
  split; [|split].
  - unfold clientsWith, array_from.
    rewrite (clients_of_gradients NUM_CLIENTS 0 cs) at 1.
    + apply map_ext. intros i. now rewrite Nat.sub_0_r.
    + eapply Forall2_impl; [|exact Hshape]. intros i c [g [-> _]]. now exists g.
  - rewrite length_map. apply Forall2_length in Hshape.
    now rewrite length_seq in Hshape.
  - apply Forall_map. clear Hrun.
    induction Hshape as [|i c l l' [g [-> Hg]] _ IH]; constructor; assumption.
Qed.

(** A round of the program is a round of the run model, on the gradients
    it drew. *)
Lemma runRound_roundWith (cfg : Config num) (trueGradient : list num)
      (prev : SimulationState num) (t : list num)
      (st : SimulationState num) (r : list num) :
  runRound cfg trueGradient prev t = Some (st, r) ->
  exists gs, wellShaped gs /\ st = roundWith trueGradient prev (cfg, gs).
Proof.
  intros Hrun. unfold runRound, bind, ret in Hrun.
  destruct (generateClients cfg trueGradient t) as [[cs t1]|] eqn:Eg; [|discriminate].
  injection Hrun as <- <-.
  destruct (generateClients_shape _ _ _ _ _ Eg) as [Hcs Hwf].
  exists (map gradient cs). split; [exact Hwf|].
  unfold roundWith. simpl. now rewrite <- Hcs.
Qed.

(** The states a session runs through are reachable states. *)
Lemma step_reachable (trueGradient : list num) (st : SimulationState num)
      (ev : Event num) (t : list num) (st' : SimulationState num) (r : list num) :
  reachable trueGradient st ->
  step trueGradient st ev t = Some (st', r) ->
  reachable trueGradient st'.
Proof.
  intros Hst Hrun. destruct ev as [cfg| |]; cbn [step] in Hrun;
    unfold bind, ret in Hrun.
  - destruct (runRound cfg trueGradient st t) as [[st1 t1]|] eqn:E1; [|discriminate].
    destruct (render t1) as [[u t2]|]; [|discriminate].
    injection Hrun as <- <-.
    destruct (runRound_roundWith _ _ _ _ _ _ E1) as [gs [_ ->]]. now constructor.
  - destruct (render t) as [[u t1]|]; [|discriminate].
    injection Hrun as <- <-. now constructor.
  - destruct (render t) as [[u t1]|]; [|discriminate].
    injection Hrun as <- <-. exact Hst.
Qed.

Lemma runEvents_reachable (trueGradient : list num) (evs : list (Event num)) :
  forall st t sts r,
    reachable trueGradient st ->
    runEvents trueGradient evs st t = Some (sts, r) ->
    length sts = length evs /\ Forall (reachable trueGradient) sts.
Proof.
  induction evs as [|ev evs IH]; intros st t sts r Hst Hrun; cbn [runEvents] in Hrun.
  - unfold ret in Hrun. injection Hrun as <- <-. split; [reflexivity | constructor].
  - unfold bind, ret in Hrun.
    destruct (step trueGradient st ev t) as [[st' t1]|] eqn:E1; [|discriminate].
    destruct (runEvents trueGradient evs st' t1) as [[rest t2]|] eqn:E2; [|discriminate].
    injection Hrun as <- <-.
    pose proof (step_reachable _ _ _ _ _ _ Hst E1) as Hst'.
    destruct (IH _ _ _ _ Hst' E2) as [Hlen Hall].
    split; [simpl; now rewrite Hlen | now constructor].
Qed.

End GeneratorLemmas.

(** *** The types of the clients of a round *)


Section FirstCoordinate.

Context {num : Type} `{Num num} `{MathLib num}.

Lemma randomNormal_draws (t t1 t2 : list num) (u v : num) :
  drawNonZero t = Some (u, t1) -> drawNonZero t1 = Some (v, t2) ->
  randomNormal t
  = Some ((nsqrt (lit (-2.0) * m_log u) * m_cos (lit 2.0 * m_PI * v))%num, t2).
Proof.
  intros Hu Hv. unfold randomNormal, bind, ret. now rewrite Hu, Hv.
Qed.

Lemma generateGradient_first (ty : ClientType) (distribution level strength : num)
      (direction t t1 t2 g r : list num) (u v : num) :
  drawNonZero t = Some (u, t1) -> drawNonZero t1 = Some (v, t2) ->
  generateGradient ty distribution level strength direction t = Some (g, r) ->
  exists g',
    g = (let rn := nsqrt (lit (-2.0) * m_log u) * m_cos (lit 2.0 * m_PI * v) in
         let val := at_ direction 0
                    + (rn * level * lit 2
                       + m_sin (distribution * m_PI * lit 2 + ofNat 0) * level) in
         match ty with
         | malicious => val - strength * lit 5
         | benign => val
         end)%num :: g'.
Proof.
  intros Hu Hv Hrun. unfold generateGradient in Hrun.
  change (seq 0 VECTOR_DIM) with (0 :: seq 1 19) in Hrun.
  cbn [for_each] in Hrun. unfold bind at 1 2 in Hrun.
  rewrite (randomNormal_draws _ _ _ _ _ Hu Hv) in Hrun.
  destruct ty; cbn [Nat.ltb Nat.leb] in Hrun; unfold ret at 1 in Hrun;
    unfold bind, ret in Hrun;
    match type of Hrun with
    | match ?m with _ => _ end = _ => destruct m as [[g' t3]|]; [|discriminate]
    end;
    injection Hrun as <- <-; now exists g'.
Qed.

Lemma runRound_first_coordinate (cfg : Config num) (trueGradient : list num)
      (prev : SimulationState num) (t t1 t2 r : list num) (u v : num)
      (st : SimulationState num) :
  drawNonZero t = Some (u, t1) -> drawNonZero t1 = Some (v, t2) ->
  runRound cfg trueGradient prev t = Some (st, r) ->
  exists c cs g,
    clients st = c :: cs
    /\ gradient c = firstCoordinate cfg trueGradient u v :: g.
Proof.
  intros Hu Hv Hrun. unfold runRound, bind, ret in Hrun.
  destruct (generateClients cfg trueGradient t) as [[cs t3]|] eqn:Eg; [|discriminate].
  injection Hrun as <- <-. rewrite advance_clients.
  unfold generateClients in Eg.
  change (seq 0 NUM_CLIENTS) with (0 :: seq 1 19) in Eg.
  cbn [for_each] in Eg. unfold bind at 1 2 in Eg.
  destruct (generateGradient _ _ _ _ _ t) as [[g0 t4]|] eqn:Eg0; [|discriminate].
  destruct (generateGradient_first _ _ _ _ _ _ _ _ _ _ _ _ Hu Hv Eg0) as [g' ->].
  unfold ret at 1 in Eg. unfold bind, ret in Eg.
  match type of Eg with
  | match ?m with _ => _ end = _ => destruct m as [[cs' t5]|]; [|discriminate]
  end.
  injection Eg as <- <-. simpl map.
  eexists _, _, g'. split; [reflexivity|].
  rewrite processClient_gradient. reflexivity.
Qed.

End FirstCoordinate.

(** *** Real numbers: two runs from the same state and configuration *)

Section RealGenerator.

Open Scope R_scope.

Lemma R_nonzeros_repeat (c : R) (n : nat) :
  c <> 0 -> nonzeros (repeat c n) = n.
Proof.
  intros Hc. unfold nonzeros. induction n as [|n IH]; simpl; [reflexivity|].
  simpl in IH. unfold Rzerob at 1.
  destruct (Req_dec_T c 0) as [E|_]; [contradiction|].
  simpl. now rewrite IH.
Qed.

Lemma R_draw_repeat (c : R) (n : nat) :
  c <> 0 -> drawNonZero (repeat c (S n)) = Some (c, repeat c n).
Proof.
  intros Hc. simpl. unfold Rzerob.
  now destruct (Req_dec_T c 0) as [E|_].
Qed.

Lemma R_clientType_0 : clientType (num := R) 0 = malicious.
Proof.
  unfold clientType. rewrite R_clientTypeFor.
  destruct (Rlt_dec _ _) as [_|Hn]; [reflexivity|].
  exfalso. apply Hn. unfold MALICIOUS_RATIO, NUM_CLIENTS. simpl INR. real_lits. lra.
Qed.

(** The sample of [randomNormal] on draws 1/4, 1/4 is 0 (cos(π/2) = 0); on
    draws 1/2, 1/2 it is −sqrt(2·ln 2) (cos π = −1). *)
Lemma R_normal_quarter :
  sqrt (lit (-2.0) * ln (/ 4)) * cos (lit 2.0 * PI * / 4) = 0.
Proof.
  replace (lit 2.0 * PI * / 4) with (PI / 2) by (real_lits; field).
  rewrite cos_PI2. ring.
Qed.

Lemma R_normal_half :
  sqrt (lit (-2.0) * ln (/ 2)) * cos (lit 2.0 * PI * / 2) < 0.
Proof.
  replace (lit 2.0 * PI * / 2) with PI by (real_lits; field).
  rewrite cos_PI.
  assert (Hln : ln (/ 2) < 0).
  { rewrite ln_Rinv by lra. pose proof ln_lt_2. lra. }
  assert (Hpos : 0 < sqrt (lit (-2.0) * ln (/ 2))).
  { apply sqrt_lt_R0. real_lits. lra. }
  lra.
Qed.

Lemma R_first_coordinates_differ :
  firstCoordinate SampleR.cfgDefault SampleR.trueDir (/ 4) (/ 4)
  <> firstCoordinate SampleR.cfgDefault SampleR.trueDir (/ 2) (/ 2).
Proof.
  unfold firstCoordinate. rewrite R_clientType_0.
  cbn [nadd nsub nmul ndiv nsqrt m_log m_cos m_sin m_PI Rnum Rmath].
  pose proof R_normal_quarter as Hq. pose proof R_normal_half as Hh.
  cbn [nadd nsub nmul ndiv Rnum] in Hq, Hh.
  rewrite Hq.
  set (h := sqrt (lit (-2.0) * ln (/ 2)) * cos (lit 2.0 * PI * / 2)) in *.
  set (b := sin _). set (a := at_ _ _).
  unfold SampleR.cfgDefault. cbn [nonIIDLevel attackStealth].
  real_lits. lra.
Qed.

End RealGenerator.

(** *** Draws: how many a session consumes, and which it sees *)

Section DrawLemmas.

Context {num : Type} `{Num num}.

Lemma drawNonZero_some (t : list num) :
  forall u r,
    drawNonZero t = Some (u, r) ->
    exists z, t = z ++ u :: r /\ forallb is_zero z = true /\ is_zero u = false.
Proof.
  induction t as [|x t IH]; intros u r Hrun; simpl in Hrun; [discriminate|].
  destruct (is_zero x) eqn:Ez.
  - destruct (IH _ _ Hrun) as [z [-> [Hz Hu]]].
    exists (x :: z). simpl. rewrite Ez. repeat split; assumption.
  - injection Hrun as <- <-. exists []. repeat split. exact Ez.
Qed.

Lemma drawNonZero_none (t : list num) :
  drawNonZero t = None <-> nonzeros t = 0.
Proof.
  unfold nonzeros. induction t as [|x t IH]; simpl; [tauto|].
  destruct (is_zero x); simpl; [exact IH|]. split; discriminate.
Qed.

Lemma drawNonZero_count (t : list num) (u : num) (r : list num) :
  drawNonZero t = Some (u, r) -> nonzeros t = nonzeros r + 1.
Proof.
  unfold nonzeros. revert u r.
  induction t as [|x t IH]; intros u r Hrun; simpl in *; [discriminate|].
  destruct (is_zero x); simpl.
  - eapply IH. exact Hrun.
  - injection Hrun as <- <-. lia.
Qed.

Lemma drawNonZero_strip (t : list num) (u : num) (r : list num) :
  drawNonZero t = Some (u, r) -> drawNonZero (strip t) = Some (u, strip r).
Proof.
  unfold strip. revert u r.
  induction t as [|x t IH]; intros u r Hrun; simpl in *; [discriminate|].
  destruct (is_zero x) eqn:Ez; simpl.
  - now apply IH.
  - injection Hrun as <- <-. simpl. now rewrite Ez.
Qed.

Lemma exactly_ret {A} (a : A) : draws_exactly 0 (ret (num := num) a).
Proof. intros t a' r Hrun. unfold ret in Hrun. injection Hrun as <- <-. lia. Qed.

Lemma exactly_bind {A B} (n1 n2 : nat) (m : Rand num A) (k : A -> Rand num B) :
  draws_exactly n1 m -> (forall a, draws_exactly n2 (k a)) ->
  draws_exactly (n1 + n2) (bind m k).
Proof.
  intros Hm Hk t b r Hrun. unfold bind in Hrun.
  destruct (m t) as [[a t1]|] eqn:Em; [|discriminate].
  apply Hm in Em. apply Hk in Hrun. lia.
Qed.

Lemma exactly_for_each {A B} (c : A -> nat) (f : A -> Rand num B) (l : list A) :
  (forall a, draws_exactly (c a) (f a)) ->
  draws_exactly (list_sum (map c l)) (for_each f l).
Proof.
  intros Hf. induction l as [|a l IH]; simpl.
  - apply exactly_ret.
  - apply exactly_bind; [apply Hf|]. intros b.
    replace (list_sum (map c l)) with (list_sum (map c l) + 0) by lia.
    apply exactly_bind; [exact IH|]. intros bs. apply exactly_ret.
Qed.

Lemma blind_ret {A} (a : A) : zero_blind (ret (num := num) a).
Proof. intros t a' r Hrun. unfold ret in *. now injection Hrun as <- <-. Qed.

Lemma blind_bind {A B} (m : Rand num A) (k : A -> Rand num B) :
  zero_blind m -> (forall a, zero_blind (k a)) -> zero_blind (bind m k).
Proof.
  intros Hm Hk t b r Hrun. unfold bind in *.
  destruct (m t) as [[a t1]|] eqn:Em; [|discriminate].
  rewrite (Hm _ _ _ Em). now apply Hk.
Qed.

Lemma blind_for_each {A B} (f : A -> Rand num B) (l : list A) :
  (forall a, zero_blind (f a)) -> zero_blind (for_each f l).
Proof.
  intros Hf. induction l as [|a l IH]; simpl.
  - apply blind_ret.
  - apply blind_bind; [apply Hf|]. intros b.
    apply blind_bind; [exact IH|]. intros bs. apply blind_ret.
Qed.

Lemma consumes_ret {A} (a : A) : consumes 0 (ret (num := num) a).
Proof. intros t _. exists a, t. split; [reflexivity | lia]. Qed.

Lemma consumes_bind {A B} (n1 n2 : nat) (m : Rand num A) (k : A -> Rand num B) :
  consumes n1 m -> (forall a, consumes n2 (k a)) -> consumes (n1 + n2) (bind m k).
Proof.
  intros Hm Hk t Ht.
  destruct (Hm t) as [a [t1 [Em H1]]]; [lia|].
  destruct (Hk a t1) as [b [r [Ek H2]]]; [lia|].
  exists b, r. unfold bind. rewrite Em. split; [exact Ek | lia].
Qed.

Lemma consumes_for_each {A B} (c : A -> nat) (f : A -> Rand num B) (l : list A) :
  (forall a, consumes (c a) (f a)) ->
  consumes (list_sum (map c l)) (for_each f l).
Proof.
  intros Hf. induction l as [|a l IH]; simpl.
  - apply consumes_ret.
  - apply consumes_bind; [apply Hf|]. intros b.
    replace (list_sum (map c l)) with (list_sum (map c l) + 0) by lia.
    apply consumes_bind; [exact IH|]. intros bs. apply consumes_ret.
Qed.

Lemma consumes_drawNonZero : consumes 1 drawNonZero.
Proof.
  intros t Ht. destruct (draws_drawNonZero t Ht) as [u [r [Hrun _]]].
  exists u, r. split; [exact Hrun|]. exact (drawNonZero_count _ _ _ Hrun).
Qed.

(** A computation that consumes exactly [n] non-zero draws, does not see
    the zero draws and reads nothing beyond what it consumes is determined
    by the first [n] non-zero draws of the tape. *)
Lemma replay_by_prefix {A} (n : nat) (m : Rand num A) :
  consumes n m -> draws_exactly n m -> zero_blind m -> framed m ->
  forall t1 t2 a r1,
    m t1 = Some (a, r1) ->
    firstn n (strip t1) = firstn n (strip t2) ->
    exists r2, m t2 = Some (a, r2).
Proof.
  intros Hc He Hb Hf t1 t2 a r1 Hrun Hpre.
  pose proof (He _ _ _ Hrun) as Hcount.
  pose proof (Hb _ _ _ Hrun) as Hstrip.
  destruct (Hf _ _ _ Hstrip) as [used [Hused Hreplay]].
  assert (Hlen : length used = n).
  { change (nonzeros t1) with (length (strip t1)) in Hcount.
    change (nonzeros r1) with (length (strip r1)) in Hcount.
    rewrite Hused, length_app in Hcount. lia. }
  assert (Hfirst : firstn n (strip t1) = used).
  { rewrite Hused, <- Hlen. rewrite firstn_app, Nat.sub_diag, firstn_all.
    simpl. apply app_nil_r. }
  assert (Hn2 : n <= nonzeros t2).
  { change (nonzeros t2) with (length (strip t2)).
    rewrite <- Hlen, <- Hfirst, Hpre, length_firstn. lia. }
  destruct (Hc t2 Hn2) as [a2 [r2 [Hrun2 _]]].
  exists r2. rewrite Hrun2. f_equal. f_equal.
  pose proof (Hb _ _ _ Hrun2) as Hstrip2.
  rewrite <- (firstn_skipn n (strip t2)), <- Hpre, Hfirst, Hreplay in Hstrip2.
  now injection Hstrip2 as <- _.
Qed.

End DrawLemmas.

Section GeneratorDraws.

Context {num : Type} `{Num num} `{MathLib num}.

Lemma exactly_randomNormal : draws_exactly 2 randomNormal.
Proof.
  unfold randomNormal.
  apply (exactly_bind 1 1); [intros t u r; apply drawNonZero_count|]. intros u.
  apply (exactly_bind 1 0); [intros t v r; apply drawNonZero_count|]. intros v.
  apply exactly_ret.
Qed.

Lemma exactly_generateGradient (ty : ClientType) (distribution level strength : num)
      (direction : list num) :
  draws_exactly (drawsOf ty)
                (generateGradient ty distribution level strength direction).
Proof.
  unfold generateGradient.
  replace (drawsOf ty)
    with (list_sum (map (fun i => 2 + match ty with
                                      | malicious => if i <? 5 then 0 else 2
                                      | benign => 0
                                      end) (seq 0 VECTOR_DIM)))
    by (destruct ty; reflexivity).
  apply exactly_for_each. intros i.
  apply exactly_bind; [apply exactly_randomNormal|]. intros r.
  destruct ty.
  - apply exactly_ret.
  - destruct (i <? 5).
    + apply exactly_ret.
    + apply (exactly_bind 2 0); [apply exactly_randomNormal|]. intros r'.
      apply exactly_ret.
Qed.

Lemma exactly_runRound (cfg : Config num) (trueGradient : list num)
      (prev : SimulationState num) :
  draws_exactly (list_sum (map drawsOf (clientTypes NUM_CLIENTS MALICIOUS_RATIO)))
                (runRound cfg trueGradient prev).
Proof.
  unfold runRound.
  replace (list_sum (map drawsOf (clientTypes NUM_CLIENTS MALICIOUS_RATIO)))
    with (list_sum (map (fun i => drawsOf (clientType i) + 0) (seq 0 NUM_CLIENTS)) + 0).
  - apply exactly_bind; [|intros cs; apply exactly_ret].
    unfold generateClients. apply exactly_for_each. intros i.
    apply exactly_bind; [apply exactly_generateGradient|]. intros g.
    apply exactly_ret.
  - rewrite Nat.add_0_r. unfold clientTypes, array_from. rewrite map_map.
    f_equal. apply map_ext. intros i. unfold clientType. lia.
Qed.

Lemma exactly_initTrueGradient : draws_exactly 40 initTrueGradient.
Proof.
  unfold initTrueGradient.
  change 40 with (list_sum (map (fun _ : nat => 2) (seq 0 VECTOR_DIM))).
  apply exactly_for_each. intros _. apply exactly_randomNormal.
Qed.

Lemma blind_randomNormal : zero_blind randomNormal.
Proof.
  unfold randomNormal.
  apply blind_bind; [intros t u r; apply drawNonZero_strip|]. intros u.
  apply blind_bind; [intros t v r; apply drawNonZero_strip|]. intros v.
  apply blind_ret.
Qed.

Lemma blind_runRound (cfg : Config num) (trueGradient : list num)
      (prev : SimulationState num) :
  zero_blind (runRound cfg trueGradient prev).
Proof.
  unfold runRound. apply blind_bind; [|intros cs; apply blind_ret].
  unfold generateClients. apply blind_for_each. intros i.
  apply blind_bind; [|intros g; apply blind_ret].
  unfold generateGradient. apply blind_for_each. intros j.
  apply blind_bind; [apply blind_randomNormal|]. intros r.
  destruct (clientType i).
  - apply blind_ret.
  - destruct (j <? 5).
    + apply blind_ret.
    + apply blind_bind; [apply blind_randomNormal|]. intros r'. apply blind_ret.
Qed.

Lemma blind_initTrueGradient : zero_blind initTrueGradient.
Proof.
  unfold initTrueGradient. apply blind_for_each. intros _. apply blind_randomNormal.
Qed.

Lemma blind_render : zero_blind render.
Proof.
  unfold render. apply blind_bind; [apply blind_initTrueGradient|].
  intros g. apply blind_ret.
Qed.

Lemma blind_step (trueGradient : list num) (st : SimulationState num)
      (ev : Event num) :
  zero_blind (step trueGradient st ev).
Proof.
  destruct ev as [cfg| |]; cbn [step].
  - apply blind_bind; [apply blind_runRound|]. intros st'.
    apply blind_bind; [apply blind_render|]. intros u. apply blind_ret.
  - apply blind_bind; [apply blind_render|]. intros u. apply blind_ret.
  - apply blind_bind; [apply blind_render|]. intros u. apply blind_ret.
Qed.

Lemma blind_runEvents (trueGradient : list num) (evs : list (Event num)) :
  forall st, zero_blind (runEvents trueGradient evs st).
Proof.
  induction evs as [|ev evs IH]; intros st; cbn [runEvents].
  - apply blind_ret.
  - apply blind_bind; [apply blind_step|]. intros st'.
    apply blind_bind; [apply IH|]. intros rest. apply blind_ret.
Qed.

Lemma blind_session (evs : list (Event num)) : zero_blind (session evs).
Proof.
  unfold session. apply blind_bind; [apply blind_initTrueGradient|].
  intros g. apply blind_bind; [apply blind_runEvents|].
  intros sts. apply blind_ret.
Qed.

(** A render costs 40 non-zero draws, a round and the render it causes
    [roundDraws + 40]. *)
Lemma exactly_render : draws_exactly 40 render.
Proof.
  unfold render. change 40 with (40 + 0).
  apply exactly_bind; [apply exactly_initTrueGradient|].
  intros g. apply exactly_ret.
Qed.

Lemma exactly_step (trueGradient : list num) (st : SimulationState num)
      (ev : Event num) :
  draws_exactly (eventDraws ev) (step trueGradient st ev).
Proof.
  destruct ev as [cfg| |]; cbn [step eventDraws].
  - apply exactly_bind; [apply exactly_runRound|]. intros st'.
    change 40 with (40 + 0).
    apply exactly_bind; [apply exactly_render|]. intros u. apply exactly_ret.
  - change 40 with (40 + 0).
    apply exactly_bind; [apply exactly_render|]. intros u. apply exactly_ret.
  - change 40 with (40 + 0).
    apply exactly_bind; [apply exactly_render|]. intros u. apply exactly_ret.
Qed.

Lemma exactly_runEvents (trueGradient : list num) (evs : list (Event num)) :
  forall st,
    draws_exactly (list_sum (map eventDraws evs)) (runEvents trueGradient evs st).
Proof.
  induction evs as [|ev evs IH]; intros st; cbn [runEvents map list_sum].
  - apply exactly_ret.
  - apply exactly_bind; [apply exactly_step|]. intros st'.
    replace (list_sum (map eventDraws evs))
      with (list_sum (map eventDraws evs) + 0) by lia.
    apply exactly_bind; [apply IH|]. intros rest. apply exactly_ret.
Qed.

Lemma exactly_session (evs : list (Event num)) :
  draws_exactly (sessionDraws evs) (session evs).
Proof.
  unfold session, sessionDraws.
  apply exactly_bind; [apply exactly_initTrueGradient|]. intros g.
  replace (list_sum (map eventDraws evs))
    with (list_sum (map eventDraws evs) + 0) by lia.
  apply exactly_bind; [apply exactly_runEvents|]. intros sts. apply exactly_ret.
Qed.

(** Each of them returns once that many non-zero draws are available. *)
Lemma consumes_randomNormal : consumes 2 randomNormal.
Proof.
  unfold randomNormal.
  apply (consumes_bind 1 1); [apply consumes_drawNonZero|]. intros u.
  apply (consumes_bind 1 0); [apply consumes_drawNonZero|]. intros v.
  apply consumes_ret.
Qed.

Lemma consumes_generateGradient (ty : ClientType) (distribution level strength : num)
      (direction : list num) :
  consumes (drawsOf ty) (generateGradient ty distribution level strength direction).
Proof.
  unfold generateGradient.
  replace (drawsOf ty)
    with (list_sum (map (fun i => 2 + match ty with
                                      | malicious => if i <? 5 then 0 else 2
                                      | benign => 0
                                      end) (seq 0 VECTOR_DIM)))
    by (destruct ty; reflexivity).
  apply consumes_for_each. intros i.
  apply consumes_bind; [apply consumes_randomNormal|]. intros r.
  destruct ty.
  - apply consumes_ret.
  - destruct (i <? 5).
    + apply consumes_ret.
    + apply (consumes_bind 2 0); [apply consumes_randomNormal|]. intros r'.
      apply consumes_ret.
Qed.

Lemma consumes_runRound (cfg : Config num) (trueGradient : list num)
      (prev : SimulationState num) :
  consumes (roundDraws num) (runRound cfg trueGradient prev).
Proof.
  unfold runRound, roundDraws.
  replace (list_sum (map drawsOf (clientTypes NUM_CLIENTS MALICIOUS_RATIO)))
    with (list_sum (map (fun i => drawsOf (clientType i) + 0) (seq 0 NUM_CLIENTS)) + 0).
  - apply consumes_bind; [|intros cs; apply consumes_ret].
    unfold generateClients. apply consumes_for_each. intros i.
    apply consumes_bind; [apply consumes_generateGradient|]. intros g.
    apply consumes_ret.
  - rewrite Nat.add_0_r. unfold clientTypes, array_from. rewrite map_map.
    f_equal. apply map_ext. intros i. unfold clientType. lia.
Qed.

Lemma consumes_initTrueGradient : consumes 40 initTrueGradient.
Proof.
  unfold initTrueGradient.
  change 40 with (list_sum (map (fun _ : nat => 2) (seq 0 VECTOR_DIM))).
  apply consumes_for_each. intros _. apply consumes_randomNormal.
Qed.

Lemma consumes_render : consumes 40 render.
Proof.
  unfold render. change 40 with (40 + 0).
  apply consumes_bind; [apply consumes_initTrueGradient|].
  intros g. apply consumes_ret.
Qed.

Lemma consumes_step (trueGradient : list num) (st : SimulationState num)
      (ev : Event num) :
  consumes (eventDraws ev) (step trueGradient st ev).
Proof.
  destruct ev as [cfg| |]; cbn [step eventDraws].
  - apply consumes_bind; [apply consumes_runRound|]. intros st'.
    change 40 with (40 + 0).
    apply consumes_bind; [apply consumes_render|]. intros u. apply consumes_ret.
  - change 40 with (40 + 0).
    apply consumes_bind; [apply consumes_render|]. intros u. apply consumes_ret.
  - change 40 with (40 + 0).
    apply consumes_bind; [apply consumes_render|]. intros u. apply consumes_ret.
Qed.

Lemma consumes_runEvents (trueGradient : list num) (evs : list (Event num)) :
  forall st,
    consumes (list_sum (map eventDraws evs)) (runEvents trueGradient evs st).
Proof.
  induction evs as [|ev evs IH]; intros st; cbn [runEvents map list_sum].
  - apply consumes_ret.
  - apply consumes_bind; [apply consumes_step|]. intros st'.
    replace (list_sum (map eventDraws evs))
      with (list_sum (map eventDraws evs) + 0) by lia.
    apply consumes_bind; [apply IH|]. intros rest. apply consumes_ret.
Qed.

Lemma consumes_session (evs : list (Event num)) :
  consumes (sessionDraws evs) (session evs).
Proof.
  unfold session, sessionDraws.
  apply consumes_bind; [apply consumes_initTrueGradient|]. intros g.
  replace (list_sum (map eventDraws evs))
    with (list_sum (map eventDraws evs) + 0) by lia.
  apply consumes_bind; [apply consumes_runEvents|]. intros sts. apply consumes_ret.
Qed.

(** What a session yields: a true direction of [VECTOR_DIM] coordinates,
    and one reachable state per event. *)
Lemma session_reachable (evs : list (Event num)) (t : list num)
      (out : list num * list (SimulationState num)) (r : list num) :
  session evs t = Some (out, r) ->
  length (fst out) = VECTOR_DIM
  /\ length (snd out) = length evs
  /\ Forall (reachable (fst out)) (snd out).
Proof.
  intros Hrun. unfold session, bind, ret in Hrun.
  destruct (initTrueGradient t) as [[g t1]|] eqn:Eg; [|discriminate].
  destruct (runEvents g evs initialState t1) as [[sts t2]|] eqn:Es; [|discriminate].
  injection Hrun as <- <-. cbn [fst snd].
  split; [eapply initTrueGradient_length; exact Eg|].
  eapply runEvents_reachable; [constructor | exact Es].
Qed.

End GeneratorDraws.

(** C9, as stated, fails: the program has no seed, and its configuration,
    true direction and previous state do not determine the next state.
    Two runs of one round, on which [Math.random] returns 1/4 throughout,
    respectively 1/2, end in different states. *)
Lemma C9_unseeded_runs_differ :
  ~ (forall (cfg : Config R) (trueGradient : list R) (prev : SimulationState R)
            (t1 t2 : list R) (s1 s2 : SimulationState R) (r1 r2 : list R),
        runRound cfg trueGradient prev t1 = Some (s1, r1) ->
        runRound cfg trueGradient prev t2 = Some (s2, r2) ->
        s1 = s2).
Proof.
  intros Hclaim.
  assert (Hq : (/ 4 <> 0)%R) by lra.
  assert (Hh : (/ 2 <> 0)%R) by lra.
  destruct (draws_runRound SampleR.cfgDefault SampleR.trueDir initialState
                           SampleR.tapeQuarter) as [s1 [r1 [E1 _]]].
  { unfold SampleR.tapeQuarter. rewrite R_nonzeros_repeat by exact Hq. lia. }
  destruct (draws_runRound SampleR.cfgDefault SampleR.trueDir initialState
                           SampleR.tapeHalf) as [s2 [r2 [E2 _]]].
  { unfold SampleR.tapeHalf. rewrite R_nonzeros_repeat by exact Hh. lia. }
  specialize (Hclaim _ _ _ _ _ _ _ _ _ E1 E2).
  destruct (runRound_first_coordinate _ _ _ _ _ _ _ _ _ _
              (R_draw_repeat _ 1599 Hq) (R_draw_repeat _ 1598 Hq) E1)
    as [c1 [cs1 [g1 [Hc1 Hg1]]]].
  destruct (runRound_first_coordinate _ _ _ _ _ _ _ _ _ _
              (R_draw_repeat _ 1599 Hh) (R_draw_repeat _ 1598 Hh) E2)
    as [c2 [cs2 [g2 [Hc2 Hg2]]]].
  rewrite Hclaim, Hc2 in Hc1. injection Hc1 as Hc _. rewrite Hc, Hg1 in Hg2.
  injection Hg2 as Hfirst _.
  now apply R_first_coordinates_differ.
Qed.

(** The rounds of the program draw 920 non-zero values each: 960 with the
    render that follows. *)
Lemma F64_roundDraws : roundDraws float = 920.
Proof. unfold roundDraws. now rewrite F64_client_types. Qed.

Lemma R_roundDraws : roundDraws R = 920.
Proof. unfold roundDraws. now rewrite R_client_types_program. Qed.

(** C9, amended.  The program draws from the ambient [Math.random] and
    exposes no seed.  What determines a session (the component mounts, then
    rounds, resets and re-renders follow) is the sequence of non-zero values
    [Math.random] returns: the session consumes exactly 40 of them at mount,
    960 for each round (920 by the round, 40 by the render it causes) and 40
    for each other render, and returns as soon as that many are available;
    two sessions of the same events in which [Math.random] returns the same
    non-zero values up to that count, whatever zeros are interleaved and
    whatever follows, yield the same true direction and the same sequence of
    states, which are reachable states. *)
Theorem C9_replay_determinism :
  (forall (num : Type) (N : Num num) (M : MathLib num) (evs : list (Event num)),
      (forall t,
          sessionDraws evs <= nonzeros t ->
          exists out rest,
            session evs t = Some (out, rest)
            /\ nonzeros t = nonzeros rest + sessionDraws evs)
      /\ (forall t1 t2 out rest,
             session evs t1 = Some (out, rest) ->
             firstn (sessionDraws evs) (strip t1)
             = firstn (sessionDraws evs) (strip t2) ->
             exists rest', session evs t2 = Some (out, rest'))
      /\ (forall t out rest,
             session evs t = Some (out, rest) ->
             nonzeros t = nonzeros rest + sessionDraws evs
             /\ length (fst out) = VECTOR_DIM
             /\ length (snd out) = length evs
             /\ Forall (reachable (fst out)) (snd out)))
  /\ (forall cfg : Config float, eventDraws (tick cfg) = 960)
  /\ (forall cfg : Config R, eventDraws (tick cfg) = 960).
Proof.
  split; [|split].
  - intros num N M evs. split; [|split].
    + intros t Ht. destruct (consumes_session evs t Ht) as [out [rest Hrun]].
      now exists out, rest.
    + intros t1 t2 out rest Hrun Hpre.
      eapply (replay_by_prefix (sessionDraws evs) (session evs));
        [apply consumes_session | apply exactly_session | apply blind_session
        | apply framed_session | exact Hrun | exact Hpre].
    + intros t out rest Hrun. split.
      * eapply exactly_session. exact Hrun.
      * eapply session_reachable. exact Hrun.
  - intros cfg. cbn [eventDraws]. now rewrite F64_roundDraws.
  - intros cfg. cbn [eventDraws]. now rewrite R_roundDraws.
Qed.

(** * Further properties of the engine and of what the component shows *)

(** ** State, history and the accuracy arrow *)

Section CoherenceLemmas.

Context {num : Type} `{Num num}.

Variable trueGradient : list num.

Lemma fold_round (inputs : list (RoundInput num)) :
  forall st,
    round (fold_left (roundWith trueGradient) inputs st) = round st + length inputs.
Proof.
  induction inputs as [|inp inputs IH]; intros st; simpl.
  - now rewrite Nat.add_0_r.
  - rewrite IH. unfold roundWith. rewrite advance_round. lia.
Qed.

(** A round keeps the 49 newest entries and appends its own. *)
Lemma advance_history_snoc (cfg : Config num) (newClients : list (Client num))
      (prev : SimulationState num) :
  history (advance cfg trueGradient newClients prev)
  = slice_last 49 (history prev)
    ++ [entryOf (advance cfg trueGradient newClients prev)].
Proof.
  rewrite advance_history. unfold slice_last.
  rewrite length_app, skipn_app. simpl length.
  replace (length (history prev) + 1 - 50) with (length (history prev) - 49) by lia.
  replace (length (history prev) - 49 - length (history prev)) with 0 by lia.
  reflexivity.
Qed.

Lemma nth_last_app {A} (l : list A) (x d : A) :
  nth (length l) (l ++ [x]) d = x.
Proof. rewrite app_nth2 by lia. now rewrite Nat.sub_diag. Qed.

Lemma slice_last_snoc {A} (n : nat) (l : list A) (x : A) :
  slice_last (S n) (l ++ [x]) = slice_last n l ++ [x].
Proof.
  unfold slice_last. rewrite length_app, skipn_app. simpl length.
  replace (length l + 1 - S n) with (length l - n) by lia.
  replace (length l - n - length l) with 0 by lia. reflexivity.
Qed.

(** The entry before the newest one is the newest entry of the state before. *)
Lemma history_before_last (cfg : Config num) (newClients : list (Client num))
      (prev : SimulationState num) (older : list (HistoryEntry num))
      (e d : HistoryEntry num) :
  history prev = older ++ [e] ->
  let h := history (advance cfg trueGradient newClients prev) in
  1 < length h /\ nth (length h - 2) h d = e.
Proof.
  intros Hprev h. subst h. rewrite advance_history_snoc, Hprev.
  change 49 with (S 48). rewrite slice_last_snoc.
  rewrite !length_app. simpl length. split; [lia|].
  replace (length (slice_last 48 older) + 1 + 1 - 2)
    with (length (slice_last 48 older)) by lia.
  rewrite <- app_assoc. simpl app.
  rewrite app_nth2 by lia. now rewrite Nat.sub_diag.
Qed.

End CoherenceLemmas.

(** X1. The round counter counts the transitions: after n rounds from the
    initial state it is n.  Every transition keeps the 49 newest history
    entries and appends one that carries the new state's own round,
    accuracy and ASR, so the newest entry always mirrors the state. *)
Theorem round_and_history_coherent :
  forall (num : Type) (N : Num num) (trueGradient : list num),
    (forall inputs : list (RoundInput num),
        round (run trueGradient inputs) = length inputs)
    /\ (forall cfg newClients prev,
           let next := advance cfg trueGradient newClients prev in
           history next
           = slice_last 49 (history prev)
             ++ [ {| h_round := round next;
                     acc := globalAccuracy next;
                     asr := backdoorSuccessRate next |} ]).
Proof.
  intros num N trueGradient. split.
  - intros inputs. unfold run. now rewrite fold_round.
  - intros cfg newClients prev next. apply advance_history_snoc.
Qed.

(** X2. The arrow beside the accuracy is blank in the initial state and
    after the first round; from the second round on it compares the
    accuracy with the accuracy after the previous round (also once the
    history is full): '↑' when the difference is > 0, '↓' otherwise. *)
Theorem accuracy_trend_compares_rounds :
  forall (num : Type) (N : Num num) (trueGradient : list num)
         (inputs : list (RoundInput num)) (inp : RoundInput num),
    let before := run trueGradient inputs in
    let now := run trueGradient (inputs ++ [inp]) in
    accuracyTrend (initialState (num := num)) = trendNone
    /\ accuracyTrend now
       = match inputs with
         | [] => trendNone
         | _ :: _ =>
             if (globalAccuracy now - globalAccuracy before >? #0)%num
             then trendUp else trendDown
         end.
Proof.
  intros num N trueGradient inputs inp before now. split; [reflexivity|].
  subst now. rewrite run_snoc. fold before.
  destruct inputs as [|inp0 inputs].
  - subst before. unfold accuracyTrend, roundWith.
    rewrite advance_history_snoc. reflexivity.
  - assert (Hprev : exists older, history before = older ++ [entryOf before]).
    { subst before.
      destruct (exists_last (l := inp0 :: inputs)) as [front [lst E]];
        [discriminate|].
      rewrite E, run_snoc. unfold roundWith. eexists.
      apply advance_history_snoc. }
    destruct Hprev as [older Hprev].
    unfold accuracyTrend, roundWith.
    destruct (history_before_last trueGradient (fst inp) (clientsWith (snd inp))
                before older (entryOf before)
                {| h_round := 0; acc := undef; asr := undef |} Hprev)
      as [Hlen Hnth].
    rewrite Hnth.
    apply Nat.ltb_lt in Hlen. rewrite Hlen. reflexivity.
Qed.

(** ** The clients of a round *)

Lemma filter_map_length {A B} (p : B -> bool) (f : A -> B) (l : list A) :
  length (filter (fun x => p (f x)) l) = length (filter p (map f l)).
Proof.
  induction l as [|x l IH]; simpl; [reflexivity|].
  destruct (p (f x)); simpl; now rewrite IH.
Qed.

Section ClientLemmas.

Context {num : Type} `{Num num}.

Lemma detected_plus_accepted (cs : list (Client num)) :
  length (filter (fun c => is_malicious (type c) && negb (isAccepted c)) cs)
  + spec_maliciousAccepted cs
  = length (filter (fun c => is_malicious (type c)) cs).
Proof.
  unfold spec_maliciousAccepted.
  induction cs as [|c cs IH]; simpl; [reflexivity|].
  destruct (is_malicious (type c)), (isAccepted c); simpl; lia.
Qed.

Lemma roundWith_clients_length (trueGradient : list num)
      (st : SimulationState num) (inp : RoundInput num) :
  length (clients (roundWith trueGradient st inp)) = NUM_CLIENTS.
Proof.
  unfold roundWith. rewrite advance_clients, length_map.
  unfold clientsWith. apply array_from_length.
Qed.

Lemma accepted_le_clients (cs : list (Client num)) :
  spec_acceptedCount cs <= length cs.
Proof. unfold spec_acceptedCount. apply filter_length_le. Qed.

Lemma processClient_id (cfg : Config num) (importance trueGradient : list num)
      (client : Client num) :
  id (processClient cfg importance trueGradient client) = id client.
Proof.
  unfold processClient. destruct (mechanismA cfg importance (gradient client)).
  reflexivity.
Qed.

Lemma processClient_distribution (cfg : Config num)
      (importance trueGradient : list num) (client : Client num) :
  dataDistribution (processClient cfg importance trueGradient client)
  = dataDistribution client.
Proof.
  unfold processClient. destruct (mechanismA cfg importance (gradient client)).
  reflexivity.
Qed.

End ClientLemmas.

(** X3. The "Detected Malicious" card of a state produced by a round always
    reads d / 4 (binary64 and reals): the round has exactly four malicious
    clients, and d, the number of them rejected, is 4 minus the
    maliciousAccepted that entered the attack impact.  In the initial state
    the card reads 0 / 0. *)
Theorem detected_malicious_card :
  (forall (trueGradient : list float) (st : SimulationState float)
          (inp : RoundInput float),
      let next := roundWith trueGradient st inp in
      totalMalicious next = 4
      /\ detectedMalicious next + spec_maliciousAccepted (clients next) = 4)
  /\ (forall (trueGradient : list R) (st : SimulationState R) (inp : RoundInput R),
         let next := roundWith trueGradient st inp in
         totalMalicious next = 4
         /\ detectedMalicious next + spec_maliciousAccepted (clients next) = 4)
  /\ detectedMalicious (initialState (num := float)) = 0
  /\ totalMalicious (initialState (num := float)) = 0.
Proof.
  assert (Hcount : forall num (N : Num num) (trueGradient : list num) st inp,
             clientTypes (num := num) NUM_CLIENTS MALICIOUS_RATIO
             = repeat malicious 4 ++ repeat benign 16 ->
             let next := roundWith trueGradient st inp in
             totalMalicious next = 4
             /\ detectedMalicious next + spec_maliciousAccepted (clients next) = 4).
  { intros num N trueGradient st inp Htypes next.
    assert (Htotal : totalMalicious next = 4).
    { unfold totalMalicious. rewrite filter_map_length.
      subst next. rewrite roundWith_types, Htypes. reflexivity. }
    split; [exact Htotal|].
    unfold detectedMalicious. rewrite detected_plus_accepted. exact Htotal. }
  split; [|split; [|split]].
  - intros trueGradient st inp. apply Hcount. exact F64_client_types.
  - intros trueGradient st inp. apply Hcount. exact R_client_types_program.
  - reflexivity.
  - reflexivity.
Qed.

(** X4. Whatever [Math.random] returns, a round that completes leaves 20
    clients in the state, in index order: client i has id i, the type and
    data distribution its position assigns, and a gradient of 20
    coordinates. *)
Theorem round_clients_shape :
  forall (num : Type) (N : Num num) (M : MathLib num)
         (cfg : Config num) (trueGradient : list num) (prev : SimulationState num)
         (t : list num) (st : SimulationState num) (r : list num),
    runRound cfg trueGradient prev t = Some (st, r) ->
    length (clients st) = NUM_CLIENTS
    /\ map id (clients st) = seq 0 NUM_CLIENTS
    /\ map type (clients st) = map clientType (seq 0 NUM_CLIENTS)
    /\ map dataDistribution (clients st) = map clientDistribution (seq 0 NUM_CLIENTS)
    /\ Forall (fun c => length (gradient c) = VECTOR_DIM) (clients st).
Proof.
  intros num N M cfg trueGradient prev t st r Hrun.
  destruct (runRound_roundWith _ _ _ _ _ _ Hrun) as [gs [[Hlen Hgs] ->]].
  unfold roundWith. simpl fst. simpl snd. rewrite advance_clients.
  unfold clientsWith, array_from. rewrite !map_map.
  split; [|split; [|split; [|split]]].
  - now rewrite length_map, length_seq.
  - rewrite <- (map_id (seq 0 NUM_CLIENTS)) at 2.
    apply map_ext. intros i. now rewrite processClient_id.
  - apply map_ext. intros i. now rewrite processClient_type.
  - apply map_ext. intros i. now rewrite processClient_distribution.
  - apply Forall_forall. intros c Hc. apply in_map_iff in Hc.
    destruct Hc as [i [<- Hi]]. rewrite processClient_gradient. simpl.
    apply in_seq in Hi. rewrite Forall_forall in Hgs. apply Hgs.
    apply nth_In. rewrite Hlen. lia.
Qed.

(** X4 on a run over the reals, [Math.random] returning 1/2 throughout. *)
Lemma round_clients_shape_witness :
  exists st r,
    runRound SampleR.cfgDefault SampleR.trueDir initialState SampleR.tapeHalf
    = Some (st, r)
    /\ length (clients st) = NUM_CLIENTS
    /\ map id (clients st) = seq 0 NUM_CLIENTS.
Proof.
  destruct (draws_runRound SampleR.cfgDefault SampleR.trueDir initialState
                           SampleR.tapeHalf) as [st [r [Hrun _]]].
  - unfold SampleR.tapeHalf. rewrite R_nonzeros_repeat by lra. lia.
  - exists st, r. split; [exact Hrun|].
    destruct (round_clients_shape R Rnum Rmath _ _ _ _ _ _ Hrun) as [Hlen [Hid _]].
    split; assumption.
Defined.

(** ** The attack impact, by the counts *)

Lemma F64_impact_table :
  forallb F64_impact_ok feasibleCounts = true.
Proof. vm_compute. reflexivity. Qed.

Lemma F64_impact_feasible (a m : nat) :
  a <= NUM_CLIENTS -> m <= a ->
  ngtb (attackImpactOf (num := float) a m) (lit 0.1) = (a <? 10 * m)
  /\ PrimFloat.leb 0 (attackImpactOf (num := float) a m) = true
  /\ PrimFloat.leb (attackImpactOf (num := float) a m) 1 = true.
Proof.
  intros Ha Hm.
  pose proof F64_impact_table as Htable. rewrite forallb_forall in Htable.
  specialize (Htable (a, m)).
  assert (Hin : In (a, m) feasibleCounts).
  { unfold feasibleCounts. apply in_flat_map. exists a. split.
    - apply in_seq. lia.
    - apply in_map. apply in_seq. lia. }
  specialize (Htable Hin). unfold F64_impact_ok in Htable.
  apply andb_true_iff in Htable. destruct Htable as [Htable Hle1].
  apply andb_true_iff in Htable. destruct Htable as [Heq Hle0].
  apply eqb_prop in Heq. repeat split; assumption.
Qed.

Section RealImpact.

Open Scope R_scope.

Lemma R_impact_by_counts (a m : nat) :
  (m <= a)%nat ->
  ngtb (attackImpactOf (num := R) a m) (lit 0.1) = (a <? 10 * m)%nat.
Proof.
  intros Hle. unfold attackImpactOf. rewrite or_one_max, !R_ofNat.
  cbn [ngtb ndiv Rnum]. unfold Rgtb.
  assert (Hpos : 0 < INR (Nat.max a 1)) by (apply lt_0_INR; lia).
  assert (Hinv : 0 < / INR (Nat.max a 1)) by now apply Rinv_0_lt_compat.
  assert (Hdiv : INR m / INR (Nat.max a 1) * INR (Nat.max a 1) = INR m)
    by (field; lra).
  destruct (Rlt_dec (lit 0.1) (INR m / INR (Nat.max a 1))) as [Hgt|Hngt];
    symmetry.
  - apply Nat.ltb_lt. apply INR_lt. rewrite mult_INR. simpl (INR 10).
    real_lits.
    assert (INR (Nat.max a 1) * (1 * / 10) < INR m) by nra.
    assert (INR a <= INR (Nat.max a 1)) by (apply le_INR; lia).
    lra.
  - apply Nat.ltb_ge. apply INR_le. rewrite mult_INR. simpl (INR 10).
    real_lits.
    assert (INR m <= INR (Nat.max a 1) * (1 * / 10)) by nra.
    destruct a as [|a].
    + replace m with 0%nat by lia. simpl. lra.
    + replace (Nat.max (S a) 1) with (S a) in * by lia. lra.
Qed.

End RealImpact.

(** X5. In every round the smoothing target of the ASR is decided by the
    integer counts: it is 0.9 exactly when 10·maliciousAccepted >
    acceptedCount, and 0 otherwise, so two accepted malicious clients among
    twenty accepted do not raise it, and neither does the round in which
    every client is rejected.  The binary64 quotient and comparison agree
    with the integers on every count a round of 20 clients can produce, and
    the attack impact lies between 0 and 1. *)
Theorem asr_target_by_counts :
  (forall (trueGradient : list float) (st : SimulationState float)
          (inp : RoundInput float),
      let next := roundWith trueGradient st inp in
      let a := spec_acceptedCount (clients next) in
      let m := spec_maliciousAccepted (clients next) in
      m <= a /\ a <= 20
      /\ PrimFloat.leb 0 (spec_attackImpact a m) = true
      /\ PrimFloat.leb (spec_attackImpact a m) 1 = true
      /\ backdoorSuccessRate next
         = (backdoorSuccessRate st * 0.8
            + (if (a <? 10 * m)%nat then 0.9 else 0) * 0.2)%float)
  /\ (forall (trueGradient : list R) (st : SimulationState R) (inp : RoundInput R),
         let next := roundWith trueGradient st inp in
         let a := spec_acceptedCount (clients next) in
         let m := spec_maliciousAccepted (clients next) in
         m <= a /\ a <= 20
         /\ (0 <= spec_attackImpact a m <= 1)%R
         /\ backdoorSuccessRate next
            = (backdoorSuccessRate st * 0.8
               + (if (a <? 10 * m)%nat then 0.9 else 0) * 0.2)%R).
Proof.
  split; intros trueGradient st inp next a m;
    assert (Hma : m <= a) by apply maliciousAccepted_le;
    assert (Ha : a <= 20)
      by (pose proof (roundWith_clients_length trueGradient st inp) as Hl;
          pose proof (accepted_le_clients (clients next)) as Hc;
          fold next in Hl; fold a in Hc; unfold NUM_CLIENTS in Hl; lia);
    (split; [exact Hma|]); (split; [exact Ha|]);
    destruct (advance_metrics (fst inp) trueGradient (clientsWith (snd inp)) st)
      as [_ Hasr];
    fold (roundWith trueGradient st inp) in Hasr; fold next a m in Hasr;
    unfold spec_attackImpact; rewrite <- or_one_max;
    fold (attackImpactOf (num := float) a m);
    fold (attackImpactOf (num := R) a m).
  - destruct (F64_impact_feasible a m Ha Hma) as [Hgt [H0 H1]].
    split; [exact H0|]. split; [exact H1|].
    rewrite Hasr. unfold newASROf. rewrite Hgt.
    destruct (a <? 10 * m); reflexivity.
  - split; [now apply R_attackImpact_bounds|].
    rewrite Hasr. unfold newASROf. rewrite (R_impact_by_counts a m Hma).
    destruct (a <? 10 * m); cbn [nadd nmul Rnum]; real_lits; lra.
Qed.

(** ** Stricter defences *)

(** X6. With the importance vector, the gradient, the momentum toggle and
    the non-IID level held fixed, enabling a further detection mechanism on
    top of one already enabled never turns a rejected client into an
    accepted one: a client accepted under the larger set of mechanisms is
    accepted under the smaller.  (From no mechanism to some this can fail:
    the magnitude check is then dropped.) *)
Theorem more_mechanisms_reject_more :
  forall (num : Type) (N : Num num) (cfg1 cfg2 : Config num)
         (importance trueGradient : list num) (client : Client num),
    useMomentumFIM cfg2 = useMomentumFIM cfg1 ->
    nonIIDLevel cfg2 = nonIIDLevel cfg1 ->
    useStiffnessMask cfg1 || useLayerWeightedClustering cfg1 = true ->
    (useStiffnessMask cfg1 = true -> useStiffnessMask cfg2 = true) ->
    (useLayerWeightedClustering cfg1 = true -> useLayerWeightedClustering cfg2 = true) ->
    isAccepted (processClient cfg2 importance trueGradient client) = true ->
    isAccepted (processClient cfg1 importance trueGradient client) = true.
Proof.
  intros num N [m1 a1 b1 l1 s1] [m2 a2 b2 l2 s2] importance trueGradient client.
  simpl. intros -> -> Hany HA HB.
  rewrite !processClient_accepted.
  rewrite !mechanismB_spec. unfold fallbackCheck, mechanismA, stiffnessThreshold.
  cbn [useStiffnessMask useLayerWeightedClustering useMomentumFIM nonIIDLevel fst].
  rewrite !bool_if_id.
  set (scoreOver := (_ >? (if m1 then _ else _) * _)%num).
  set (distOver := (_ >? #500 * _)%num).
  destruct a1, b1; simpl in Hany; try discriminate;
    try rewrite (HA eq_refl); try rewrite (HB eq_refl);
    destruct a2, b2, scoreOver, distOver; simpl; congruence.
Qed.

(** X6 on the calm sample client: accepted under both mechanisms, hence
    under the stiffness mask alone. *)
Lemma more_mechanisms_reject_more_witness :
  isAccepted (processClient Sample.cfgDefault Sample.fimRound1 Sample.trueDir
                            Sample2.calmClient) = true
  /\ isAccepted (processClient Sample2.cfgMaskOnly Sample.fimRound1 Sample.trueDir
                               Sample2.calmClient) = true.
Proof.
  split; [vm_compute; reflexivity|].
  apply (more_mechanisms_reject_more float F64_Num Sample2.cfgMaskOnly
           Sample.cfgDefault Sample.fimRound1 Sample.trueDir Sample2.calmClient);
    try reflexivity; intros _; reflexivity.
Defined.

(** ** Over the reals: scores, magnitude, and the non-IID level *)

Section RealDetection.

Open Scope R_scope.

Lemma R_lit_0 : lit (num := R) 0 = 0.
Proof. real_lits. lra. Qed.

(** A [reduce] that adds non-negative terms to a non-negative start. *)
Lemma R_reduce_nonneg (f : R -> nat -> R) (a : list R) :
  (forall v i, 0 <= f v i) ->
  forall k init, 0 <= init ->
                 0 <= reduce_from k (fun acc v i => nadd acc (f v i)) a init.
Proof.
  intros Hf. induction a as [|x a IH]; intros k init Hinit; simpl.
  - exact Hinit.
  - apply IH. cbn [nadd Rnum]. specialize (Hf x k). lra.
Qed.

Lemma R_at_nonneg (v : list R) (i : nat) :
  Forall R_in_0_10 v -> 0 <= at_ v i.
Proof.
  intros Hv. unfold at_.
  destruct (nth_in_or_default i v (undef (num := R))) as [Hin|Hdef].
  - rewrite Forall_forall in Hv. apply Hv in Hin. unfold R_in_0_10 in Hin. lra.
  - rewrite Hdef. cbn [undef Rnum]. lra.
Qed.

Lemma R_score_nonneg (cfg : Config R) (importance g : list R) :
  Forall R_in_0_10 importance -> 0 <= snd (mechanismA cfg importance g).
Proof.
  intros Himp. unfold mechanismA. destruct (useStiffnessMask cfg); cbn [snd].
  - rewrite R_ofNat. cbn [ndiv Rnum]. unfold Rdiv.
    apply Rmult_le_pos.
    + unfold reduce.
      apply (R_reduce_nonneg (fun val idx => nmul (at_ importance idx) (nabs val))).
      * intros v i. cbn [nmul nabs Rnum].
        apply Rmult_le_pos; [now apply R_at_nonneg | apply Rabs_pos].
      * rewrite R_lit_0. lra.
    + left. apply Rinv_0_lt_compat. apply lt_0_INR. unfold VECTOR_DIM. lia.
  - rewrite R_lit_0. lra.
Qed.

Lemma R_run_fim_bounds (trueGradient : list R) (inputs : list (RoundInput R)) :
  Forall R_in_0_10 (globalFIM (run trueGradient inputs)).
Proof. rewrite run_globalFIM. apply R_fim_bounds. Qed.

End RealDetection.

(** X7. Over the reals the stiffness score shown for a client is never
    negative: in every state of a run, each client's
    stiffnessViolationScore is ≥ 0, whatever the gradients, since the
    importance vector stays non-negative; and it is 0 for every client
    after a round in which the stiffness mask is off. *)
Theorem stiffness_score_nonnegative :
  forall (trueGradient : list R) (inputs : list (RoundInput R)),
    Forall (fun c => (0 <= stiffnessViolationScore c)%R)
           (clients (run trueGradient inputs))
    /\ forall inp : RoundInput R,
         useStiffnessMask (fst inp) = false ->
         Forall (fun c => stiffnessViolationScore c = 0%R)
                (clients (run trueGradient (inputs ++ [inp]))).
Proof.
  intros trueGradient inputs. split.
  - destruct inputs as [|inp0 inputs] using rev_ind.
    + constructor.
    + rewrite run_snoc. unfold roundWith. rewrite advance_clients.
      apply Forall_forall. intros c Hc. apply in_map_iff in Hc.
      destruct Hc as [c0 [<- _]]. rewrite processClient_score.
      apply R_score_nonneg.
      rewrite <- advance_globalFIM
        with (trueGradient := trueGradient) (newClients := clientsWith (snd inp0)).
      fold (roundWith trueGradient (run trueGradient inputs) inp0).
      rewrite <- run_snoc. apply R_run_fim_bounds.
  - intros inp Hoff. rewrite run_snoc. unfold roundWith. rewrite advance_clients.
    apply Forall_forall. intros c Hc. apply in_map_iff in Hc.
    destruct Hc as [c0 [<- _]]. rewrite processClient_score.
    rewrite mechanismA_off by exact Hoff. cbn [snd]. apply R_lit_0.
Qed.

(** X8. Over the reals, with the gradient, the importance vector and the
    toggles held fixed, raising the non-IID level never rejects a client
    that was accepted: both thresholds grow with the level and the
    magnitude check does not depend on it. *)
Theorem higher_nonIID_accepts_more :
  forall (cfg cfg' : Config R) (importance trueGradient : list R)
         (client : Client R),
    useMomentumFIM cfg' = useMomentumFIM cfg ->
    useStiffnessMask cfg' = useStiffnessMask cfg ->
    useLayerWeightedClustering cfg' = useLayerWeightedClustering cfg ->
    (nonIIDLevel cfg <= nonIIDLevel cfg')%R ->
    isAccepted (processClient cfg importance trueGradient client) = true ->
    isAccepted (processClient cfg' importance trueGradient client) = true.
Proof.
  intros [m a b l s] [m' a' b' l' s'] importance trueGradient client.
  simpl. intros -> -> -> Hle.
  rewrite !processClient_accepted, !mechanismB_spec.
  unfold fallbackCheck, mechanismA, stiffnessThreshold.
  cbn [useStiffnessMask useLayerWeightedClustering useMomentumFIM nonIIDLevel].
  destruct a; cbn [fst negb andb]; rewrite ?bool_if_id.
  - set (score := ndiv _ _).
    set (dist := spec_dist _ _ _).
    cbn [ngtb nmul nadd Rnum]. unfold Rgtb.
    destruct (Rlt_dec ((if m then lit 12 else lit 15) * (lit 1 + l)) score)
      as [H1|H1];
      destruct (Rlt_dec ((if m then lit 12 else lit 15) * (lit 1 + l')) score)
      as [H1'|H1'];
      destruct b;
      destruct (Rlt_dec (lit 500 * (lit 1 + l)) dist) as [H2|H2];
      destruct (Rlt_dec (lit 500 * (lit 1 + l')) dist) as [H2'|H2'];
      simpl; intros Hacc; try reflexivity; try discriminate;
      exfalso; destruct m; real_lits; lra.
  - destruct b; cbn [negb andb]; [|tauto].
    set (dist := spec_dist _ _ _).
    cbn [ngtb nmul nadd Rnum]. unfold Rgtb.
    destruct (Rlt_dec (lit 500 * (lit 1 + l)) dist) as [H2|H2];
      destruct (Rlt_dec (lit 500 * (lit 1 + l')) dist) as [H2'|H2'];
      simpl; intros Hacc; try reflexivity; try discriminate;
      exfalso; real_lits; lra.
Qed.

Section RealWitness.

Open Scope R_scope.

(** A zero gradient has stiffness score 0 and passes the mask at level 0.5. *)
Lemma R_still_client_accepted :
  isAccepted (processClient SampleR2.cfgMaskOnly SampleR2.ones SampleR.trueDir
                            SampleR2.stillClient) = true.
Proof.
  rewrite processClient_accepted, mechanismB_spec.
  unfold fallbackCheck, mechanismA, stiffnessThreshold, SampleR2.cfgMaskOnly.
  cbn [useStiffnessMask useLayerWeightedClustering useMomentumFIM nonIIDLevel
       fst negb andb].
  rewrite bool_if_id.
  unfold SampleR2.stillClient, newClient, reduce, VECTOR_DIM.
  cbn [gradient repeat reduce_from nabs nadd nmul ndiv ngtb Rnum].
  rewrite Rabs_R0, R_ofNat, R_lit_0. simpl INR.
  unfold Rgtb. destruct (Rlt_dec _ _) as [Hgt|_]; [|reflexivity].
  exfalso. real_lits. lra.
Qed.

End RealWitness.

(** X8 on a zero gradient: accepted at level 0.5, hence at level 1. *)
Lemma higher_nonIID_accepts_more_witness :
  (nonIIDLevel SampleR2.cfgMaskOnly <= nonIIDLevel SampleR2.cfgMaskOnlyWide)%R
  /\ isAccepted (processClient SampleR2.cfgMaskOnly SampleR2.ones SampleR.trueDir
                               SampleR2.stillClient) = true
  /\ isAccepted (processClient SampleR2.cfgMaskOnlyWide SampleR2.ones SampleR.trueDir
                               SampleR2.stillClient) = true.
Proof.
  assert (Hle : (nonIIDLevel SampleR2.cfgMaskOnly
                 <= nonIIDLevel SampleR2.cfgMaskOnlyWide)%R).
  { unfold SampleR2.cfgMaskOnly, SampleR2.cfgMaskOnlyWide. simpl. real_lits. lra. }
  split; [exact Hle|]. split; [exact R_still_client_accepted|].
  exact (higher_nonIID_accepts_more SampleR2.cfgMaskOnly SampleR2.cfgMaskOnlyWide
           SampleR2.ones SampleR.trueDir SampleR2.stillClient
           eq_refl eq_refl eq_refl Hle R_still_client_accepted).
Defined.

Section RealMagnitude.

Open Scope R_scope.

Lemma R_sumsq_nonneg (a : list R) :
  0 <= reduce (fun sum v (_ : nat) => nadd sum (nmul v v)) a (lit 0).
Proof.
  unfold reduce.
  apply (R_reduce_nonneg (fun v _ => nmul v v)).
  - intros v _. cbn [nmul Rnum]. nra.
  - rewrite R_lit_0. lra.
Qed.

Lemma R_dot_self (a : list R) :
  dot a a = reduce (fun sum v (_ : nat) => nadd sum (nmul v v)) a (lit 0).
Proof.
  unfold dot. now rewrite !(reduce_fold _ undef).
Qed.

End RealMagnitude.

(** X9. Over the reals the magnitude is the square root of the dot product
    of a vector with itself: mag(a)·mag(a) = dot(a, a) and mag(a) ≥ 0, for a
    vector of any length (0 for the empty one).  The undefended check
    mag(g) > 25 is therefore the check dot(g, g) > 625. *)
Theorem magnitude_squares_to_dot :
  forall a : list R,
    (mag a * mag a = dot a a)%R
    /\ (0 <= mag a)%R
    /\ ngtb (mag a) (lit 25) = ngtb (dot a a) (lit 625)
    /\ mag (num := R) [] = 0%R.
Proof.
  intros a. rewrite R_dot_self. unfold mag. cbn [nsqrt Rnum].
  pose proof (R_sumsq_nonneg a) as Hnn.
  set (q := reduce _ a _) in *.
  split; [|split; [|split]].
  - now apply sqrt_sqrt.
  - apply sqrt_pos.
  - cbn [ngtb Rnum]. unfold Rgtb.
    assert (H25 : sqrt 625 = 25%R).
    { replace 625%R with (25 * 25)%R by lra. apply sqrt_square. lra. }
    assert (Hl25 : lit (num := R) 25 = 25%R) by (real_lits; lra).
    assert (Hl625 : lit (num := R) 625 = 625%R) by (real_lits; lra).
    rewrite Hl25, Hl625.
    destruct (Rlt_dec 25 (sqrt q)) as [Hs|Hs], (Rlt_dec 625 q) as [Hq|Hq];
      try reflexivity; exfalso.
    + apply Hq. rewrite <- H25 in Hs. now apply sqrt_lt_0_alt in Hs.
    + apply Hs. rewrite <- H25. apply sqrt_lt_1_alt. lra.
  - unfold reduce. cbn [reduce_from]. rewrite R_lit_0. apply sqrt_0.
Qed.

(** ** Over the reals: non-IID level 0 *)

Lemma Forall2_map_eq {A B} (f : A -> B) (l : list A) (l' : list B) :
  Forall2 (fun a b => b = f a) l l' -> l' = map f l.
Proof.
  induction 1 as [|a b l l' -> _ IH]; simpl; [reflexivity | now rewrite IH].
Qed.

Lemma map_nth_all {A} (d : A) (l : list A) :
  map (fun i => nth i l d) (seq 0 (length l)) = l.
Proof.
  apply (nth_ext _ _ d d).
  - now rewrite length_map, length_seq.
  - intros n Hn. rewrite length_map, length_seq in Hn.
    rewrite (nth_indep _ d (nth 0 l d)) by (now rewrite length_map, length_seq).
    rewrite (map_nth (fun i => nth i l d)), seq_nth by exact Hn. reflexivity.
Qed.

Section RealIID.

Open Scope R_scope.

Lemma R_benign_gradient_level_0 (distribution strength : R)
      (trueGradient t g r : list R) :
  length trueGradient = VECTOR_DIM ->
  generateGradient benign distribution 0 strength trueGradient t = Some (g, r) ->
  g = trueGradient.
Proof.
  intros Hlen Hrun. apply for_each_Forall2 in Hrun.
  rewrite <- (map_nth_all (undef (num := R)) trueGradient) at 1.
  rewrite Hlen. apply Forall2_map_eq.
  eapply Forall2_impl; [|exact Hrun].
  intros i x [t1 [t2 Hx]]. unfold bind, ret in Hx.
  destruct (randomNormal t1) as [[rn t3]|]; [|discriminate].
  injection Hx as <- _. unfold at_. cbn [nadd nmul Rnum]. ring.
Qed.

End RealIID.

(** X10. Over the reals, at non-IID level 0 every benign client of a round
    reports exactly the true gradient direction, whatever [Math.random]
    returns: the noise and the bias are both multiplied by the level. *)
Theorem iid_benign_gradient_is_true_direction :
  forall (cfg : Config R) (trueGradient : list R) (prev : SimulationState R)
         (t : list R) (st : SimulationState R) (r : list R),
    nonIIDLevel cfg = 0%R ->
    length trueGradient = VECTOR_DIM ->
    runRound cfg trueGradient prev t = Some (st, r) ->
    forall c, In c (clients st) -> type c = benign -> gradient c = trueGradient.
Proof.
  intros cfg trueGradient prev t st r Hlevel Hlen Hrun c Hc Hbenign.
  unfold runRound, bind, ret in Hrun.
  destruct (generateClients cfg trueGradient t) as [[cs t1]|] eqn:Eg; [|discriminate].
  injection Hrun as <- <-. rewrite advance_clients in Hc.
  apply in_map_iff in Hc. destruct Hc as [c0 [<- Hc0]].
  rewrite processClient_type in Hbenign. rewrite processClient_gradient.
  apply for_each_Forall2 in Eg.
  assert (Hall : Forall (fun c => type c = benign -> gradient c = trueGradient) cs).
  { clear Hc0 Hbenign. induction Eg as [|i c1 l l' [t2 [t3 Hgen]] _ IH];
      constructor; [|exact IH].
    unfold bind, ret in Hgen.
    destruct (generateGradient _ _ _ _ _ t2) as [[g t4]|] eqn:Egrad; [|discriminate].
    injection Hgen as <- _. simpl. intros Hty. rewrite Hty, Hlevel in Egrad.
    eapply R_benign_gradient_level_0; eassumption. }
  rewrite Forall_forall in Hall. now apply Hall.
Qed.

(** X10 on a round at level 0 with the ramp as true direction. *)
Lemma iid_benign_gradient_is_true_direction_witness :
  exists st r,
    runRound SampleR2.cfgIID SampleR2.ramp initialState SampleR.tapeHalf
    = Some (st, r)
    /\ forall c, In c (clients st) -> type c = benign -> gradient c = SampleR2.ramp.
Proof.
  destruct (draws_runRound SampleR2.cfgIID SampleR2.ramp initialState
                           SampleR.tapeHalf) as [st [r [Hrun _]]].
  - unfold SampleR.tapeHalf. rewrite R_nonzeros_repeat by lra. lia.
  - exists st, r. split; [exact Hrun|].
    apply (iid_benign_gradient_is_true_direction SampleR2.cfgIID SampleR2.ramp
             initialState SampleR.tapeHalf st r eq_refl).
    + unfold SampleR2.ramp. now rewrite length_map, length_seq.
    + exact Hrun.
Defined.

(** ** The random source: zero draws, and how many draws a round takes *)

(** X11. [randomNormal] skips the zero draws and applies the Box-Muller
    formula to the first two non-zero ones: [Math.log] is never taken of a
    zero draw.  It fails to return only when fewer than two non-zero draws
    are left. *)
Theorem randomNormal_box_muller :
  forall (num : Type) (N : Num num) (M : MathLib num) (t : list num),
    (forall x r,
        randomNormal t = Some (x, r) ->
        exists z1 u z2 v,
          t = z1 ++ u :: z2 ++ v :: r
          /\ forallb is_zero z1 = true /\ is_zero u = false
          /\ forallb is_zero z2 = true /\ is_zero v = false
          /\ x = (nsqrt (#(-2.0) * m_log u) * m_cos (#2.0 * m_PI * v))%num)
    /\ (randomNormal t = None <-> nonzeros t < 2).
Proof.
  intros num N M t. split.
  - intros x r Hrun. unfold randomNormal, bind, ret in Hrun.
    destruct (drawNonZero t) as [[u t1]|] eqn:Eu; [|discriminate].
    destruct (drawNonZero t1) as [[v t2]|] eqn:Ev; [|discriminate].
    injection Hrun as <- <-.
    destruct (drawNonZero_some _ _ _ Eu) as [z1 [-> [Hz1 Hu]]].
    destruct (drawNonZero_some _ _ _ Ev) as [z2 [-> [Hz2 Hv]]].
    exists z1, u, z2, v. repeat split; assumption.
  - unfold randomNormal, bind, ret.
    destruct (drawNonZero t) as [[u t1]|] eqn:Eu.
    + pose proof (drawNonZero_count _ _ _ Eu) as Hc1.
      destruct (drawNonZero t1) as [[v t2]|] eqn:Ev.
      * pose proof (drawNonZero_count _ _ _ Ev) as Hc2.
        split; [discriminate | lia].
      * apply drawNonZero_none in Ev. split; [lia | reflexivity].
    + apply drawNonZero_none in Eu. split; [lia | reflexivity].
Qed.

(** X12. The states of a session do not depend on the zero draws:
    removing every zero that [Math.random] returned from the tape gives the
    same true direction and the same sequence of states. *)
Theorem zero_draws_are_invisible :
  forall (num : Type) (N : Num num) (M : MathLib num)
         (evs : list (Event num)) (t : list num)
         (out : list num * list (SimulationState num)) (r : list num),
    session evs t = Some (out, r) ->
    session evs (strip t) = Some (out, strip r).
Proof.
  intros num N M evs t out r Hrun.
  now apply blind_session.
Qed.

Lemma R_nonzeros_zero (t : list R) : nonzeros (0%R :: t) = nonzeros t.
Proof.
  unfold nonzeros. cbn [filter is_zero Rnum]. unfold Rzerob at 1.
  destruct (Req_dec_T 0 0) as [_|Hne]; [reflexivity | now elim Hne].
Qed.

(** X12 on a tape over the reals that starts with a zero draw: a session
    of one round. *)
Lemma zero_draws_are_invisible_witness :
  exists out r,
    session [tick SampleR.cfgDefault] (0%R :: SampleR.tapeHalf) = Some (out, r)
    /\ session [tick SampleR.cfgDefault] (strip (0%R :: SampleR.tapeHalf))
       = Some (out, strip r).
Proof.
  destruct (consumes_session [tick SampleR.cfgDefault] (0%R :: SampleR.tapeHalf))
    as [out [r [Hrun _]]].
  - rewrite R_nonzeros_zero. unfold SampleR.tapeHalf.
    rewrite R_nonzeros_repeat by lra.
    unfold sessionDraws. cbn [map list_sum fold_right eventDraws].
    rewrite R_roundDraws. lia.
  - exists out, r. split; [exact Hrun|].
    exact (zero_draws_are_invisible R Rnum Rmath _ _ _ _ Hrun).
Defined.

(** X13. A round that completes consumes exactly 920 non-zero draws of
    [Math.random] (40 for each of the 16 benign clients, 70 for each of the
    4 malicious ones), and drawing the true direction consumes exactly 40:
    in binary64, whatever the engine's [Math] functions, and over the
    reals. *)
Theorem round_draw_count :
  (forall (M : MathLib float) (cfg : Config float) (trueGradient : list float)
          (prev : SimulationState float) (t : list float)
          (st : SimulationState float) (r : list float),
      runRound cfg trueGradient prev t = Some (st, r) ->
      nonzeros t = nonzeros r + 920)
  /\ (forall (cfg : Config R) (trueGradient : list R) (prev : SimulationState R)
             (t : list R) (st : SimulationState R) (r : list R),
         runRound cfg trueGradient prev t = Some (st, r) ->
         nonzeros t = nonzeros r + 920)
  /\ (forall (num : Type) (N : Num num) (M : MathLib num)
             (t g r : list num),
         initTrueGradient t = Some (g, r) ->
         nonzeros t = nonzeros r + 40 /\ length g = VECTOR_DIM).
Proof.
  split; [|split].
  - intros M cfg trueGradient prev t st r Hrun.
    apply exactly_runRound in Hrun. rewrite Hrun, F64_client_types. reflexivity.
  - intros cfg trueGradient prev t st r Hrun.
    apply exactly_runRound in Hrun. rewrite Hrun, R_client_types_program. reflexivity.
  - intros num N M t g r Hrun. split.
    + now apply exactly_initTrueGradient in Hrun.
    + eapply initTrueGradient_length. exact Hrun.
Qed.

(** ** The importance vector in closed form, and its bars *)

Lemma map_from_map_seq {A B} (f : A -> nat -> B) (F : nat -> A) (n : nat) :
  forall k, map_from k f (map F (seq k n)) = map (fun j => f (F j) j) (seq k n).
Proof.
  induction n as [|n IH]; intros k; simpl; [reflexivity | now rewrite IH].
Qed.

Section RealImportance.

Open Scope R_scope.

Lemma R_importance_closed (k : nat) :
  Nat.iter k emaStep (repeat (lit (num := R) 1) VECTOR_DIM) = R_importanceAfter k.
Proof.
  induction k as [|k IH].
  - unfold R_importanceAfter, VECTOR_DIM. simpl.
    repeat apply f_equal2; try reflexivity; real_lits; lra.
  - rewrite Nat.iter_succ, IH. unfold emaStep, mapi, R_importanceAfter.
    rewrite map_from_map_seq. apply map_ext_in. intros j Hj.
    apply in_seq in Hj. rewrite idealFIM_at by lia.
    unfold spec_idealImportance. destruct (j <? 5)%nat; real_lits; simpl pow; lra.
Qed.

End RealImportance.

(** One update keeps the fifteen non-trigger coordinates at exactly 1. *)
Lemma F64_emaStep_tail (a b c d e : float) :
  emaStep ([a; b; c; d; e] ++ repeat 1%float 15)
  = [(0.9 * a + 1)%float; (0.9 * b + 1)%float; (0.9 * c + 1)%float;
     (0.9 * d + 1)%float; (0.9 * e + 1)%float] ++ repeat 1%float 15.
Proof. reflexivity. Qed.

Lemma F64_importance_tail (k : nat) :
  exists a b c d e,
    Nat.iter k emaStep (repeat (lit (num := float) 1) VECTOR_DIM)
    = [a; b; c; d; e] ++ repeat 1%float 15.
Proof.
  induction k as [|k [a [b [c [d [e IH]]]]]].
  - now exists 1%float, 1%float, 1%float, 1%float, 1%float.
  - rewrite Nat.iter_succ, IH, F64_emaStep_tail. now do 5 eexists.
Qed.

(** X14. The importance vector depends only on the number k of rounds run
    with momentum-FIM enabled.  Over the reals it is 10 − 9·0.9^k on the
    trigger coordinates 0-4 and 1 elsewhere.  In binary64 the non-trigger
    coordinates are exactly 1 in every state, and from k = 327 on the
    vector no longer changes: it is 9.9999999999999947 on the trigger
    coordinates. *)
Theorem importance_closed_form :
  (forall (trueGradient : list R) (inputs : list (RoundInput R)),
      globalFIM (run trueGradient inputs)
      = map (fun j => if j <? 5
                      then (10 - 9 * (9 / 10) ^ momentumRounds inputs)%R
                      else 1%R)
            (seq 0 VECTOR_DIM))
  /\ (forall (trueGradient : list float) (inputs : list (RoundInput float)),
         skipn 5 (globalFIM (run trueGradient inputs)) = repeat 1%float 15)
  /\ (forall (trueGradient : list float) (inputs : list (RoundInput float)),
         327 <= momentumRounds inputs ->
         globalFIM (run trueGradient inputs)
         = repeat 9.9999999999999947%float 5 ++ repeat 1%float 15).
Proof.
  split; [|split].
  - intros trueGradient inputs. rewrite run_globalFIM. apply R_importance_closed.
  - intros trueGradient inputs. rewrite run_globalFIM.
    destruct (F64_importance_tail (momentumRounds inputs))
      as [a [b [c [d [e ->]]]]].
    reflexivity.
  - intros trueGradient inputs Hk. rewrite run_globalFIM.
    replace (momentumRounds inputs) with (327 + (momentumRounds inputs - 327)) by lia.
    rewrite (iter_stable emaStep _ 327 F64_fim_fixed_point).
    vm_compute. reflexivity.
Qed.

(** X15. In every state of a run (binary64) each bar of the importance map
    has a height between 10 and 80 percent, so the cap [Math.min(100, ...)]
    never takes effect; and the fifteen bars of the non-trigger coordinates
    are always at the floor of 10 percent, their value 1·8 lying below it. *)
Theorem importance_bars_bounded :
  forall (trueGradient : list float) (inputs : list (RoundInput float)),
    let st := run trueGradient inputs in
    length (Bars.barHeights st) = VECTOR_DIM
    /\ Forall (fun val =>
                 PrimFloat.leb 10 (Bars.heightPercent val) = true
                 /\ PrimFloat.leb (Bars.heightPercent val) 80 = true
                 /\ PrimFloat.eqb (Bars.heightPercent val)
                                  (Bars.js_max 10 (val * 8)) = true)
              (globalFIM st)
    /\ skipn 5 (Bars.barHeights st) = repeat 10%float 15.
Proof.
  intros trueGradient inputs st. subst st. unfold Bars.barHeights.
  split; [|split].
  - rewrite length_map, run_globalFIM, iter_emaStep_length. apply repeat_length.
  - rewrite run_globalFIM.
    assert (Hok : forallb Bars.bar_ok
                          (Nat.iter (momentumRounds inputs) emaStep
                                    (repeat (lit (num := float) 1) VECTOR_DIM)) = true).
    { apply (orbit_invariant emaStep _ 327 (forallb Bars.bar_ok)).
      - exact F64_fim_fixed_point.
      - vm_compute. reflexivity. }
    rewrite forallb_forall in Hok. apply Forall_forall. intros val Hval.
    specialize (Hok val Hval). unfold Bars.bar_ok in Hok.
    apply andb_true_iff in Hok. destruct Hok as [Hok Heq].
    apply andb_true_iff in Hok. destruct Hok as [Hlo Hhi].
    repeat split; assumption.
  - rewrite skipn_map, run_globalFIM.
    destruct (F64_importance_tail (momentumRounds inputs))
      as [a [b [c [d [e ->]]]]].
    vm_compute. reflexivity.
Qed.
